(** * githubImg: image-source rewriting and the private-repository URL cache

    A shallow embedding of [src/services/githubImg.js].  JavaScript strings
    are modelled as [string] (one character per code unit; every character
    the module inspects is ASCII), the three mappings of [state] as finite
    maps keyed by the fully-qualified path, and the asynchronous [getRawUrl]
    as the two synchronous segments that surround its single [await]. *)

From Stdlib Require Import ZArith Lia Bool Ascii String List.
From stdpp Require Import base option list gmap strings.

#[local] Open Scope Z_scope.
#[local] Open Scope nat_scope.

(** ** The [String.prototype] methods the module calls *)

Module Js.

(** [s.startsWith(p)] *)
Fixpoint startsWith (s p : string) {struct p} : bool :=
  match p with
  | EmptyString => true
  | String c p' =>
      match s with
      | EmptyString => false
      | String d s' => if Ascii.eqb c d then startsWith s' p' else false
      end
  end.

(** [s.indexOf(p)], with [None] for [-1]. *)
Fixpoint indexOf (s p : string) : option nat :=
  if startsWith s p then Some 0
  else match s with
       | EmptyString => None
       | String _ s' => option_map S (indexOf s' p)
       end.

Fixpoint take (n : nat) (s : string) : string :=
  match n, s with
  | S n', String c s' => String c (take n' s')
  | _, _ => EmptyString
  end.

Fixpoint drop (n : nat) (s : string) : string :=
  match n, s with
  | S n', String _ s' => drop n' s'
  | _, _ => s
  end.

(** [GetSubstitution] for a string pattern: there are no capture groups, so
    of the dollar forms only [$$], [$&], [$`] and [$'] are expanded; [$1],
    [$<name>] and a lone [$] stay as written. *)
Fixpoint getSubstitution (matched preceding following template : string)
  : string :=
  match template with
  | EmptyString => EmptyString
  | String c rest =>
      if Ascii.eqb c "$" then
        match rest with
        | String d rest' =>
            if Ascii.eqb d "$" then
              String "$" (getSubstitution matched preceding following rest')
            else if Ascii.eqb d "&" then
              matched +:+ getSubstitution matched preceding following rest'
            else if Ascii.eqb d "`" then
              preceding +:+ getSubstitution matched preceding following rest'
            else if Ascii.eqb d "'" then
              following +:+ getSubstitution matched preceding following rest'
            else
              String c (getSubstitution matched preceding following rest)
        | EmptyString => String c EmptyString
        end
      else String c (getSubstitution matched preceding following rest)
  end.

(** [s.replace(pattern, template)] with a string pattern: only the first
    occurrence is replaced. *)
Definition replace (s pattern template : string) : string :=
  match indexOf s pattern with
  | None => s
  | Some i =>
      let preceding := take i s in
      let following := drop (i + String.length pattern) s in
      preceding +:+ getSubstitution pattern preceding following template
                +:+ following
  end.

(** [s.split(sep)] for a one-character separator; never the empty array. *)
Fixpoint split (sep : ascii) (s : string) : list string :=
  match s with
  | EmptyString => [EmptyString]
  | String c s' =>
      if Ascii.eqb c sep then EmptyString :: split sep s'
      else match split sep s' with
           | h :: t => String c h :: t
           | [] => [String c EmptyString]
           end
  end.

(** [a.slice(0, -1)] *)
Definition slice_0_m1 (a : list string) : list string := removelast a.

(** [a.join(sep)] *)
Definition join (sep : string) (a : list string) : string :=
  String.concat sep a.

(** [a[0]] of an array of strings known to be non-empty. *)
Definition first (a : list string) : string := hd EmptyString a.

End Js.

(** ** Properties of strings used in the statements *)

(** [c] occurs nowhere in [s]. *)
Fixpoint lacks (c : ascii) (s : string) : Prop :=
  match s with
  | EmptyString => True
  | String d s' => d <> c /\ lacks c s'
  end.

(** [p] occurs in [s] at offset [i] and at no smaller offset. *)
Definition firstAt (s p : string) (i : nat) : Prop :=
  Js.startsWith (Js.drop i s) p = true /\ i <= String.length s /\
  forall j, j < i -> Js.startsWith (Js.drop j s) p = false.

(** [p] does not occur in [s]. *)
Definition absent (p s : string) : Prop := Js.indexOf s p = None.

(** No occurrence of [p] starts in the part [x] of [x ++ s]. *)
Definition clear (p x s : string) : Prop :=
  forall j, j < String.length x ->
            Js.startsWith (Js.drop j (x +:+ s)) p = false.

(** [s] does not continue a begun occurrence of [p]. *)
Definition guard (p s : string) : Prop :=
  forall p1 p2, p = p1 +:+ p2 -> p1 <> "" -> p2 <> "" ->
                Js.startsWith s p2 = false.

(** [r] is [x] with everything from the first [?] onward dropped. *)
Definition drops_query (x r : string) : Prop :=
  lacks "?" r /\ (x = r \/ exists rest, x = r +:+ String "?" rest).

(** ** URL translation *)

Definition rawHost : string := "https://raw.githubusercontent.com/".

(** [`https://raw.githubusercontent.com/${owner}/${repo}/${branch}/`] *)
Definition rawPrefix (owner repo branch : string) : string :=
  rawHost +:+ owner +:+ "/" +:+ repo +:+ "/" +:+ branch +:+ "/".

Definition getRelativeUrl (owner repo branch path : string) : string :=
  if Js.startsWith path "https://raw.githubusercontent.com/" then
    let relativePath := Js.replace path (rawPrefix owner repo branch) "" in
    Js.first (Js.split "?" relativePath)
  else path.


(** ** JavaScript values that reach the module *)

(** Arguments and cached download URLs are strings, [undefined] or [null]. *)
Inductive value :=
  | VUndefined
  | VNull
  | VStr (s : string).

(** [ToString(v)] *)
Definition toString (v : value) : string :=
  match v with
  | VUndefined => "undefined"
  | VNull => "null"
  | VStr s => s
  end.

(** [ToBoolean(v)]: of the strings only the empty one is falsy. *)
Definition truthy (v : value) : bool :=
  match v with
  | VStr (String _ _) => true
  | _ => false
  end.

(** [v != undefined] (loose inequality, so [null] compares equal). *)
Definition notUndefined (v : value) : bool :=
  match v with
  | VStr _ => true
  | _ => false
  end.

(** Reading a property of a plain object: a missing key reads [undefined]. *)
Definition prop (o : gmap string value) (key : string) : value :=
  default VUndefined (o !! key).

(** [v || null] *)
Definition orNull (v : value) : value := if truthy v then v else VNull.

(** A call either returns, throws a [TypeError] (a method called on
    [undefined]), or rejects with the failure of the directory listing. *)
Inductive result (A : Type) :=
  | Ok (a : A)
  | TypeError
  | ListingFailed.
Arguments Ok {A} a.
Arguments TypeError {A}.
Arguments ListingFailed {A}.

Definition bind {A B} (x : result A) (f : A -> result B) : result B :=
  match x with
  | Ok a => f a
  | TypeError => TypeError
  | ListingFailed => ListingFailed
  end.

(** ** The regular expression of [getImgSrcs] *)

Module Regex.

(** The fragment of the regular-expression syntax that the module uses. *)
Inductive regex :=
  | Lit (s : string)              (* literal characters *)
  | StarNot (c : ascii)           (* [^c]*  (greedy) *)
  | PlusNot (c : ascii)           (* [^c]+  (greedy) *)
  | Seq (r1 r2 : regex)           (* r1 r2 *)
  | Alt (r1 r2 : regex)           (* r1|r2 *)
  | Group (n : nat) (r : regex).  (* the n-th capturing group *)

Definition captures := nat -> option string.

Definition noCaptures : captures := fun _ => None.

Definition setCapture (n : nat) (x : string) (caps : captures) : captures :=
  fun m => if Nat.eqb m n then Some x else caps m.

(** What remains of [s] after the literal [p], if [s] starts with it. *)
Fixpoint afterLit (p s : string) {struct p} : option string :=
  match p with
  | EmptyString => Some s
  | String c p' =>
      match s with
      | EmptyString => None
      | String d s' => if Ascii.eqb c d then afterLit p' s' else None
      end
  end.

(** Greedy [^c]*: the longest run is tried first, then shorter ones. *)
Fixpoint starNot {A} (c : ascii) (s : string) (k : string -> option A)
  : option A :=
  match s with
  | EmptyString => k s
  | String d s' =>
      if Ascii.eqb d c then k s
      else match starNot c s' k with
           | Some a => Some a
           | None => k s
           end
  end.

(** The part of [s] in front of its suffix [s']. *)
Definition consumed (s s' : string) : string :=
  Js.take (String.length s - String.length s') s.

(** Backtracking matcher: [k] is the rest of the pattern; alternatives are
    tried in the order a backtracking engine tries them. *)
Fixpoint run {A} (r : regex) (s : string) (caps : captures)
    (k : string -> captures -> option A) : option A :=
  match r with
  | Lit p =>
      match afterLit p s with
      | Some s' => k s' caps
      | None => None
      end
  | StarNot c => starNot c s (fun s' => k s' caps)
  | PlusNot c =>
      match s with
      | EmptyString => None
      | String d s' =>
          if Ascii.eqb d c then None
          else starNot c s' (fun s'' => k s'' caps)
      end
  | Seq r1 r2 => run r1 s caps (fun s1 caps1 => run r2 s1 caps1 k)
  | Alt r1 r2 =>
      match run r1 s caps k with
      | Some a => Some a
      | None => run r2 s caps k
      end
  | Group n r =>
      run r s caps (fun s' caps' => k s' (setCapture n (consumed s s') caps'))
  end.

(** A match array: [m[0]], [m[1]], [m[2]]; a group that did not take part
    reads [undefined]. *)
Record rmatch := {
  m_0 : string;
  m_1 : value;
  m_2 : value;
}.

Definition group (caps : captures) (n : nat) : value :=
  match caps n with
  | Some x => VStr x
  | None => VUndefined
  end.

(** One attempt at the current position. *)
Definition exec (r : regex) (s : string) : option rmatch :=
  run r s noCaptures
    (fun rest caps =>
       Some {| m_0 := consumed s rest;
               m_1 := group caps 1;
               m_2 := group caps 2 |}).

(** [s.matchAll(r)] for a global [r]: the leftmost match from the current
    position, then on from its end ([skip] counts the characters of the
    last match still to be passed over; an empty match advances by one). *)
Fixpoint matchAllFrom (r : regex) (skip : nat) (s : string) : list rmatch :=
  match s with
  | EmptyString =>
      match skip with
      | 0 => match exec r s with Some m => [m] | None => [] end
      | S _ => []
      end
  | String _ s' =>
      match skip with
      | S n => matchAllFrom r n s'
      | 0 =>
          match exec r s with
          | Some m => m :: matchAllFrom r (pred (String.length (m_0 m))) s'
          | None => matchAllFrom r 0 s'
          end
      end
  end.

Definition matchAll (r : regex) (s : string) : list rmatch :=
  matchAllFrom r 0 s.

(** What a pattern can match, priorities aside: [matches r s caps s' caps']
    when [r] can consume the front of [s] up to [s'], turning the captures
    [caps] into [caps']. *)
Inductive matches : regex -> string -> captures -> string -> captures -> Prop :=
  | matches_Lit p s caps :
      matches (Lit p) (p +:+ s) caps s caps
  | matches_StarNot c x s caps :
      lacks c x -> matches (StarNot c) (x +:+ s) caps s caps
  | matches_PlusNot c d x s caps :
      d <> c -> lacks c x ->
      matches (PlusNot c) (String d (x +:+ s)) caps s caps
  | matches_Seq r1 r2 s caps s1 caps1 s2 caps2 :
      matches r1 s caps s1 caps1 -> matches r2 s1 caps1 s2 caps2 ->
      matches (Seq r1 r2) s caps s2 caps2
  | matches_AltL r1 r2 s caps s' caps' :
      matches r1 s caps s' caps' -> matches (Alt r1 r2) s caps s' caps'
  | matches_AltR r1 r2 s caps s' caps' :
      matches r2 s caps s' caps' -> matches (Alt r1 r2) s caps s' caps'
  | matches_Group n r s caps s' caps' :
      matches r s caps s' caps' ->
      matches (Group n r) s caps s' (setCapture n (consumed s s') caps').

End Regex.

Import Regex.

Definition dquote : ascii := "034"%char.
Definition squote : ascii := "'"%char.

(** The pattern of [getImgSrcs], with [Q] standing for the double quote:
    [/<img [^>]*src=(?:Q([^Q]+)Q|'([^']+)')[^>]*>/g] *)
Definition imgRegex : regex :=
  Seq (Lit "<img ")
 (Seq (StarNot ">")
 (Seq (Lit "src=")
 (Seq (Alt (Seq (Lit (String dquote ""))
           (Seq (Group 1 (PlusNot dquote)) (Lit (String dquote ""))))
           (Seq (Lit "'")
           (Seq (Group 2 (PlusNot squote)) (Lit "'"))))
 (Seq (StarNot ">")
      (Lit ">"))))).

Definition getImgSrcs (html : string) : list rmatch :=
  matchAll imgRegex html.


(** The text of a tag the pattern matches: attributes [a], the source [v]
    between two quotes [q], attributes [b]. *)
Definition imgTag (a : string) (q : ascii) (v b : string) : string :=
  "<img " +:+ a +:+ "src=" +:+ String q (v +:+ String q (b +:+ ">")).

(** The match array for that tag. *)
Definition imgMatch (a : string) (q : ascii) (v b : string) : rmatch :=
  {| m_0 := imgTag a q v b;
     m_1 := if Ascii.eqb q dquote then VStr v else VUndefined;
     m_2 := if Ascii.eqb q dquote then VUndefined else VStr v |}.

(** [p] occurs somewhere in [s]. *)
Definition occurs (p s : string) : Prop :=
  exists x y, s = x +:+ p +:+ y.

(** Somewhere in the text, [src=] is followed by a quote and then by a
    character other than that quote. *)
Fixpoint hasSource (s : string) : bool :=
  match s with
  | EmptyString => false
  | String _ s' =>
      (Js.startsWith s "src=" &&
       match Js.drop 4 s with
       | String q (String c _) =>
           (Ascii.eqb q dquote || Ascii.eqb q squote) && negb (Ascii.eqb c q)
       | _ => false
       end)
      || hasSource s'
  end.

(** Whatever [src] attributes the text has are empty. *)
Definition noSource (html : string) : Prop := hasSource html = false.

(** ** Rewriting the [src] attributes of an HTML text *)

(** [`src=${quote}${src}${quote}`] *)
Definition srcAttr (quote src : string) : string :=
  "src=" +:+ quote +:+ src +:+ quote.

(** [src.startsWith(from) && !(from == '/' && src.startsWith('//'))] *)
Definition hasPrefix (src from : string) : bool :=
  Js.startsWith src from
  && negb (String.eqb from "/" && Js.startsWith src "//").

(** [!src.startsWith('http://') && !src.startsWith('https://') &&
    !src.startsWith('data:image/')] *)
Definition notRemote (src : string) : bool :=
  negb (Js.startsWith src "http://")
  && negb (Js.startsWith src "https://")
  && negb (Js.startsWith src "data:image/").

(** [!src.startsWith('/') && ...]: the source is a repository-relative path. *)
Definition isRelative (src : string) : bool :=
  negb (Js.startsWith src "/") && notRemote src.

(** The head of every loop over the matches:
    [const src = match[1] || match[2]; const quote = match[1] ? Q : "'";] *)
Definition srcOf (m : rmatch) : value :=
  if truthy (m_1 m) then m_1 m else m_2 m.

Definition quoteOf (m : rmatch) : string :=
  if truthy (m_1 m) then String dquote "" else "'".

(** Every loop body starts with a method call on [src], which throws when
    [src] is not a string. *)
Definition withSrc {A} (m : rmatch) (body : string -> string -> result A)
  : result A :=
  match srcOf m with
  | VStr src => body (quoteOf m) src
  | _ => TypeError
  end.

(** A loop over the matches that updates the text in place. *)
Fixpoint forEachMatch (body : string -> string -> string -> string)
    (matches : list rmatch) (html : string) : result string :=
  match matches with
  | [] => Ok html
  | m :: rest =>
      bind (withSrc m (fun quote src => Ok (body quote src html)))
           (forEachMatch body rest)
  end.

(** The body of the loop of [relativeToRawUrls] once [getRawUrl] has
    answered [rawUrl]. *)
Definition substituteRawUrl (quote src : string) (rawUrl : value)
    (newHtml : string) : string :=
  if truthy rawUrl then
    Js.replace newHtml (srcAttr quote src) (srcAttr quote (toString rawUrl))
  else newHtml.

Definition rawToRelativeUrls (owner repo branch html : string)
  : result string :=
  forEachMatch
    (fun quote src html =>
       if Js.startsWith src "https://raw.githubusercontent.com/" then
         let relativePath := Js.replace src (rawPrefix owner repo branch) "" in
         let relativePath := Js.first (Js.split "?" relativePath) in
         Js.replace html (srcAttr quote src) (srcAttr quote relativePath)
       else html)
    (getImgSrcs html) html.

(** [swapPrefix], [htmlSwapPrefix], [removePrefix] and [addPrefix] on string
    arguments. *)
Definition swapPrefix (path from to : string) : string :=
  if hasPrefix path from && notRemote path then Js.replace path from to
  else path.

Definition htmlSwapPrefix (html from to : string) : result string :=
  forEachMatch
    (fun quote src newHtml =>
       if hasPrefix src from && notRemote src then
         let newSrc := Js.replace src from to in
         Js.replace newHtml (srcAttr quote src) (srcAttr quote newSrc)
       else newHtml)
    (getImgSrcs html) html.

Definition removePrefix (html prefix : string) : result string :=
  forEachMatch
    (fun quote src html =>
       if hasPrefix src prefix then
         let srcWithoutPrefix := Js.replace src prefix "" in
         Js.replace html (srcAttr quote src) (srcAttr quote srcWithoutPrefix)
       else html)
    (getImgSrcs html) html.

Definition addPrefix (html prefix : string) : result string :=
  forEachMatch
    (fun quote src html =>
       if isRelative src then
         Js.replace html (srcAttr quote src) (srcAttr quote (prefix +:+ src))
       else html)
    (getImgSrcs html) html.

(** The same four operations on arbitrary arguments.  [swapPrefix] and
    [htmlSwapPrefix] test their arguments against [undefined]; the other two
    do not: [html.matchAll] throws when [html] is not a string, and an absent
    [prefix] is converted to a string where one is expected
    ([startsWith], [replace], the template literal). *)
Module Dyn.

Definition swapPrefix (path from to : value) : result value :=
  if notUndefined path && notUndefined from && notUndefined to then
    Ok (VStr (swapPrefix (toString path) (toString from) (toString to)))
  else Ok path.

Definition htmlSwapPrefix (html from to : value) : result value :=
  if notUndefined html && notUndefined from && notUndefined to then
    bind (htmlSwapPrefix (toString html) (toString from) (toString to))
         (fun newHtml => Ok (VStr newHtml))
  else Ok html.

Definition removePrefix (html prefix : value) : result value :=
  match html with
  | VStr html =>
      bind (removePrefix html (toString prefix))
           (fun html => Ok (VStr html))
  | _ => TypeError
  end.

Definition addPrefix (html prefix : value) : result value :=
  match html with
  | VStr html =>
      bind (addPrefix html (toString prefix)) (fun html => Ok (VStr html))
  | _ => TypeError
  end.

End Dyn.


(** [html'] comes from [html] by at most one substitution per match, in the
    order of the matches [ms]: a substitution replaces the first occurrence
    of the attribute text [src=] quote source quote of its match in the
    text as it then is; what stands in front of that occurrence ([x]) and
    behind it ([y]) is kept. *)
Inductive rewrittenBy : list rmatch -> string -> string -> Prop :=
  | rewritten_done html : rewrittenBy [] html html
  | rewritten_skip m ms html html' :
      rewrittenBy ms html html' -> rewrittenBy (m :: ms) html html'
  | rewritten_step m ms html x y new v html' :
      srcOf m = VStr v ->
      html = x +:+ srcAttr (quoteOf m) v +:+ y ->
      Js.indexOf html (srcAttr (quoteOf m) v) = Some (String.length x) ->
      rewrittenBy ms (x +:+ new +:+ y) html' ->
      rewrittenBy (m :: ms) html html'.

(** ** The directory cache *)

(** TTL for the cache (in milliseconds) *)
Definition ttl : Z := 10000.

(** The three mappings of [state], keyed by fully-qualified path.  Every key
    is built by the template below and so contains a [/]: none coincides
    with a property inherited from [Object.prototype].  [requests] holds the
    pending listing, named by the index of its invocation. *)
Record state := {
  urls : gmap string value;
  paths : gmap string Z;
  requests : gmap string nat;
}.

Definition emptyState : state :=
  {| urls := ∅; paths := ∅; requests := ∅ |}.

(** A descriptor returned by the directory listing. *)
Record file := {
  path : string;
  download_url : value;
}.

(** The promise of a listing: pending, fulfilled with the descriptors (or
    with nothing), or rejected. *)
Inductive status :=
  | Pending
  | Fulfilled (files : option (list file))
  | Rejected.

(** One invocation of [github.getContents(owner, repo, branch, path, false)]
    and the promise it returned. *)
Record listing := {
  l_owner : string;
  l_repo : string;
  l_branch : string;
  l_path : string;
  l_status : status;
}.

(** The collaborator: every invocation so far, in order. *)
Abbreviation github := (list listing).

Definition getContents (owner repo branch path : string) (gh : github)
  : github * nat :=
  (gh ++ [{| l_owner := owner; l_repo := repo; l_branch := branch;
             l_path := path; l_status := Pending |}],
   length gh).

(** [`${owner}/${repo}/${branch}/${path}`] *)
Definition fullPathOf (owner repo branch path : string) : string :=
  owner +:+ "/" +:+ repo +:+ "/" +:+ branch +:+ "/" +:+ path.

(** [path.split('/').slice(0, -1).join('/')] *)
Definition parentPathOf (path : string) : string :=
  Js.join "/" (Js.slice_0_m1 (Js.split "/" path)).

(** [state.paths[key]] read as a condition: set, and not the number zero. *)
Definition marked (st : state) (key : string) : bool :=
  match paths st !! key with
  | Some t => negb (Z.eqb t 0)
  | None => false
  end.

(** [state.paths[key] && state.paths[key] < Date.now() - ttl] *)
Definition expired (st : state) (key : string) (now : Z) : bool :=
  match paths st !! key with
  | Some t => negb (Z.eqb t 0) && Z.ltb t (now - ttl)
  | None => false
  end.

Definition addRawUrls (owner repo branch : string)
    (files : option (list file)) (st : state) : state :=
  match files with
  | Some files =>
      fold_left
        (fun st file =>
           {| urls := <[fullPathOf owner repo branch (path file)
                        := download_url file]> (urls st);
              paths := paths st;
              requests := requests st |})
        files st
  | None => st
  end.

(** How far a call of [getRawUrl] gets without suspending. *)
Inductive outcome :=
  | Return (v : value)
  | Await (pid : nat).

(** [getRawUrl] in private mode, up to its [await] (or to its [return] when
    it does not reach one).  [now] is what [Date.now()] reads. *)
Definition getRawUrl_start (now : Z) (owner repo branch path : string)
    (st : state) (gh : github) : state * github * outcome :=
  let fullPath := fullPathOf owner repo branch path in
  if negb (truthy (prop (urls st) fullPath)) then
    let parentPath := parentPathOf path in
    let fullParentPath := fullPathOf owner repo branch parentPath in
    let st :=
      if expired st fullParentPath now then
        {| urls := urls st;
           paths := delete fullParentPath (paths st);
           requests := requests st |}
      else st in
    if marked st fullParentPath then (st, gh, Return VNull)
    else
      match requests st !! fullParentPath with
      | Some pid => (st, gh, Await pid)
      | None =>
          let '(gh, pid) := getContents owner repo branch parentPath gh in
          ({| urls := urls st;
              paths := paths st;
              requests := <[fullParentPath := pid]> (requests st) |},
           gh, Await pid)
      end
  else (st, gh, Return (orNull (prop (urls st) fullPath))).

(** The rest of [getRawUrl] once the awaited listing is fulfilled with
    [files]. *)
Definition getRawUrl_resume (now : Z) (owner repo branch path : string)
    (files : option (list file)) (st : state) : state * value :=
  let fullPath := fullPathOf owner repo branch path in
  let fullParentPath := fullPathOf owner repo branch (parentPathOf path) in
  let st := addRawUrls owner repo branch files st in
  let st :=
    {| urls := urls st;
       paths := <[fullParentPath := now]> (paths st);
       requests := delete fullParentPath (requests st) |} in
  (st, orNull (prop (urls st) fullPath)).

(** [getRawUrl] in public mode. *)
Definition publicRawUrl (owner repo branch path : string) : string :=
  "https://raw.githubusercontent.com/" +:+ owner +:+ "/" +:+ repo +:+ "/"
    +:+ branch +:+ "/" +:+ path.

(** ** Calls suspended on a listing *)

(** The event loop around the cache: the calls of [getRawUrl] that are
    suspended at their [await], and the calls that have completed, with what
    their promise settled to. *)
Record call := {
  c_id : nat;
  c_owner : string;
  c_repo : string;
  c_branch : string;
  c_path : string;
  c_pid : nat;
}.

Record loop := {
  cache : state;
  listings : github;
  waiting : list call;
  completed : list (nat * result value);
  started : nat;
}.

Definition emptyLoop : loop :=
  {| cache := emptyState; listings := []; waiting := [];
     completed := []; started := 0 |}.

(** What the program does next.  [Call] runs a private-mode [getRawUrl] up to
    its [await]; [now'] is the clock of its continuation should the awaited
    listing be settled already.  [Settle] settles a pending listing, with the
    descriptors or with a failure, and runs the continuations of the calls
    suspended on it in the order they suspended, the [i]-th of them reading
    [clock i]: the reactions of a promise are queued together when it
    settles and run before anything else is started. *)
Inductive event :=
  | Call (now now' : Z) (owner repo branch path : string)
  | Settle (pid : nat) (answer : option (option (list file)))
      (clock : nat -> Z).

Definition statusOf (gh : github) (pid : nat) : option status :=
  l_status <$> gh !! pid.

Definition withStatus (s : status) (l : listing) : listing :=
  {| l_owner := l_owner l; l_repo := l_repo l; l_branch := l_branch l;
     l_path := l_path l; l_status := s |}.

Definition setStatus (pid : nat) (s : status) (gh : github) : github :=
  match gh !! pid with
  | Some l => <[pid := withStatus s l]> gh
  | None => gh
  end.

(** The continuations of the calls suspended on [pid], fulfilled with
    [files]. *)
Fixpoint resumeAll (clock : nat -> Z) (i : nat) (pid : nat)
    (files : option (list file)) (ws : list call) (st : state)
  : state * list call * list (nat * result value) :=
  match ws with
  | [] => (st, [], [])
  | w :: ws' =>
      if Nat.eqb (c_pid w) pid then
        let '(st, v) :=
          getRawUrl_resume (clock i) (c_owner w) (c_repo w) (c_branch w)
            (c_path w) files st in
        let '(st, keep, done) := resumeAll clock (S i) pid files ws' st in
        (st, keep, (c_id w, Ok v) :: done)
      else
        let '(st, keep, done) := resumeAll clock i pid files ws' st in
        (st, w :: keep, done)
  end.

(** The calls suspended on [pid] when it rejects: the [await] throws and
    nothing after it runs. *)
Fixpoint rejectAll (pid : nat) (ws : list call)
  : list call * list (nat * result value) :=
  match ws with
  | [] => ([], [])
  | w :: ws' =>
      let '(keep, done) := rejectAll pid ws' in
      if Nat.eqb (c_pid w) pid then (keep, (c_id w, ListingFailed) :: done)
      else (w :: keep, done)
  end.

Definition step (l : loop) (e : event) : loop :=
  match e with
  | Call now now' owner repo branch path =>
      let id := started l in
      let '(st, gh, o) :=
        getRawUrl_start now owner repo branch path (cache l) (listings l) in
      match o with
      | Return v =>
          {| cache := st; listings := gh; waiting := waiting l;
             completed := completed l ++ [(id, Ok v)]; started := S id |}
      | Await pid =>
          match statusOf gh pid with
          | Some (Fulfilled files) =>
              let '(st, v) :=
                getRawUrl_resume now' owner repo branch path files st in
              {| cache := st; listings := gh; waiting := waiting l;
                 completed := completed l ++ [(id, Ok v)]; started := S id |}
          | Some Rejected =>
              {| cache := st; listings := gh; waiting := waiting l;
                 completed := completed l ++ [(id, ListingFailed)];
                 started := S id |}
          | _ =>
              {| cache := st; listings := gh;
                 waiting := waiting l ++
                   [{| c_id := id; c_owner := owner; c_repo := repo;
                       c_branch := branch; c_path := path; c_pid := pid |}];
                 completed := completed l; started := S id |}
          end
      end
  | Settle pid answer clock =>
      match statusOf (listings l) pid with
      | Some Pending =>
          match answer with
          | Some files =>
              let '(st, keep, done) :=
                resumeAll clock 0 pid files (waiting l) (cache l) in
              {| cache := st;
                 listings := setStatus pid (Fulfilled files) (listings l);
                 waiting := keep; completed := completed l ++ done;
                 started := started l |}
          | None =>
              let '(keep, done) := rejectAll pid (waiting l) in
              {| cache := cache l;
                 listings := setStatus pid Rejected (listings l);
                 waiting := keep; completed := completed l ++ done;
                 started := started l |}
          end
      | _ => l
      end
  end.

Definition runEvents (l : loop) (es : list event) : loop :=
  fold_left step es l.

(** The fully-qualified directory a listing was requested for. *)
Definition directoryOf (l : listing) : string :=
  fullPathOf (l_owner l) (l_repo l) (l_branch l) (l_path l).

Definition isPending (l : listing) : bool :=
  match l_status l with
  | Pending => true
  | _ => false
  end.

(** The listings in flight for the directory [dir]. *)
Definition inFlight (dir : string) (gh : github) : list listing :=
  List.filter (fun l => isPending l && String.eqb (directoryOf l) dir) gh.

(** ** Calls run to completion

    [relativeToRawUrls] awaits one [getRawUrl] at a time.  Run on its own, a
    call that suspends is continued as soon as its listing settles; the
    world says what the clock reads at each step and how each listing
    settles. *)
Record world := {
  now : nat -> Z;
  answers : nat -> option (option (list file));
}.

Definition getRawUrl (w : world) (owner repo branch path : string)
    (isPrivate : bool) (tick : nat) (st : state) (gh : github)
  : state * github * nat * result value :=
  if isPrivate then
    let '(st, gh, o) :=
      getRawUrl_start (now w tick) owner repo branch path st gh in
    match o with
    | Return v => (st, gh, S tick, Ok v)
    | Await pid =>
        match statusOf gh pid with
        | Some (Fulfilled files) =>
            let '(st, v) :=
              getRawUrl_resume (now w (S tick)) owner repo branch path
                files st in
            (st, gh, S (S tick), Ok v)
        | Some Rejected => (st, gh, S (S tick), ListingFailed)
        | _ =>
            match answers w pid with
            | Some files =>
                let '(st, v) :=
                  getRawUrl_resume (now w (S tick)) owner repo branch path
                    files st in
                (st, setStatus pid (Fulfilled files) gh, S (S tick), Ok v)
            | None => (st, setStatus pid Rejected gh, S (S tick), ListingFailed)
            end
        end
    end
  else (st, gh, tick, Ok (VStr (publicRawUrl owner repo branch path))).

Fixpoint relativeToRawUrls_loop (w : world) (owner repo branch : string)
    (isPrivate : bool) (matches : list rmatch) (newHtml : string)
    (tick : nat) (st : state) (gh : github)
  : state * github * nat * result string :=
  match matches with
  | [] => (st, gh, tick, Ok newHtml)
  | m :: rest =>
      match srcOf m with
      | VStr src =>
          if isRelative src then
            let '(st, gh, tick, rawUrl) :=
              getRawUrl w owner repo branch src isPrivate tick st gh in
            match rawUrl with
            | Ok rawUrl =>
                relativeToRawUrls_loop w owner repo branch isPrivate rest
                  (substituteRawUrl (quoteOf m) src rawUrl newHtml)
                  tick st gh
            | TypeError => (st, gh, tick, TypeError)
            | ListingFailed => (st, gh, tick, ListingFailed)
            end
          else
            relativeToRawUrls_loop w owner repo branch isPrivate rest newHtml
              tick st gh
      | _ => (st, gh, tick, TypeError)
      end
  end.

Definition relativeToRawUrls (w : world) (owner repo branch html : string)
    (isPrivate : bool) (tick : nat) (st : state) (gh : github)
  : state * github * nat * result string :=
  relativeToRawUrls_loop w owner repo branch isPrivate (getImgSrcs html) html
    tick st gh.

(** [relativeToRawUrls] in public mode touches neither the cache nor the
    collaborator; this is the text it returns. *)
Definition relativeToRawUrls_public (owner repo branch html : string)
  : result string :=
  forEachMatch
    (fun quote src newHtml =>
       if isRelative src then
         substituteRawUrl quote src
           (VStr (publicRawUrl owner repo branch src)) newHtml
       else newHtml)
    (getImgSrcs html) html.


(** The promise a fresh invocation of the collaborator returns. *)
Definition pendingListing (owner repo branch path : string) : listing :=
  {| l_owner := owner; l_repo := repo; l_branch := branch; l_path := path;
     l_status := Pending |}.

(** At most one listing per fully-qualified directory is in flight. *)
Definition singleFlight (gh : github) : Prop :=
  forall i j x y,
    gh !! i = Some x -> gh !! j = Some y ->
    l_status x = Pending -> l_status y = Pending ->
    directoryOf x = directoryOf y -> i = j.

(** The directory a suspended call waits for. *)
Definition waitsFor (w : call) : string :=
  fullPathOf (c_owner w) (c_repo w) (c_branch w) (parentPathOf (c_path w)).

(** How the three mappings, the listings and the suspended calls fit
    together in every state the program reaches. *)
Record consistent (l : loop) : Prop := {
  registered_known :
    forall dir pid, requests (cache l) !! dir = Some pid ->
      exists x, listings l !! pid = Some x /\ directoryOf x = dir /\
                (l_status x = Pending \/ l_status x = Rejected);
  pending_registered :
    forall pid x, listings l !! pid = Some x -> l_status x = Pending ->
      requests (cache l) !! directoryOf x = Some pid /\
      exists w, w ∈ waiting l /\ c_pid w = pid;
  waiting_pending :
    forall w, w ∈ waiting l ->
      exists x, listings l !! c_pid w = Some x /\ l_status x = Pending /\
                directoryOf x = waitsFor w;
  marked_idle :
    forall dir, marked (cache l) dir = true ->
      requests (cache l) !! dir = None;
}.

(** The URL the descriptors [files] give for the key [k], if any: the last
    descriptor with that path wins. *)
Fixpoint listedUrl (owner repo branch : string) (files : list file)
    (k : string) : option value :=
  match files with
  | [] => None
  | f :: files' =>
      match listedUrl owner repo branch files' k with
      | Some v => Some v
      | None =>
          if String.eqb (fullPathOf owner repo branch (path f)) k
          then Some (download_url f) else None
      end
  end.

(** ** Documents whose images are plain

    A text in which [<img ] only opens image tags and [src=] only stands
    where a tag has its source: some leading text, then tags, each followed
    by text. *)

Record img := {
  i_before : string;   (* the attributes in front of the source *)
  i_quote : ascii;
  i_src : string;
  i_after : string;    (* the attributes behind the source *)
  i_text : string;     (* the text between this tag and the next *)
}.

Definition renderImg (i : img) : string :=
  imgTag (i_before i) (i_quote i) (i_src i) (i_after i) +:+ i_text i.

Fixpoint renderImgs (imgs : list img) : string :=
  match imgs with
  | [] => ""
  | i :: imgs' => renderImg i +:+ renderImgs imgs'
  end.

Definition render (lead : string) (imgs : list img) : string :=
  lead +:+ renderImgs imgs.

(** The match of [getImgSrcs] for a tag. *)
Definition matchOf (i : img) : rmatch :=
  imgMatch (i_before i) (i_quote i) (i_src i) (i_after i).

(** The same tag with another source. *)
Definition withSource (v : string) (i : img) : img :=
  {| i_before := i_before i; i_quote := i_quote i; i_src := v;
     i_after := i_after i; i_text := i_text i |}.

(** What the pattern needs to find the tag, and the substitutions to find its
    attribute text: the attributes do not close the tag, the source is not
    empty and does not contain its quote, and [src=] and [<img ] occur
    nowhere else. *)
Record tagged (i : img) : Prop := {
  before_open : lacks ">" (i_before i);
  before_plain : absent "src=" (i_before i);
  quote_kind : i_quote i = dquote \/ i_quote i = squote;
  src_some : i_src i <> "";
  src_unquoted : lacks (i_quote i) (i_src i);
  src_plain : absent "src=" (i_src i);
  after_open : lacks ">" (i_after i);
  after_plain : absent "src=" (i_after i);
  text_plain : absent "src=" (i_text i);
  text_no_img : absent "<img " (i_text i);
}.

(** A tag whose source is a repository-relative path without a query string
    and without a dollar sign. *)
Record relativeImg (i : img) : Prop := {
  is_tagged : tagged i;
  src_relative : isRelative (i_src i) = true;
  src_no_query : lacks "?" (i_src i);
  src_no_dollar : lacks "$" (i_src i);
}.

(** Owner, repository and branch contain no quote, no dollar sign and no
    [src=]. *)
Record plainRepo (owner repo branch : string) : Prop := {
  repo_no_dquote : lacks dquote (rawPrefix owner repo branch);
  repo_no_squote : lacks squote (rawPrefix owner repo branch);
  repo_no_dollar : lacks "$" (rawPrefix owner repo branch);
  repo_plain : absent "src=" (rawPrefix owner repo branch);
}.

(** The tag with the raw-content URL of its source. *)
Definition toRaw (owner repo branch : string) (i : img) : img :=
  withSource (publicRawUrl owner repo branch (i_src i)) i.

(** ** Example states *)

(** A cached URL under a directory whose marker was written at time 1000. *)
Definition listedOnce : state :=
  {| urls := {[ "o/r/main/docs/a.png" := VStr "https://x/a.png" ]};
     paths := {[ "o/r/main/docs" := 1000%Z ]};
     requests := ∅ |}.

(** The listing of [docs]: it knows [a.png] and reports [docs/sub], a
    directory, without a download URL. *)
Definition docsFiles : list file :=
  [ {| path := "docs/a.png"; download_url := VStr "https://x/a.png" |};
    {| path := "docs/sub"; download_url := VNull |} ].

(** A world in which every listing answers [docsFiles] and the clock
    advances by a second per step. *)
Definition docsWorld : world :=
  {| now := fun n => (Z.of_nat n * 1000)%Z;
     answers := fun _ => Some (Some docsFiles) |}.

(** A paragraph with two images, one with each kind of quote. *)
Definition twoImages : list img :=
  [ {| i_before := "class='logo' "; i_quote := squote;
       i_src := "docs/a.png"; i_after := " alt='A'";
       i_text := "</p><p>" |};
    {| i_before := ""; i_quote := dquote; i_src := "b.png";
       i_after := ""; i_text := "</p>" |} ].

(** ** Further notions used in the statements *)

(** The matches stand in the text in order and do not overlap: each is
    found behind the one before it. *)
Fixpoint tiles (ms : list rmatch) (s : string) : Prop :=
  match ms with
  | [] => True
  | m :: ms' => exists gap rest, s = gap +:+ m_0 m +:+ rest /\ tiles ms' rest
  end.

(** What the pattern alone needs to find a tag and its source: as [tagged],
    but the attributes in front of the source and the text behind the tag may
    hold further [src=] texts. *)
Record scannable (i : img) : Prop := {
  s_before_open : lacks ">" (i_before i);
  s_quote_kind : i_quote i = dquote \/ i_quote i = squote;
  s_src_some : i_src i <> "";
  s_src_unquoted : lacks (i_quote i) (i_src i);
  s_src_plain : absent "src=" (i_src i);
  s_after_open : lacks ">" (i_after i);
  s_after_plain : absent "src=" (i_after i);
  s_text_no_img : absent "<img " (i_text i);
}.

(** The tag after a loop that rewrites the sources satisfying [cond] by
    [f]. *)
Definition rewriteSrc (cond : string -> bool) (f : string -> string)
    (i : img) : img :=
  if cond (i_src i) then withSource (f (i_src i)) i else i.

(** A source that can stand between two quotes [q] and in a replacement
    template. *)
Definition plainSource (q : ascii) (v : string) : Prop :=
  v <> "" /\ lacks q v /\ absent "src=" v /\ lacks "$" v.

(** No source to rewrite reads, quote included, like the rewritten source of
    a tag in front of it ([seen] holds the tags in front). *)
Fixpoint apartFrom (cond : string -> bool) (f : string -> string)
    (seen todo : list img) : Prop :=
  match todo with
  | [] => True
  | i :: todo' =>
      (cond (i_src i) = true ->
       Forall (fun d => cond (i_src d) = true ->
                        (i_quote d, f (i_src d)) <> (i_quote i, i_src i))
              seen) /\
      apartFrom cond f (seen ++ [i]) todo'
  end.

(** The tags of a document on which the loop rewrites tag by tag. *)
Record rewritable (cond : string -> bool) (f : string -> string)
    (imgs : list img) : Prop := {
  all_tagged : Forall tagged imgs;
  new_plain :
    Forall (fun i => cond (i_src i) = true ->
                     plainSource (i_quote i) (f (i_src i))) imgs;
  no_clash : apartFrom cond f [] imgs;
}.

(** [src.startsWith('https://raw.githubusercontent.com/')] *)
Definition isRaw (src : string) : bool := Js.startsWith src rawHost.

(** An image whose tag holds two [src=] texts. *)
Definition lazyImage : list img :=
  [ {| i_before := "src='old.png' data-"; i_quote := squote;
       i_src := "new.png"; i_after := ""; i_text := "" |} ].

(** A relative image, an absolute one, and one that carries a raw-content URL
    of another branch. *)
Definition mixedImages : list img :=
  [ {| i_before := ""; i_quote := squote; i_src := "media/a.png";
       i_after := " alt='A'"; i_text := "<br>" |};
    {| i_before := ""; i_quote := squote; i_src := "/logo.png";
       i_after := ""; i_text := "" |};
    {| i_before := "width='10' "; i_quote := dquote;
       i_src := "https://raw.githubusercontent.com/o/r/dev/b.png?token=1";
       i_after := ""; i_text := "</p>" |} ].

(** The listing [pendingListing] once it is fulfilled with [files]. *)
Definition fulfilledListing (owner repo branch path : string)
    (files : option (list file)) : listing :=
  withStatus (Fulfilled files) (pendingListing owner repo branch path).

(** No listing has failed. *)
Definition noneRejected (gh : github) : Prop :=
  Forall (fun x => l_status x <> Rejected) gh.

(** A world in which no listing fails. *)
Definition reliable (w : world) : Prop :=
  forall pid, answers w pid <> None.

(** The cache answers for the source of a tag without a listing: it holds a
    URL for it, or the marker of its directory stays fresh whatever the
    clock of [w] reads. *)
Definition answered (w : world) (owner repo branch : string) (st : state)
    (src : string) : Prop :=
  truthy (prop (urls st) (fullPathOf owner repo branch src)) = true \/
  exists t, paths st !! fullPathOf owner repo branch (parentPathOf src) = Some t /\
            t <> 0%Z /\ forall n, (now w n - ttl <= t)%Z.

(** A world whose clock stands at five seconds and whose listings fail. *)
Definition stillWorld : world :=
  {| now := fun _ => 5000%Z; answers := fun _ => None |}.

(** Images of the directory [docs], one of them unknown to the listing, and
    an absolute one. *)
Definition docsImages : list img :=
  [ {| i_before := ""; i_quote := squote; i_src := "docs/a.png";
       i_after := ""; i_text := " " |};
    {| i_before := ""; i_quote := squote; i_src := "docs/b.png";
       i_after := ""; i_text := " " |};
    {| i_before := ""; i_quote := squote; i_src := "/logo.png";
       i_after := ""; i_text := "</p>" |} ].

(** The listing [pendingListing] once it has failed. *)
Definition rejectedListing (owner repo branch path : string) : listing :=
  withStatus Rejected (pendingListing owner repo branch path).

(** Every call started so far is suspended or has settled, once. *)
Definition accounted (l : loop) : Prop :=
  map c_id (waiting l) ++ map fst (completed l) ≡ₚ seq 0 (started l).

(** What a call of [getRawUrl] can settle to: the failure of its listing,
    [null], or a non-empty URL. *)
Definition settled (r : result value) : Prop :=
  r = ListingFailed \/ r = Ok VNull \/ exists c u, r = Ok (VStr (String c u)).

(** * Facts about the string methods *)

#[local] Arguments String.append !_ _ /.

Section StringFacts.

Lemma str_app_assoc (s t u : string) : (s +:+ t) +:+ u = s +:+ t +:+ u.
Proof. induction s as [|c s IH]; simpl; [reflexivity | now rewrite IH]. Qed.

Lemma str_length_app (s t : string) :
  String.length (s +:+ t) = String.length s + String.length t.
Proof. induction s as [|c s IH]; simpl; [reflexivity | now rewrite IH]. Qed.

Lemma startsWith_app (p r : string) : Js.startsWith (p +:+ r) p = true.
Proof.
  induction p as [|c p IH]; simpl; [reflexivity|].
  now rewrite Ascii.eqb_refl.
Qed.

Lemma startsWith_inv (s p : string) :
  Js.startsWith s p = true -> exists r, s = p +:+ r.
Proof.
  revert s. induction p as [|c p IH]; intros s H; simpl in *.
  - now exists s.
  - destruct s as [|d s]; [discriminate|].
    destruct (Ascii.eqb_spec c d) as [->|]; [|discriminate].
    destruct (IH _ H) as [r ->]. now exists r.
Qed.

Lemma startsWith_trans (s p q : string) :
  Js.startsWith s (p +:+ q) = true -> Js.startsWith s p = true.
Proof.
  intros [r ->]%startsWith_inv. rewrite str_app_assoc. apply startsWith_app.
Qed.

Lemma str_take_app (p r : string) : Js.take (String.length p) (p +:+ r) = p.
Proof. induction p as [|c p IH]; simpl; [now destruct r | now rewrite IH]. Qed.

Lemma str_drop_app (p r : string) : Js.drop (String.length p) (p +:+ r) = r.
Proof. induction p as [|c p IH]; simpl; [reflexivity | exact IH]. Qed.

Lemma str_drop_add (n m : nat) (s : string) :
  Js.drop (n + m) s = Js.drop m (Js.drop n s).
Proof.
  revert s. induction n as [|n IH]; intros s; simpl; [reflexivity|].
  destruct s as [|c s]; [now destruct m | apply IH].
Qed.

Lemma str_take_drop (n : nat) (s : string) : Js.take n s +:+ Js.drop n s = s.
Proof.
  revert s. induction n as [|n IH]; intros [|c s]; simpl; try reflexivity.
  now rewrite IH.
Qed.

Lemma indexOf_Some (s p : string) (i : nat) :
  Js.indexOf s p = Some i <-> firstAt s p i.
Proof.
  revert i. induction s as [|c s IH]; intros i.
  - simpl. destruct (Js.startsWith "" p) eqn:E; split.
    + intros [= <-]. repeat split; [exact E | lia | intros j Hj; lia].
    + intros (H1 & H2 & H3). simpl in H2. now replace i with 0 by lia.
    + discriminate.
    + intros (H1 & H2 & H3). simpl in H2. replace i with 0 in H1 by lia.
      simpl in H1. congruence.
  - cbn [Js.indexOf]. destruct (Js.startsWith (String c s) p) eqn:E; split.
    + intros [= <-]. repeat split; [exact E | lia | intros j Hj; lia].
    + intros (H1 & H2 & H3). destruct i as [|i]; [reflexivity|].
      specialize (H3 0 ltac:(lia)). simpl in H3. congruence.
    + destruct (Js.indexOf s p) as [k|] eqn:Ek; [|discriminate].
      intros [= <-]. destruct (proj1 (IH k) eq_refl) as (H1 & H2 & H3).
      repeat split; [exact H1 | simpl; lia |].
      intros [|j] Hj; [exact E | apply H3; lia].
    + intros (H1 & H2 & H3). destruct i as [|i]; [simpl in H1; congruence|].
      assert (Js.indexOf s p = Some i) as ->; [|reflexivity].
      apply IH. repeat split; [exact H1 | simpl in H2; lia |].
      intros j Hj. apply (H3 (S j)). lia.
Qed.

Lemma indexOf_None (s p : string) :
  Js.indexOf s p = None <-> forall j, Js.startsWith (Js.drop j s) p = false.
Proof.
  induction s as [|c s IH].
  - simpl. destruct (Js.startsWith "" p) eqn:E; split; try discriminate.
    + intros H. specialize (H 0). simpl in H. congruence.
    + intros _ [|j]; exact E.
    + reflexivity.
  - cbn [Js.indexOf]. destruct (Js.startsWith (String c s) p) eqn:E; split;
      try discriminate.
    + intros H. specialize (H 0). simpl in H. congruence.
    + destruct (Js.indexOf s p) eqn:Ek; [discriminate|]. intros _ [|j];
        [exact E | now apply (proj1 IH)].
    + intros H. assert (Js.indexOf s p = None) as ->; [|reflexivity].
      apply IH. intros j. apply (H (S j)).
Qed.

Lemma indexOf_startsWith (s p : string) :
  Js.startsWith s p = true -> Js.indexOf s p = Some 0.
Proof. intros H. destruct s; simpl; now rewrite H. Qed.

Lemma replace_None (s p t : string) :
  Js.indexOf s p = None -> Js.replace s p t = s.
Proof. unfold Js.replace. now intros ->. Qed.

Lemma replace_Some (s p t : string) (i : nat) :
  Js.indexOf s p = Some i ->
  exists x y,
    s = x +:+ p +:+ y /\ String.length x = i /\
    Js.replace s p t = x +:+ Js.getSubstitution p x y t +:+ y.
Proof.
  intros H. unfold Js.replace. rewrite H.
  apply indexOf_Some in H as (H1 & H2 & _).
  apply startsWith_inv in H1 as [y Hy].
  exists (Js.take i s), y. repeat split.
  - rewrite <- Hy. symmetry. apply str_take_drop.
  - clear -H2. revert s H2. induction i as [|i IH]; intros [|c s] H;
      simpl in *; try reflexivity; try lia. rewrite IH; [reflexivity | lia].
  - now rewrite str_drop_add, Hy, str_drop_app.
Qed.

Lemma getSubstitution_plain (m x y t : string) :
  lacks "$" t -> Js.getSubstitution m x y t = t.
Proof.
  induction t as [|c t IH]; simpl; [reflexivity|]. intros [Hc Ht].
  destruct (Ascii.eqb_spec c "$"); [contradiction|]. now rewrite IH.
Qed.

Lemma lacks_app (c : ascii) (s t : string) :
  lacks c (s +:+ t) <-> lacks c s /\ lacks c t.
Proof. induction s as [|d s IH]; simpl; tauto. Qed.

(** The first element of [s.split(c)] is [s] up to its first [c]. *)
Lemma split_first (c : ascii) (s : string) :
  lacks c (Js.first (Js.split c s)) /\
  (s = Js.first (Js.split c s) \/
   exists rest, s = Js.first (Js.split c s) +:+ String c rest).
Proof.
  induction s as [|d s [IH1 IH2]]; simpl.
  - split; [exact I | now left].
  - destruct (Ascii.eqb_spec d c) as [->|Hne]; simpl.
    + split; [exact I | right; now exists s].
    + destruct (Js.split c s) as [|h t]; simpl in *.
      * split; [tauto|]. destruct IH2 as [->|[rest ->]]; [now left|].
        right. now exists rest.
      * split; [tauto|]. destruct IH2 as [->|[rest ->]]; [now left|].
        right. now exists rest.
Qed.

Lemma split_first_lacks (c : ascii) (s : string) :
  lacks c s -> Js.first (Js.split c s) = s.
Proof.
  induction s as [|d s IH]; simpl; [reflexivity|]. intros [Hd Hs].
  destruct (Ascii.eqb_spec d c); [contradiction|].
  specialize (IH Hs). destruct (Js.split c s); simpl in *; now subst.
Qed.

End StringFacts.

(** * [getRelativeUrl] *)

Lemma replace_prefix (p rel : string) : Js.replace (p +:+ rel) p "" = rel.
Proof.
  unfold Js.replace.
  rewrite (indexOf_startsWith _ _ (startsWith_app p rel)). simpl.
  apply str_drop_app.
Qed.

Lemma rawPrefix_host (owner repo branch : string) :
  exists tail, rawPrefix owner repo branch = rawHost +:+ tail.
Proof. unfold rawPrefix. eauto. Qed.

(** C4, as amended.  A path that begins with the raw-content prefix of this
    owner, repository and branch loses the prefix and everything from its
    first [?]; a path that does not begin with the raw-content host is
    returned unchanged; a path on the raw-content host in which the prefix
    does not occur (another owner, repository or branch) keeps its prefix
    but still loses everything from its first [?]. *)
Theorem getRelativeUrl_cases (owner repo branch path : string) :
  (forall rel, path = rawPrefix owner repo branch +:+ rel ->
     drops_query rel (getRelativeUrl owner repo branch path)) /\
  (Js.startsWith path rawHost = false ->
     getRelativeUrl owner repo branch path = path) /\
  (Js.startsWith path rawHost = true ->
   Js.indexOf path (rawPrefix owner repo branch) = None ->
     drops_query path (getRelativeUrl owner repo branch path)).
Proof.
  unfold getRelativeUrl. fold rawHost. repeat split.
  - subst path. destruct (rawPrefix_host owner repo branch) as [tail E].
    rewrite E at 1. rewrite str_app_assoc, startsWith_app, replace_prefix.
    apply split_first.
  - subst path. destruct (rawPrefix_host owner repo branch) as [tail E].
    rewrite E at 1. rewrite str_app_assoc, startsWith_app, replace_prefix.
    apply split_first.
  - now intros ->.
  - rewrite H, (replace_None _ _ _ H0). apply split_first.
  - rewrite H, (replace_None _ _ _ H0). apply split_first.
Qed.

(** The three cases of C4 at concrete paths. *)
Lemma getRelativeUrl_cases_witness :
  drops_query "docs/a.png?token=1"
    (getRelativeUrl "o" "r" "main"
       "https://raw.githubusercontent.com/o/r/main/docs/a.png?token=1") /\
  getRelativeUrl "o" "r" "main" "docs/a.png?x" = "docs/a.png?x" /\
  drops_query "https://raw.githubusercontent.com/o/r/dev/a.png?token=1"
    (getRelativeUrl "o" "r" "main"
       "https://raw.githubusercontent.com/o/r/dev/a.png?token=1").
Proof.
  pose proof (getRelativeUrl_cases "o" "r" "main"
    "https://raw.githubusercontent.com/o/r/main/docs/a.png?token=1") as (H1 & _).
  pose proof (getRelativeUrl_cases "o" "r" "main" "docs/a.png?x") as (_ & H2 & _).
  pose proof (getRelativeUrl_cases "o" "r" "main"
    "https://raw.githubusercontent.com/o/r/dev/a.png?token=1") as (_ & _ & H3).
  split; [|split].
  - apply H1. reflexivity.
  - apply H2. reflexivity.
  - apply H3; reflexivity.
Defined.

(** C4 as stated fails: a raw-content URL of another repository is not
    returned unchanged, it loses its query string. *)
Lemma getRelativeUrl_other_repository_counterexample :
  ~ (forall owner repo branch path,
       Js.startsWith path (rawPrefix owner repo branch) = false ->
       getRelativeUrl owner repo branch path = path).
Proof.
  intros H.
  specialize (H "o" "r" "main"
    "https://raw.githubusercontent.com/o/r/dev/a.png?token=1" eq_refl).
  discriminate H.
Qed.

(** * The prefix operations on absent arguments *)

Lemma swapPrefix_undefined (path from to : value) :
  notUndefined path && notUndefined from && notUndefined to = false ->
  Dyn.swapPrefix path from to = Ok path.
Proof. unfold Dyn.swapPrefix. now intros ->. Qed.

Lemma htmlSwapPrefix_undefined (html from to : value) :
  notUndefined html && notUndefined from && notUndefined to = false ->
  Dyn.htmlSwapPrefix html from to = Ok html.
Proof. unfold Dyn.htmlSwapPrefix. now intros ->. Qed.

(** C5 at its failing inputs.  [addPrefix] and [removePrefix] have no test
    against [undefined]: an absent prefix is used as the text [undefined],
    and an absent HTML makes the call throw. *)
Theorem prefix_operations_undefined :
  Dyn.addPrefix (VStr "<img src='a.png'>") VUndefined
    = Ok (VStr "<img src='undefineda.png'>") /\
  Dyn.removePrefix (VStr "<img src='undefined/a.png'>") VUndefined
    = Ok (VStr "<img src='/a.png'>") /\
  Dyn.addPrefix VUndefined (VStr "img/") = TypeError /\
  Dyn.removePrefix VUndefined (VStr "img/") = TypeError.
Proof. repeat split; vm_compute; reflexivity. Qed.

(** * [getRawUrl] in private mode: one call *)

Section OneCall.

Variables (now : Z) (owner repo branch path : string).
Variables (st : state) (gh : github).

Let fullPath := fullPathOf owner repo branch path.
Let fullParentPath := fullPathOf owner repo branch (parentPathOf path).

Lemma orNull_not_empty (v : value) : orNull v <> VStr "".
Proof. destruct v as [| |[|c s]]; discriminate. Qed.

(** A cached URL is returned at once: neither the marker nor the
    collaborator is looked at. *)
Lemma getRawUrl_start_cached :
  truthy (prop (urls st) fullPath) = true ->
  getRawUrl_start now owner repo branch path st gh
    = (st, gh, Return (prop (urls st) fullPath)).
Proof.
  intros H. unfold getRawUrl_start. fold fullPath. rewrite H. simpl.
  unfold orNull. now rewrite H.
Qed.

Lemma getRawUrl_start_fresh (t : Z) :
  paths st !! fullParentPath = Some t -> t <> 0%Z -> (now - ttl <= t)%Z ->
  getRawUrl_start now owner repo branch path st gh
    = (st, gh, Return (orNull (prop (urls st) fullPath))).
Proof.
  intros Ht Hnz Hfresh. unfold getRawUrl_start.
  fold fullPath. fold fullParentPath.
  destruct (truthy (prop (urls st) fullPath)) eqn:Hu; simpl; [reflexivity|].
  unfold expired, marked. rewrite Ht.
  destruct (Z.eqb_spec t 0); [contradiction|].
  destruct (Z.ltb_spec t (now - ttl)); [lia|]. simpl. rewrite Ht.
  destruct (Z.eqb_spec t 0); [contradiction|]. simpl.
  unfold orNull. now rewrite Hu.
Qed.

(** With no cached URL and an expired marker, the marker is deleted and the
    call suspends: on the listing already registered for the directory, or
    else on a new invocation of the collaborator. *)
Lemma getRawUrl_start_expired (t : Z) :
  truthy (prop (urls st) fullPath) = false ->
  paths st !! fullParentPath = Some t -> t <> 0%Z -> (t < now - ttl)%Z ->
  let st' := {| urls := urls st;
                paths := delete fullParentPath (paths st);
                requests := requests st |} in
  getRawUrl_start now owner repo branch path st gh =
    match requests st !! fullParentPath with
    | Some pid => (st', gh, Await pid)
    | None =>
        ({| urls := urls st;
            paths := delete fullParentPath (paths st);
            requests := <[fullParentPath := length gh]> (requests st) |},
         gh ++ [{| l_owner := owner; l_repo := repo; l_branch := branch;
                   l_path := parentPathOf path; l_status := Pending |}],
         Await (length gh))
    end.
Proof.
  intros Hu Ht Hnz Hold. unfold getRawUrl_start.
  fold fullPath. fold fullParentPath. rewrite Hu. simpl.
  unfold expired. rewrite Ht.
  destruct (Z.eqb_spec t 0); [contradiction|].
  destruct (Z.ltb_spec t (now - ttl)); [|lia]. simpl.
  unfold marked. simpl. rewrite lookup_delete_eq.
  destruct (requests st !! fullParentPath); reflexivity.
Qed.

End OneCall.



(** * What [getRawUrl] returns *)

Lemma getRawUrl_start_urls (now : Z) (owner repo branch path : string)
    (st st' : state) (gh gh' : github) (o : outcome) :
  getRawUrl_start now owner repo branch path st gh = (st', gh', o) ->
  urls st' = urls st.
Proof.
  unfold getRawUrl_start.
  destruct (truthy (prop (urls st) _)); simpl.
  { now intros [= <- _ _]. }
  destruct (expired st _ now); simpl;
    (destruct (marked _ _); [now intros [= <- _ _]|]); simpl;
    (destruct (requests st !! _); now intros [= <- _ _]).
Qed.

Lemma getRawUrl_start_return (now : Z) (owner repo branch path : string)
    (st st' : state) (gh gh' : github) (v : value) :
  getRawUrl_start now owner repo branch path st gh = (st', gh', Return v) ->
  v = orNull (prop (urls st') (fullPathOf owner repo branch path)).
Proof.
  intros H. rewrite (getRawUrl_start_urls _ _ _ _ _ _ _ _ _ _ H).
  revert H. unfold getRawUrl_start.
  destruct (truthy (prop (urls st) _)) eqn:Hu; simpl.
  { now intros [= _ _ <-]. }
  unfold orNull. rewrite Hu.
  destruct (expired st _ now); simpl;
    (destruct (marked _ _); [now intros [= _ _ <-]|]); simpl;
    (destruct (requests st !! _); discriminate).
Qed.

Lemma getRawUrl_resume_value (now : Z) (owner repo branch path : string)
    (files : option (list file)) (st st' : state) (v : value) :
  getRawUrl_resume now owner repo branch path files st = (st', v) ->
  v = orNull (prop (urls st') (fullPathOf owner repo branch path)).
Proof. unfold getRawUrl_resume. now intros [= <- <-]. Qed.

Lemma getRawUrl_value (w : world) (owner repo branch path : string)
    (tick tick' : nat) (st st' : state) (gh gh' : github) (v : value) :
  getRawUrl w owner repo branch path true tick st gh
    = (st', gh', tick', Ok v) ->
  v = orNull (prop (urls st') (fullPathOf owner repo branch path)).
Proof.
  unfold getRawUrl.
  destruct (getRawUrl_start _ _ _ _ _ _ _) as [[st1 gh1] [v1|pid]] eqn:E.
  - intros [= <- _ _ <-]. eapply getRawUrl_start_return, E.
  - destruct (statusOf gh1 pid) as [[|files|]|].
    + destruct (answers w pid) as [files|]; [|discriminate].
      destruct (getRawUrl_resume _ _ _ _ _ _ _) as [st2 v2] eqn:E2.
      intros [= <- _ _ <-]. eapply getRawUrl_resume_value, E2.
    + destruct (getRawUrl_resume _ _ _ _ _ _ _) as [st2 v2] eqn:E2.
      intros [= <- _ _ <-]. eapply getRawUrl_resume_value, E2.
    + discriminate.
    + destruct (answers w pid) as [files|]; [|discriminate].
      destruct (getRawUrl_resume _ _ _ _ _ _ _) as [st2 v2] eqn:E2.
      intros [= <- _ _ <-]. eapply getRawUrl_resume_value, E2.
Qed.

Lemma orNull_null (v : value) : orNull v = VNull -> truthy v = false.
Proof. destruct v as [| |[|c s]]; unfold orNull; simpl; congruence. Qed.

Lemma substituteRawUrl_falsy (quote src : string) (v : value)
    (html : string) :
  truthy v = false -> substituteRawUrl quote src v html = html.
Proof. unfold substituteRawUrl. now intros ->. Qed.

(** C10.  What a private-mode call returns is [urls[fullPath] || null]: never
    the empty string, and [null] whenever the cache holds a falsy value for
    the path; [relativeToRawUrls] then goes on to the next match with the
    text as it was. *)
Theorem getRawUrl_never_empty (w : world) (owner repo branch path : string)
    (tick : nat) (st : state) (gh : github) :
  let '(st', gh', tick', r) :=
    getRawUrl w owner repo branch path true tick st gh in
  forall v, r = Ok v ->
    v <> VStr "" /\
    v = orNull (prop (urls st') (fullPathOf owner repo branch path)) /\
    (truthy (prop (urls st') (fullPathOf owner repo branch path)) = false ->
       v = VNull /\
       forall m rest newHtml,
         srcOf m = VStr path -> isRelative path = true ->
         relativeToRawUrls_loop w owner repo branch true (m :: rest) newHtml
           tick st gh
         = relativeToRawUrls_loop w owner repo branch true rest newHtml
             tick' st' gh').
Proof.
  destruct (getRawUrl _ _ _ _ _ _ _ _ _) as [[[st' gh'] tick'] r] eqn:E.
  intros v ->. pose proof (getRawUrl_value _ _ _ _ _ _ _ _ _ _ _ _ E) as Hv.
  split; [|split].
  - rewrite Hv. apply orNull_not_empty.
  - exact Hv.
  - intros Hf. assert (v = VNull) as ->.
    { rewrite Hv. unfold orNull. now rewrite Hf. }
    split; [reflexivity|]. intros m rest newHtml Hm Hrel.
    cbn [relativeToRawUrls_loop]. rewrite Hm, Hrel, E.
    now rewrite substituteRawUrl_falsy.
Qed.

(** The listing of [docs] reports the directory [docs/sub] with a [null]
    download URL: [getRawUrl] answers [null] for it. *)
Lemma getRawUrl_never_empty_witness :
  exists st' gh' tick',
    getRawUrl docsWorld "o" "r" "main" "docs/sub" true 0 emptyState []
      = (st', gh', tick', Ok VNull) /\
    VNull <> VStr "" /\
    forall m rest newHtml,
      srcOf m = VStr "docs/sub" ->
      relativeToRawUrls_loop docsWorld "o" "r" "main" true (m :: rest)
        newHtml 0 emptyState []
      = relativeToRawUrls_loop docsWorld "o" "r" "main" true rest newHtml
          tick' st' gh'.
Proof.
  pose proof (getRawUrl_never_empty docsWorld "o" "r" "main" "docs/sub" 0
                emptyState []) as H.
  destruct (getRawUrl _ _ _ _ _ _ _ _ _) as [[[st' gh'] tick'] r] eqn:E.
  assert (r = Ok VNull) as Hr.
  { vm_compute in E. now injection E as _ _ _ <-. }
  subst r. exists st', gh', tick'.
  destruct (H VNull eq_refl) as (H1 & H2 & H3).
  split; [reflexivity|]. split; [exact H1|].
  intros m rest newHtml Hm.
  destruct H3 as [_ H3].
  - apply orNull_null. now rewrite <- H2.
  - now apply H3.
Defined.


(** * Listings and the calls suspended on them *)

Section Segments.

Variables (now : Z) (owner repo branch path : string).

Let dir := fullPathOf owner repo branch (parentPathOf path).

(** What the first segment of a call does to the cache and the collaborator. *)
Lemma getRawUrl_start_spec (st st' : state) (gh gh' : github) (o : outcome) :
  getRawUrl_start now owner repo branch path st gh = (st', gh', o) ->
  urls st' = urls st /\
  (forall k, paths st' !! k = paths st !! k \/ (k = dir /\ paths st' !! k = None)) /\
  match o with
  | Return v => st' = st /\ gh' = gh
  | Await pid =>
      marked st' dir = false /\
      ((requests st !! dir = Some pid /\ gh' = gh /\
        requests st' = requests st) \/
       (requests st !! dir = None /\ pid = length gh /\
        gh' = gh ++ [pendingListing owner repo branch (parentPathOf path)] /\
        requests st' = <[dir := pid]> (requests st)))
  end.
Proof.
  unfold getRawUrl_start. fold dir.
  destruct (truthy (prop (urls st) _)); simpl.
  { intros [= <- <- <-]. auto. }
  set (st1 := if expired st dir now then _ else st).
  assert (urls st1 = urls st /\ requests st1 = requests st /\
          forall k, paths st1 !! k = paths st !! k \/
                    (k = dir /\ paths st1 !! k = None)) as (Hu & Hr & Hp).
  { subst st1. destruct (expired st dir now); simpl; [|auto].
    repeat split. intros k. destruct (decide (k = dir)) as [->|Hne].
    - right. split; [reflexivity | apply lookup_delete_eq].
    - left. now apply lookup_delete_ne. }
  assert (marked st1 dir = true -> st1 = st) as Hsame.
  { subst st1. unfold expired, marked.
    destruct (paths st !! dir) as [t|] eqn:Ht; [|reflexivity].
    destruct (negb (t =? 0)%Z && (t <? now - ttl)%Z); [|reflexivity].
    simpl. now rewrite lookup_delete_eq. }
  clearbody st1. destruct (marked st1 dir) eqn:Hm.
  { intros [= <- <- <-]. rewrite (Hsame eq_refl). auto. }
  rewrite Hr in *. destruct (requests st !! dir) as [pid|] eqn:Hreq.
  - intros [= <- <- <-]. split; [auto|]. split; [auto|]. split; [exact Hm|].
    left. auto.
  - intros [= <- <- <-]. split; [auto|]. split; [auto|]. split; [exact Hm|].
    right. auto.
Qed.

Lemma getRawUrl_resume_spec (files : option (list file)) (st st' : state)
    (v : value) :
  getRawUrl_resume now owner repo branch path files st = (st', v) ->
  urls st' = urls (addRawUrls owner repo branch files st) /\
  paths st' = <[dir := now]> (paths st) /\
  requests st' = delete dir (requests st).
Proof.
  unfold getRawUrl_resume. fold dir. intros [= <- _]. simpl.
  destruct files as [files|]; simpl; [|auto].
  revert st. induction files as [|f files IH]; intros st; simpl; [auto|].
  apply (IH {| urls := _; paths := paths st; requests := requests st |}).
Qed.

End Segments.

Section Consistency.

Lemma marked_same (st st' : state) (k : string) :
  paths st' !! k = paths st !! k -> marked st' k = marked st k.
Proof. unfold marked. now intros ->. Qed.

Lemma marked_unset (st : state) (k : string) :
  paths st !! k = None -> marked st k = false.
Proof. unfold marked. now intros ->. Qed.

Lemma lookup_setStatus (pid : nat) (s : status) (gh : github) (i : nat) :
  setStatus pid s gh !! i
  = if decide (i = pid) then withStatus s <$> gh !! i else gh !! i.
Proof.
  unfold setStatus. destruct (gh !! pid) as [x|] eqn:Hx.
  - destruct (decide (i = pid)) as [->|Hne].
    + rewrite list_lookup_insert_eq; [now rewrite Hx|].
      eapply lookup_lt_Some, Hx.
    + now rewrite list_lookup_insert_ne.
  - destruct (decide (i = pid)) as [->|Hne]; [now rewrite Hx | reflexivity].
Qed.

Lemma statusOf_Some (gh : github) (pid : nat) (s : status) :
  statusOf gh pid = Some s <->
  exists x, gh !! pid = Some x /\ l_status x = s.
Proof.
  unfold statusOf. destruct (gh !! pid) as [x|]; simpl; split.
  - intros [= <-]. eauto.
  - now intros (y & [= <-] & <-).
  - discriminate.
  - now intros (y & [=] & _).
Qed.

(** The calls suspended on [pid] all wait for the directory [dir]. *)
Lemma resumeAll_spec (clock : nat -> Z) (pid : nat)
    (files : option (list file)) (dir : string) (ws : list call) :
  (forall w, w ∈ ws -> c_pid w = pid -> waitsFor w = dir) ->
  forall i st st' keep done,
    resumeAll clock i pid files ws st = (st', keep, done) ->
    (forall w, w ∈ keep <-> w ∈ ws /\ c_pid w <> pid) /\
    (forall k, k <> dir -> requests st' !! k = requests st !! k /\
                           marked st' k = marked st k) /\
    ((exists w, w ∈ ws /\ c_pid w = pid) -> requests st' !! dir = None) /\
    (requests st' !! dir = None \/
     (requests st' !! dir = requests st !! dir /\
      marked st' dir = marked st dir)).
Proof.
  induction ws as [|w ws IH]; intros Hdir i st st' keep done;
    cbn [resumeAll].
  - intros [= <- <- <-]. split; [|split; [|split]].
    + intros w. rewrite elem_of_nil. tauto.
    + auto.
    + intros (w & Hw & _). now apply elem_of_nil in Hw.
    + auto.
  - assert (forall w', w' ∈ ws -> c_pid w' = pid -> waitsFor w' = dir) as Hdir'.
    { intros w' Hw'. apply Hdir. now right. }
    destruct (Nat.eqb_spec (c_pid w) pid) as [Hpid|Hpid].
    + destruct (getRawUrl_resume _ _ _ _ _ _ _) as [st1 v] eqn:E1.
      destruct (resumeAll _ _ _ _ _ _) as [[st2 keep2] done2] eqn:E2.
      intros [= <- <- <-].
      apply getRawUrl_resume_spec in E1 as (_ & Hp1 & Hr1).
      fold (waitsFor w) in Hp1, Hr1.
      rewrite (Hdir w (list_elem_of_here _ _) Hpid) in Hp1, Hr1.
      destruct (IH Hdir' _ _ _ _ _ E2) as (Hk & Hother & _ & Hat).
      assert (requests st1 !! dir = None) as Hnone
        by (rewrite Hr1; apply lookup_delete_eq).
      split; [|split; [|split]].
      * intros w'. rewrite (Hk w'), elem_of_cons. split; [tauto|].
        intros [[->|?] ?]; [contradiction | tauto].
      * intros k Hkd. destruct (Hother k Hkd) as [-> ->]. split.
        -- rewrite Hr1. now apply lookup_delete_ne.
        -- apply marked_same. rewrite Hp1. now apply lookup_insert_ne.
      * intros _. destruct Hat as [?|[-> _]]; assumption.
      * left. destruct Hat as [?|[-> _]]; assumption.
    + destruct (resumeAll _ _ _ _ _ _) as [[st2 keep2] done2] eqn:E2.
      intros [= <- <- <-].
      destruct (IH Hdir' _ _ _ _ _ E2) as (Hk & Hother & Hsome & Hat).
      split; [|split; [|split]].
      * intros w'. rewrite !elem_of_cons, (Hk w').
        split; [intros [->|[? ?]]; tauto | tauto].
      * exact Hother.
      * intros (w' & Hw' & Hp'). apply Hsome. exists w'. split; [|assumption].
        apply elem_of_cons in Hw' as [->|Hw']; [contradiction | assumption].
      * exact Hat.
Qed.

Lemma rejectAll_spec (pid : nat) (ws keep : list call)
    (done : list (nat * result value)) :
  rejectAll pid ws = (keep, done) ->
  forall w, w ∈ keep <-> w ∈ ws /\ c_pid w <> pid.
Proof.
  revert keep done. induction ws as [|w ws IH]; intros keep done; simpl.
  - intros [= <- <-] w. split; [intros H | intros [H _]]; now apply elem_of_nil in H.
  - destruct (rejectAll pid ws) as [keep' done'] eqn:E.
    specialize (IH _ _ eq_refl).
    destruct (Nat.eqb_spec (c_pid w) pid) as [Hpid|Hpid]; intros [= <- <-] w'.
    + rewrite IH, elem_of_cons. split; [tauto|].
      intros [[->|H] Hne]; [contradiction | tauto].
    + rewrite !elem_of_cons, IH. split; [intros [->|[? ?]]; tauto | tauto].
Qed.

Lemma consistent_empty : consistent emptyLoop.
Proof.
  split; simpl.
  - intros dir pid. rewrite lookup_empty. discriminate.
  - intros pid x. rewrite lookup_nil. discriminate.
  - intros w Hw. now apply elem_of_nil in Hw.
  - intros dir. unfold marked. simpl. rewrite lookup_empty. discriminate.
Qed.

Lemma call_consistent (l : loop) (now now' : Z)
    (owner repo branch path : string) :
  consistent l -> consistent (step l (Call now now' owner repo branch path)).
Proof.
  intros [Hreg Hpend Hwait Hidle]. cbn [step].
  destruct (getRawUrl_start _ _ _ _ _ _ _) as [[st' gh'] o] eqn:E.
  apply getRawUrl_start_spec in E as (Hu & Hp & Ho).
  set (dir := fullPathOf owner repo branch (parentPathOf path)) in *.
  assert (forall k, marked st' k = true -> marked (cache l) k = true) as Hmark.
  { intros k Hk. destruct (Hp k) as [Hsame|[-> Hnone]].
    - now rewrite <- (marked_same _ _ _ Hsame).
    - rewrite (marked_unset _ _ Hnone) in Hk. discriminate. }
  destruct o as [v|pid].
  { destruct Ho as [-> ->]. split; simpl; assumption. }
  destruct Ho as (Hm & [(Hr & -> & Hreq) | (Hr & -> & -> & Hreq)]).
  - destruct (Hreg _ _ Hr) as (x & Hx & Hdx & Hsx).
    assert (statusOf (listings l) pid = Some (l_status x)) as ->
      by (apply statusOf_Some; eauto).
    destruct Hsx as [Hsx|Hsx]; rewrite Hsx.
    + split; simpl; rewrite ?Hreq.
      * exact Hreg.
      * intros p y Hy Hpy. destruct (Hpend p y Hy Hpy) as [H1 (w & Hw & Hwp)].
        split; [exact H1|]. exists w. split; [|exact Hwp].
        apply elem_of_app. now left.
      * intros w Hw. apply elem_of_app in Hw as [Hw|Hw]; [now apply Hwait|].
        apply list_elem_of_singleton in Hw as ->. simpl. exists x. auto.
      * intros k Hk. apply Hidle, Hmark, Hk.
    + split; simpl; rewrite ?Hreq; try assumption.
      intros k Hk. apply Hidle, Hmark, Hk.
  - assert (statusOf (listings l ++
              [pendingListing owner repo branch (parentPathOf path)])
              (length (listings l)) = Some Pending) as ->.
    { unfold statusOf. now rewrite list_lookup_middle. }
    split; simpl; rewrite ?Hreq.
    + intros k p Hkp. destruct (decide (k = dir)) as [->|Hne].
      * rewrite lookup_insert_eq in Hkp. injection Hkp as <-.
        exists (pendingListing owner repo branch (parentPathOf path)).
        split; [now apply list_lookup_middle | auto].
      * rewrite lookup_insert_ne in Hkp by congruence.
        destruct (Hreg _ _ Hkp) as (x & Hx & Hrest).
        exists x. split; [now apply lookup_app_l_Some | exact Hrest].
    + intros p y Hy Hpy. apply lookup_snoc_Some in Hy as [[_ Hy]|[-> <-]].
      * destruct (Hpend p y Hy Hpy) as [H1 (w & Hw & Hwp)].
        assert (directoryOf y <> dir) as Hne by congruence.
        rewrite lookup_insert_ne by congruence. split; [exact H1|].
        exists w. split; [|exact Hwp]. apply elem_of_app. now left.
      * split; [apply lookup_insert_eq|]. eexists. split.
        -- apply elem_of_app. right. now apply list_elem_of_singleton.
        -- reflexivity.
    + intros w Hw. apply elem_of_app in Hw as [Hw|Hw].
      * destruct (Hwait w Hw) as (x & Hx & Hrest). exists x.
        split; [now apply lookup_app_l_Some | exact Hrest].
      * apply list_elem_of_singleton in Hw as ->. simpl.
        exists (pendingListing owner repo branch (parentPathOf path)).
        split; [now apply list_lookup_middle | auto].
    + intros k Hk. assert (k <> dir) as Hne by congruence.
      rewrite lookup_insert_ne by congruence. apply Hidle, Hmark, Hk.
Qed.

Lemma settle_consistent (l : loop) (pid : nat)
    (answer : option (option (list file))) (clock : nat -> Z) :
  consistent l -> consistent (step l (Settle pid answer clock)).
Proof.
  intros Hl. pose proof Hl as [Hreg Hpend Hwait Hidle]. cbn [step].
  destruct (statusOf (listings l) pid) as [[| |]|] eqn:Hs; try exact Hl.
  apply statusOf_Some in Hs as (x & Hx & Hsx).
  destruct (Hpend _ _ Hx Hsx) as (Hrx & w0 & Hw0 & Hw0p).
  remember (directoryOf x) as dir eqn:Edir.
  assert (forall w, w ∈ waiting l -> c_pid w = pid -> waitsFor w = dir) as Hdir.
  { intros w Hw Hp. destruct (Hwait w Hw) as (y & Hy & _ & <-).
    rewrite Hp in Hy. congruence. }
  assert (forall p y, listings l !! p = Some y -> l_status y = Pending ->
                      p <> pid -> directoryOf y <> dir) as Hother.
  { intros p y Hy Hpy Hne Hd. destruct (Hpend p y Hy Hpy) as [Hry _].
    rewrite Hd in Hry. congruence. }
  destruct answer as [files|].
  - destruct (resumeAll _ _ _ _ _ _) as [[st' keep] done] eqn:E.
    destruct (resumeAll_spec _ _ _ dir _ Hdir _ _ _ _ _ E)
      as (Hk & Hrest & Hsome & Hat).
    assert (requests st' !! dir = None) as Hnone by (apply Hsome; eauto).
    split; simpl.
    + intros k p Hkp. assert (k <> dir) as Hne by congruence.
      destruct (Hrest k Hne) as [Hr _]. rewrite Hr in Hkp.
      destruct (Hreg _ _ Hkp) as (y & Hy & Hdy & Hsy).
      assert (p <> pid) as Hp by congruence.
      exists y. rewrite lookup_setStatus. now destruct (decide (p = pid)).
    + intros p y. rewrite lookup_setStatus.
      destruct (decide (p = pid)) as [->|Hne].
      { rewrite Hx. simpl. intros [= <-]. discriminate. }
      intros Hy Hpy. destruct (Hpend p y Hy Hpy) as [Hry (w & Hw & Hwp)].
      destruct (Hrest (directoryOf y) (Hother p y Hy Hpy Hne)) as [-> _].
      split; [exact Hry|]. exists w. split; [|exact Hwp].
      apply Hk. split; [exact Hw | congruence].
    + intros w Hw. apply Hk in Hw as [Hw Hne].
      destruct (Hwait w Hw) as (y & Hy & Hrest'). exists y.
      rewrite lookup_setStatus. now destruct (decide (c_pid w = pid)).
    + intros k Hk'. destruct (decide (k = dir)) as [->|Hne]; [exact Hnone|].
      destruct (Hrest k Hne) as [-> Hm]. apply Hidle. now rewrite <- Hm.
  - destruct (rejectAll pid (waiting l)) as [keep done] eqn:E.
    pose proof (rejectAll_spec _ _ _ _ E) as Hk.
    split; simpl.
    + intros k p Hkp. destruct (Hreg _ _ Hkp) as (y & Hy & Hdy & Hsy).
      rewrite lookup_setStatus. destruct (decide (p = pid)) as [->|Hne].
      * rewrite Hy. simpl. eexists. split; [reflexivity|]. auto.
      * eauto.
    + intros p y. rewrite lookup_setStatus.
      destruct (decide (p = pid)) as [->|Hne].
      { rewrite Hx. simpl. intros [= <-]. discriminate. }
      intros Hy Hpy. destruct (Hpend p y Hy Hpy) as [Hry (w & Hw & Hwp)].
      split; [exact Hry|]. exists w. split; [|exact Hwp].
      apply Hk. split; [exact Hw | congruence].
    + intros w Hw. apply Hk in Hw as [Hw Hne].
      destruct (Hwait w Hw) as (y & Hy & Hrest'). exists y.
      rewrite lookup_setStatus. now destruct (decide (c_pid w = pid)).
    + exact Hidle.
Qed.

Lemma step_consistent (l : loop) (e : event) :
  consistent l -> consistent (step l e).
Proof.
  destruct e; [apply call_consistent | apply settle_consistent].
Qed.

Lemma runEvents_consistent (es : list event) (l : loop) :
  consistent l -> consistent (runEvents l es).
Proof.
  revert l. induction es as [|e es IH]; intros l Hl; simpl; [exact Hl|].
  apply IH, step_consistent, Hl.
Qed.

Lemma singleFlight_count (gh : github) (dir : string) :
  singleFlight gh -> length (inFlight dir gh) <= 1.
Proof.
  unfold inFlight.
  set (P := fun l => isPending l && String.eqb (directoryOf l) dir).
  assert (forall x, P x = true ->
            l_status x = Pending /\ directoryOf x = dir) as HP.
  { intros x. unfold P, isPending.
    destruct (l_status x); try discriminate.
    now destruct (String.eqb_spec (directoryOf x) dir). }
  induction gh as [|x gh IH]; intros Hsf; cbn [List.filter]; [simpl; lia|].
  destruct (P x) eqn:Hx.
  - assert (List.filter P gh = []) as ->; [|simpl; lia].
    destruct (List.filter P gh) as [|y ys] eqn:E; [reflexivity|]. exfalso.
    assert (In y (List.filter P gh)) as Hy by (rewrite E; now left).
    apply filter_In in Hy as [Hin Hy].
    apply list_elem_of_In, list_elem_of_lookup in Hin as [j Hj].
    destruct (HP x Hx) as [Hpx Hdx]. destruct (HP y Hy) as [Hpy Hdy].
    discriminate (Hsf 0 (S j) x y eq_refl Hj Hpx Hpy ltac:(congruence)).
  - apply IH. intros i j a b Ha Hb Hpa Hpb Hd.
    specialize (Hsf (S i) (S j) a b Ha Hb Hpa Hpb Hd). lia.
Qed.

Lemma consistent_singleFlight (l : loop) :
  consistent l -> singleFlight (listings l).
Proof.
  intros Hl i j x y Hx Hy Hpx Hpy Hd.
  destruct (pending_registered l Hl i x Hx Hpx) as [Hi _].
  destruct (pending_registered l Hl j y Hy Hpy) as [Hj _].
  rewrite Hd in Hi. congruence.
Qed.

End Consistency.

Section Scenario.

Variables (owner repo branch : string).

Lemma addRawUrls_lookup (files : list file) (st : state) (k : string) :
  urls (addRawUrls owner repo branch (Some files) st) !! k
  = match listedUrl owner repo branch files k with
    | Some v => Some v
    | None => urls st !! k
    end.
Proof.
  revert st. induction files as [|f files IH]; intros st; [reflexivity|].
  cbn [addRawUrls fold_left listedUrl]. cbn [addRawUrls] in IH. rewrite IH.
  destruct (listedUrl owner repo branch files k); [reflexivity|]. simpl.
  destruct (String.eqb_spec (fullPathOf owner repo branch (path f)) k)
    as [->|Hne].
  - apply lookup_insert_eq.
  - now apply lookup_insert_ne.
Qed.

(** Adding the same descriptors a second time changes nothing. *)
Lemma addRawUrls_again (files : option (list file)) (st st' : state) :
  urls st' = urls (addRawUrls owner repo branch files st) ->
  urls (addRawUrls owner repo branch files st')
  = urls (addRawUrls owner repo branch files st).
Proof.
  destruct files as [files|]; [|trivial]. intros H. apply map_eq. intros k.
  rewrite addRawUrls_lookup, H, addRawUrls_lookup.
  now destruct (listedUrl owner repo branch files k).
Qed.

Lemma addRawUrls_urls (files : option (list file)) (st st' : state) :
  urls st' = urls st ->
  urls (addRawUrls owner repo branch files st')
  = urls (addRawUrls owner repo branch files st).
Proof.
  destruct files as [files|]; [|trivial]. intros H. apply map_eq. intros k.
  now rewrite !addRawUrls_lookup, H.
Qed.

Variables (now : Z) (path : string).

Let dir := fullPathOf owner repo branch (parentPathOf path).

(** A call for an uncached file whose directory has neither a fresh marker
    nor a registered listing invokes the collaborator. *)
Lemma getRawUrl_start_idle (st : state) (gh : github) :
  truthy (prop (urls st) (fullPathOf owner repo branch path)) = false ->
  marked st dir = false \/ expired st dir now = true ->
  requests st !! dir = None ->
  exists st',
    getRawUrl_start now owner repo branch path st gh
      = (st', gh ++ [pendingListing owner repo branch (parentPathOf path)],
         Await (length gh)) /\
    urls st' = urls st /\ marked st' dir = false /\
    requests st' = <[dir := length gh]> (requests st).
Proof.
  intros Hu Hm Hr. unfold getRawUrl_start. fold dir. rewrite Hu. simpl.
  destruct (expired st dir now) eqn:He.
  - unfold marked at 1. simpl. rewrite lookup_delete_eq, Hr.
    eexists. split; [reflexivity|]. simpl. repeat split.
    unfold marked. simpl. now rewrite lookup_delete_eq.
  - destruct Hm as [Hm|Hm]; [|discriminate]. rewrite Hm, Hr.
    eexists. split; [reflexivity|]. simpl. repeat split. exact Hm.
Qed.

(** A call for an uncached file whose directory has no marker and a
    registered listing suspends on that listing. *)
Lemma getRawUrl_start_joins (st : state) (gh : github) (pid : nat) :
  truthy (prop (urls st) (fullPathOf owner repo branch path)) = false ->
  marked st dir = false ->
  requests st !! dir = Some pid ->
  getRawUrl_start now owner repo branch path st gh = (st, gh, Await pid).
Proof.
  intros Hu Hm Hr. unfold getRawUrl_start. fold dir. rewrite Hu. simpl.
  assert (expired st dir now = false) as ->.
  { revert Hm. unfold marked, expired. destruct (paths st !! dir); [|trivial].
    now intros ->. }
  now rewrite Hm, Hr.
Qed.

End Scenario.

Lemma resumeAll_others (clock : nat -> Z) (pid : nat)
    (files : option (list file)) (ws ws' : list call) (i : nat) (st : state) :
  (forall w, w ∈ ws -> c_pid w <> pid) ->
  resumeAll clock i pid files (ws ++ ws') st
  = let '(st', keep, done) := resumeAll clock i pid files ws' st in
    (st', ws ++ keep, done).
Proof.
  induction ws as [|w ws IH]; intros H; cbn [resumeAll app].
  - destruct (resumeAll clock i pid files ws' st) as [[? ?] ?]; reflexivity.
  - destruct (Nat.eqb_spec (c_pid w) pid) as [E|_].
    + exfalso. apply (H w); [left | exact E].
    + rewrite IH by (intros w' Hw'; apply H; now right).
      destruct (resumeAll clock i pid files ws' st) as [[? ?] ?]; reflexivity.
Qed.

Lemma rejectAll_others (pid : nat) (ws ws' : list call) :
  (forall w, w ∈ ws -> c_pid w <> pid) ->
  rejectAll pid (ws ++ ws')
  = let '(keep, done) := rejectAll pid ws' in (ws ++ keep, done).
Proof.
  induction ws as [|w ws IH]; intros H; cbn [rejectAll app].
  - destruct (rejectAll pid ws') as [? ?]; reflexivity.
  - rewrite IH by (intros w' Hw'; apply H; now right).
    destruct (rejectAll pid ws') as [keep done].
    destruct (Nat.eqb_spec (c_pid w) pid) as [E|_]; [|reflexivity].
    exfalso. apply (H w); [left | exact E].
Qed.

Lemma waiting_known (l : loop) (w : call) :
  consistent l -> w ∈ waiting l -> c_pid w <> length (listings l).
Proof.
  intros Hl Hw. destruct (waiting_pending l Hl w Hw) as (x & Hx & _).
  apply lookup_lt_Some in Hx. lia.
Qed.



(** C1 on the code.  When the listing a call started is rejected, the
    directory stays registered in [requests] under the rejected listing:
    every later call for an uncached file of the directory suspends on it and
    fails with it, and the collaborator is not invoked again. *)
Theorem rejected_listing_stays_registered (es : list event) (now now' : Z)
    (owner repo branch path : string) (clock : nat -> Z) :
  let l := runEvents emptyLoop es in
  let dir := fullPathOf owner repo branch (parentPathOf path) in
  let pid := length (listings l) in
  truthy (prop (urls (cache l)) (fullPathOf owner repo branch path)) = false ->
  marked (cache l) dir = false \/ expired (cache l) dir now = true ->
  requests (cache l) !! dir = None ->
  let l1 := runEvents l [Call now now' owner repo branch path;
                         Settle pid None clock] in
  requests (cache l1) !! dir = Some pid /\
  statusOf (listings l1) pid = Some Rejected /\
  completed l1 = completed l ++ [(started l, ListingFailed)] /\
  forall now2 now2' path2,
    parentPathOf path2 = parentPathOf path ->
    truthy (prop (urls (cache l1)) (fullPathOf owner repo branch path2))
      = false ->
    let l2 := step l1 (Call now2 now2' owner repo branch path2) in
    listings l2 = listings l1 /\
    requests (cache l2) !! dir = Some pid /\
    completed l2 = completed l1 ++ [(started l1, ListingFailed)].
Proof.
  intros l dir pid Hu Hm Hr l1.
  assert (consistent l) as Hl
    by apply runEvents_consistent, consistent_empty.
  destruct (getRawUrl_start_idle owner repo branch now path (cache l)
              (listings l) Hu Hm Hr) as (stA & EA & HuA & HmA & HrA).
  fold dir in HmA, HrA. fold pid in EA, HrA.
  set (gh := listings l ++
               [pendingListing owner repo branch (parentPathOf path)]) in *.
  assert (statusOf gh pid = Some Pending) as Hs.
  { unfold statusOf, gh. now rewrite list_lookup_middle. }
  assert (statusOf (setStatus pid Rejected gh) pid = Some Rejected) as Hs'.
  { unfold statusOf. rewrite lookup_setStatus.
    destruct (decide (pid = pid)); [|congruence].
    unfold gh. now rewrite list_lookup_middle. }
  assert (forall w, w ∈ waiting l -> c_pid w <> pid) as Hold
    by (intros w Hw; now apply waiting_known).
  assert (l1 = {| cache := stA; listings := setStatus pid Rejected gh;
                  waiting := waiting l;
                  completed := completed l ++ [(started l, ListingFailed)];
                  started := S (started l) |}) as El1.
  { subst l1. cbn [runEvents fold_left step]. rewrite EA.
    cbv beta iota zeta. rewrite Hs.
    cbn [cache listings waiting completed started]. rewrite Hs.
    rewrite (rejectAll_others _ _ _ Hold).
    cbn [rejectAll c_pid c_id]. rewrite Nat.eqb_refl.
    now rewrite app_nil_r. }
  clearbody l1. subst l1. cbn [cache listings waiting completed started].
  assert (requests stA !! dir = Some pid) as Hreg
    by (rewrite HrA; apply lookup_insert_eq).
  split; [exact Hreg|]. split; [exact Hs'|]. split; [reflexivity|].
  intros now2 now2' path2 Hpar Hu2.
  cbn [step cache listings waiting completed started].
  rewrite (getRawUrl_start_joins owner repo branch now2 path2 stA _ pid);
    rewrite ?Hpar; try assumption.
  rewrite Hs'. cbn [cache listings waiting completed started]. auto.
Qed.

(** A rejected listing of [docs] and a second call, thirty seconds later. *)
Lemma rejected_listing_stays_registered_witness :
  let l1 := runEvents emptyLoop [Call 1 2 "o" "r" "main" "docs/a.png";
                                 Settle 0 None (fun _ => 5%Z)] in
  let l2 := step l1 (Call 30000 30001 "o" "r" "main" "docs/a.png") in
  requests (cache l1) !! "o/r/main/docs" = Some 0 /\
  listings l2 = listings l1 /\
  completed l2 = [(0, ListingFailed); (1, ListingFailed)].
Proof.
  destruct (rejected_listing_stays_registered [] 1 2 "o" "r" "main"
              "docs/a.png" (fun _ => 5%Z)) as (H1 & _ & _ & H4);
    [reflexivity | now left | reflexivity |].
  cbn [runEvents fold_left] in H1, H4 |- *.
  split; [exact H1|].
  destruct (H4 30000%Z 30001%Z "docs/a.png") as (Hl & _ & Hc);
    [reflexivity | reflexivity |].
  split; [exact Hl | exact Hc].
Defined.






(** * The matcher against the declarative reading of the patterns *)

Section Matcher.

Lemma afterLit_Some (p s s' : string) :
  afterLit p s = Some s' <-> s = p +:+ s'.
Proof.
  revert s. induction p as [|c p IH]; intros s; simpl.
  - split; [now intros [= ->] | now intros ->].
  - destruct s as [|d s]; [split; discriminate|].
    destruct (Ascii.eqb_spec c d) as [->|Hne].
    + rewrite IH. split; [now intros -> | now intros [= ->]].
    + split; [discriminate | intros [= ? ?]; congruence].
Qed.

Lemma afterLit_app (p s : string) : afterLit p (p +:+ s) = Some s.
Proof. now apply afterLit_Some. Qed.

Lemma starNot_sound {A} (c : ascii) (s : string) (k : string -> option A)
    (a : A) :
  starNot c s k = Some a ->
  exists x s', s = x +:+ s' /\ lacks c x /\ k s' = Some a.
Proof.
  induction s as [|d s IH]; simpl.
  - intros H. now exists "", "".
  - destruct (Ascii.eqb_spec d c) as [->|Hne].
    + intros H. now exists "", (String c s).
    + destruct (starNot c s k) as [a'|] eqn:E.
      * intros [= ->]. destruct (IH eq_refl) as (x & s' & -> & Hx & Hk).
        exists (String d x), s'. simpl. auto.
      * intros H. now exists "", (String d s).
Qed.

Lemma starNot_complete {A} (c : ascii) (x s' : string)
    (k : string -> option A) :
  lacks c x -> is_Some (k s') -> is_Some (starNot c (x +:+ s') k).
Proof.
  intros Hx Hk. induction x as [|d x IH]; simpl.
  - destruct s' as [|d s']; simpl; [exact Hk|].
    destruct (Ascii.eqb d c); [exact Hk|].
    destruct (starNot c s' k); [eauto | exact Hk].
  - destruct Hx as [Hd Hx]. destruct (Ascii.eqb_spec d c); [contradiction|].
    destruct (IH Hx) as [a ->]. eauto.
Qed.

Lemma run_sound {A} (r : regex) :
  forall (s : string) (caps : captures)
         (k : string -> captures -> option A) (a : A),
    run r s caps k = Some a ->
    exists s' caps', matches r s caps s' caps' /\ k s' caps' = Some a.
Proof.
  induction r as [p|c|c|r1 IH1 r2 IH2|r1 IH1 r2 IH2|n r IH];
    intros s caps k a; cbn [run].
  - destruct (afterLit p s) as [s'|] eqn:E; [|discriminate].
    apply afterLit_Some in E as ->. intros H. exists s', caps.
    split; [constructor | exact H].
  - intros (x & s' & -> & Hx & Hk)%starNot_sound. exists s', caps.
    split; [now constructor | exact Hk].
  - destruct s as [|d s]; [discriminate|].
    destruct (Ascii.eqb_spec d c) as [|Hne]; [discriminate|].
    intros (x & s' & -> & Hx & Hk)%starNot_sound. exists s', caps.
    split; [now constructor | exact Hk].
  - intros H. apply IH1 in H as (s1 & caps1 & H1 & H).
    apply IH2 in H as (s2 & caps2 & H2 & H).
    exists s2, caps2. split; [econstructor; eassumption | exact H].
  - destruct (run r1 s caps k) as [a'|] eqn:E.
    + intros [= ->]. apply IH1 in E as (s' & caps' & H1 & H).
      exists s', caps'. split; [now apply matches_AltL | exact H].
    + intros H. apply IH2 in H as (s' & caps' & H2 & H).
      exists s', caps'. split; [now apply matches_AltR | exact H].
  - intros H. apply IH in H as (s' & caps' & H1 & H).
    eexists _, _. split; [apply matches_Group, H1 | exact H].
Qed.

Lemma run_complete {A} (r : regex) (s s' : string) (caps caps' : captures) :
  matches r s caps s' caps' ->
  forall k : string -> captures -> option A,
    is_Some (k s' caps') -> is_Some (run r s caps k).
Proof.
  induction 1 as [p s caps|c x s caps Hx|c d x s caps Hd Hx
                 |r1 r2 s caps s1 caps1 s2 caps2 _ IH1 _ IH2
                 |r1 r2 s caps s' caps' _ IH|r1 r2 s caps s' caps' _ IH
                 |n r s caps s' caps' _ IH];
    intros k Hk; cbn [run].
  - now rewrite afterLit_app.
  - now apply (starNot_complete c x s (fun s' => k s' caps)).
  - destruct (Ascii.eqb_spec d c); [contradiction|].
    now apply (starNot_complete c x s (fun s' => k s' caps)).
  - apply IH1. now apply IH2.
  - destruct (IH k Hk) as [a ->]. eauto.
  - destruct (run r1 s caps k); [eauto | now apply IH].
  - now apply IH.
Qed.

Lemma consumed_app (x y : string) : consumed (x +:+ y) y = x.
Proof.
  unfold consumed. rewrite str_length_app.
  replace (String.length x + String.length y - String.length y)
    with (String.length x) by lia.
  apply str_take_app.
Qed.

End Matcher.

(** * What [getImgSrcs] yields *)

Ltac str_norm :=
  repeat first [rewrite str_app_assoc | progress cbn [String.append]].

Section ImgRegex.

Ltac unravel :=
  repeat match goal with
         | H : matches (Seq _ _) _ _ _ _ |- _ => inversion H; subst; clear H
         | H : matches (Lit _) _ _ _ _ |- _ => inversion H; subst; clear H
         | H : matches (StarNot _) _ _ _ _ |- _ => inversion H; subst; clear H
         | H : matches (PlusNot _) _ _ _ _ |- _ => inversion H; subst; clear H
         | H : matches (Group _ _) _ _ _ _ |- _ => inversion H; subst; clear H
         | H : matches (Alt _ _) _ _ _ _ |- _ => inversion H; subst; clear H
         end.

Lemma exec_img_sound (s : string) (m : rmatch) :
  exec imgRegex s = Some m ->
  exists a q v b rest,
    s = imgTag a q v b +:+ rest /\ m = imgMatch a q v b /\
    lacks ">" a /\ (q = dquote \/ q = squote) /\ v <> "" /\ lacks q v /\
    lacks ">" b.
Proof.
  unfold exec. intros (s' & caps' & H & Hm)%run_sound.
  injection Hm as <-. unfold imgRegex in H. unravel.
  - exists x0, dquote, (String d x1), x, s'.
    assert ("<img " +:+ x0 +:+ "src=" +:+ String dquote "" +:+
              String d (x1 +:+ String dquote "" +:+ x +:+ ">" +:+ s')
            = imgTag x0 dquote (String d x1) x +:+ s') as ->.
    { unfold imgTag. now str_norm. }
    rewrite consumed_app.
    change (String d (x1 +:+ String dquote "" +:+ x +:+ ">" +:+ s'))
      with (String d x1 +:+ (String dquote "" +:+ x +:+ ">" +:+ s')).
    rewrite consumed_app.
    repeat split; auto; discriminate.
  - exists x0, squote, (String d x1), x, s'.
    assert ("<img " +:+ x0 +:+ "src=" +:+ "'" +:+
              String d (x1 +:+ "'" +:+ x +:+ ">" +:+ s')
            = imgTag x0 squote (String d x1) x +:+ s') as ->.
    { unfold imgTag. now str_norm. }
    rewrite consumed_app.
    change (String d (x1 +:+ "'" +:+ x +:+ ">" +:+ s'))
      with (String d x1 +:+ ("'" +:+ x +:+ ">" +:+ s')).
    rewrite consumed_app.
    repeat split; auto; discriminate.
Qed.

Lemma exec_img_complete (a : string) (q : ascii) (v b rest : string) :
  lacks ">" a -> q = dquote \/ q = squote -> v <> "" -> lacks q v ->
  lacks ">" b ->
  is_Some (exec imgRegex (imgTag a q v b +:+ rest)).
Proof.
  intros Ha Hq Hv Hqv Hb. destruct v as [|d v]; [contradiction|].
  destruct Hqv as [Hd Hqv]. unfold exec.
  assert (imgTag a q (String d v) b +:+ rest
          = "<img " +:+ a +:+ "src=" +:+ String q "" +:+
              String d (v +:+ String q "" +:+ b +:+ ">" +:+ rest)) as ->
    by (unfold imgTag; now str_norm).
  unfold imgRegex. destruct Hq as [-> | ->].
  - eapply run_complete; [|eexists; reflexivity].
    eapply matches_Seq; [apply matches_Lit|].
    eapply matches_Seq; [apply matches_StarNot, Ha|].
    eapply matches_Seq; [apply matches_Lit|].
    eapply matches_Seq.
    + apply matches_AltL.
      eapply matches_Seq; [apply matches_Lit|].
      eapply matches_Seq; [|apply matches_Lit].
      apply matches_Group, matches_PlusNot; assumption.
    + eapply matches_Seq; [apply matches_StarNot, Hb | apply matches_Lit].
  - eapply run_complete; [|eexists; reflexivity].
    eapply matches_Seq; [apply matches_Lit|].
    eapply matches_Seq; [apply matches_StarNot, Ha|].
    eapply matches_Seq; [apply matches_Lit|].
    eapply matches_Seq.
    + apply matches_AltR.
      eapply matches_Seq; [apply (matches_Lit "'")|].
      eapply matches_Seq; [|apply (matches_Lit "'")].
      apply matches_Group, matches_PlusNot; assumption.
    + eapply matches_Seq; [apply matches_StarNot, Hb | apply matches_Lit].
Qed.

Lemma matchAllFrom_in (r : regex) (s : string) (m : rmatch) :
  forall skip, m ∈ matchAllFrom r skip s ->
               exists j, exec r (Js.drop j s) = Some m.
Proof.
  induction s as [|c s IH]; intros skip; cbn [matchAllFrom].
  - destruct skip; [|now intros ?%elem_of_nil].
    destruct (exec r "") as [m'|] eqn:E; [|now intros ?%elem_of_nil].
    intros ->%list_elem_of_singleton. now exists 0.
  - destruct skip as [|n].
    + destruct (exec r (String c s)) as [m'|] eqn:E.
      * intros [->|H]%elem_of_cons; [now exists 0|].
        destruct (IH _ H) as [j Hj]. now exists (S j).
      * intros H. destruct (IH _ H) as [j Hj]. now exists (S j).
    + intros H. destruct (IH _ H) as [j Hj]. now exists (S j).
Qed.

Lemma matchAllFrom_none (r : regex) (s : string) :
  (forall j, exec r (Js.drop j s) = None) ->
  forall skip, matchAllFrom r skip s = [].
Proof.
  induction s as [|c s IH]; intros H skip; cbn [matchAllFrom];
    pose proof (H 0) as H0; cbn [Js.drop] in H0.
  - destruct skip; [|reflexivity]. now rewrite H0.
  - assert (forall j, exec r (Js.drop j s) = None) as H'
      by (intros j; apply (H (S j))).
    destruct skip; [|now apply IH]. rewrite H0. now apply IH.
Qed.

Lemma matchAllFrom_skip (r : regex) (x s : string) :
  matchAllFrom r (String.length x) (x +:+ s) = matchAllFrom r 0 s.
Proof. induction x as [|c x IH]; [reflexivity | exact IH]. Qed.

Lemma matchAll_hit (r : regex) (c : ascii) (t rest : string) (m : rmatch) :
  exec r (String c t +:+ rest) = Some m -> m_0 m = String c t ->
  matchAllFrom r 0 (String c t +:+ rest) = m :: matchAllFrom r 0 rest.
Proof.
  intros E Hm. cbn [String.append matchAllFrom] in *. rewrite E, Hm. simpl.
  now rewrite matchAllFrom_skip.
Qed.

Lemma matchAll_miss (r : regex) (c : ascii) (s : string) :
  exec r (String c s) = None ->
  matchAllFrom r 0 (String c s) = matchAllFrom r 0 s.
Proof. intros E. cbn [matchAllFrom]. now rewrite E. Qed.

Lemma srcOf_imgMatch (a : string) (q : ascii) (v b : string) :
  q = dquote \/ q = squote -> v <> "" ->
  srcOf (imgMatch a q v b) = VStr v /\
  quoteOf (imgMatch a q v b) = String q "".
Proof.
  intros Hq Hv. destruct v as [|d v]; [contradiction|].
  destruct Hq as [-> | ->]; now vm_compute.
Qed.

Lemma getImgSrcs_in (html : string) (m : rmatch) :
  m ∈ getImgSrcs html ->
  exists j a q v b rest,
    Js.drop j html = imgTag a q v b +:+ rest /\ m = imgMatch a q v b /\
    lacks ">" a /\ (q = dquote \/ q = squote) /\ v <> "" /\ lacks q v /\
    lacks ">" b.
Proof.
  intros [j Hj]%matchAllFrom_in. apply exec_img_sound in Hj.
  destruct Hj as (a & q & v & b & rest & H). now exists j, a, q, v, b, rest.
Qed.

Lemma hasSource_drop (s : string) (j : nat) :
  hasSource (Js.drop j s) = true -> hasSource s = true.
Proof.
  revert s. induction j as [|j IH]; intros s; [simpl; trivial|].
  destruct s as [|c s]; [trivial|]. cbn [Js.drop]. intros H%IH.
  cbn [hasSource]. rewrite H. apply orb_true_r.
Qed.

Lemma hasSource_attr (x : string) (q c : ascii) (y : string) :
  q = dquote \/ q = squote -> c <> q ->
  hasSource (x +:+ "src=" +:+ String q (String c y)) = true.
Proof.
  intros Hq Hc. apply (hasSource_drop _ (String.length x)).
  rewrite str_drop_app. cbn.
  destruct (Ascii.eqb_spec c q); [contradiction|].
  destruct Hq as [-> | ->]; reflexivity.
Qed.

Lemma noSource_no_match (html : string) :
  noSource html -> getImgSrcs html = [].
Proof.
  intros Hno. apply matchAllFrom_none. intros j.
  destruct (exec imgRegex (Js.drop j html)) as [m|] eqn:E; [|reflexivity].
  exfalso. apply exec_img_sound in E
    as (a & q & v & b & rest & E & _ & _ & Hq & Hv & Hqv & _).
  destruct v as [|c v]; [contradiction|]. destruct Hqv as [Hc _].
  unfold noSource in Hno.
  rewrite (hasSource_drop html j) in Hno; [discriminate|]. rewrite E.
  replace (imgTag a q (String c v) b +:+ rest)
    with (("<img " +:+ a) +:+ "src=" +:+
          String q (String c (v +:+ String q (b +:+ ">") +:+ rest)))
    by (unfold imgTag; now str_norm).
  now apply hasSource_attr.
Qed.

End ImgRegex.

(** C9, as amended.  Every match has a non-empty source, captured by exactly
    one of the two groups and standing in the matched tag as
    [src=] quote source quote.  A text whose [src] attributes are all empty
    has no match, and every rewriting operation returns it unchanged. *)
Theorem getImgSrcs_sources (html : string) :
  (forall m, m ∈ getImgSrcs html ->
     exists q v,
       v <> "" /\ srcOf m = VStr v /\ quoteOf m = String q "" /\
       (q = dquote /\ m_1 m = VStr v /\ m_2 m = VUndefined \/
        q = squote /\ m_1 m = VUndefined /\ m_2 m = VStr v) /\
       occurs (srcAttr (String q "") v) (m_0 m)) /\
  (noSource html ->
     getImgSrcs html = [] /\
     forall owner repo branch prefix from to,
       addPrefix html prefix = Ok html /\
       removePrefix html prefix = Ok html /\
       htmlSwapPrefix html from to = Ok html /\
       rawToRelativeUrls owner repo branch html = Ok html /\
       forall w isPrivate tick st gh,
         relativeToRawUrls w owner repo branch html isPrivate tick st gh
         = (st, gh, tick, Ok html)).
Proof.
  split.
  - intros m (j & a & q & v & b & rest & _ & -> & _ & Hq & Hv & _)%getImgSrcs_in.
    destruct (srcOf_imgMatch a q v b Hq Hv) as [Hs Hquote].
    exists q, v. split; [exact Hv|]. split; [exact Hs|].
    split; [exact Hquote|]. split.
    + destruct Hq as [-> | ->]; [left | right]; auto.
    + exists ("<img " +:+ a), (b +:+ ">"). unfold srcAttr, imgMatch, imgTag.
      cbn [m_0]. now str_norm.
  - intros Hno. pose proof (noSource_no_match html Hno) as E.
    split; [exact E|]. intros owner repo branch prefix from to.
    unfold addPrefix, removePrefix, htmlSwapPrefix, rawToRelativeUrls,
      relativeToRawUrls.
    rewrite E. repeat split.
Qed.

(** An image whose [src] is empty, in a paragraph. *)
Lemma getImgSrcs_sources_witness :
  getImgSrcs "<p><img src='' alt='logo'></p>" = [] /\
  addPrefix "<p><img src='' alt='logo'></p>" "img/"
    = Ok "<p><img src='' alt='logo'></p>".
Proof.
  destruct (getImgSrcs_sources "<p><img src='' alt='logo'></p>") as [_ H].
  destruct (H eq_refl) as [H1 H2]. split; [exact H1|].
  destruct (H2 "o" "r" "main" "img/" "" "") as [H3 _]. exact H3.
Defined.

(** C9 as stated fails: a tag whose [src] is empty is matched when a later
    attribute of it ends in [src=], and is then rewritten. *)
Lemma empty_src_matched_counterexample :
  ~ (forall attributes prefix,
       lacks ">" attributes ->
       let html := "<img src=''" +:+ attributes +:+ ">" in
       getImgSrcs html = [] /\ addPrefix html prefix = Ok html).
Proof.
  intros H.
  destruct (H " data-src='a.png'" "img/") as [H1 _].
  - repeat split; discriminate.
  - vm_compute in H1. discriminate H1.
Qed.


(** * Which text the rewriting operations change *)

Section Frame.

Lemma replace_cases (h p t : string) :
  Js.replace h p t = h \/
  exists x y, h = x +:+ p +:+ y /\ Js.indexOf h p = Some (String.length x) /\
              Js.replace h p t = x +:+ Js.getSubstitution p x y t +:+ y.
Proof.
  destruct (Js.indexOf h p) as [i|] eqn:E.
  - right. destruct (replace_Some h p t i E) as (x & y & Hh & Hx & Hr).
    exists x, y. rewrite Hx. auto.
  - left. now apply replace_None.
Qed.

Lemma getImgSrcs_srcOf (html : string) (m : rmatch) :
  m ∈ getImgSrcs html -> exists v, srcOf m = VStr v.
Proof.
  intros (j & a & q & v & b & rest & _ & -> & _ & Hq & Hv & _)%getImgSrcs_in.
  exists v. now apply srcOf_imgMatch.
Qed.

(** A loop whose body leaves the text alone or replaces the attribute text of
    the match at hand. *)
Lemma forEachMatch_rewritten (body : string -> string -> string -> string) :
  (forall quote src h,
     body quote src h = h \/
     exists t, body quote src h = Js.replace h (srcAttr quote src) t) ->
  forall ms h,
    (forall m, m ∈ ms -> exists v, srcOf m = VStr v) ->
    exists h', forEachMatch body ms h = Ok h' /\ rewrittenBy ms h h'.
Proof.
  intros Hbody. induction ms as [|m ms IH]; intros h Hms; cbn [forEachMatch].
  - exists h. split; [reflexivity | constructor].
  - destruct (Hms m (list_elem_of_here _ _)) as [v Hv].
    unfold withSrc. rewrite Hv. cbn [bind].
    destruct (IH (body (quoteOf m) v h)) as (h' & Hh' & Hrw).
    { intros m' Hm'. apply Hms. now right. }
    exists h'. split; [exact Hh'|].
    destruct (Hbody (quoteOf m) v h) as [E|[t E]]; rewrite E in Hrw;
      [now apply rewritten_skip|].
    destruct (replace_cases h (srcAttr (quoteOf m) v) t)
      as [E'|(x & y & Hh & Hi & E')]; rewrite E' in Hrw;
      [now apply rewritten_skip|].
    eapply rewritten_step; eassumption.
Qed.

Lemma getRawUrl_no_TypeError (w : world) (owner repo branch path : string)
    (isPrivate : bool) (tick : nat) (st : state) (gh : github) :
  snd (getRawUrl w owner repo branch path isPrivate tick st gh) <> TypeError.
Proof.
  unfold getRawUrl. destruct isPrivate; [|discriminate].
  destruct (getRawUrl_start _ _ _ _ _ _ _) as [[? ?] [?|pid]];
    [discriminate|].
  destruct (statusOf _ pid) as [[|?|]|]; try discriminate;
    try (destruct (getRawUrl_resume _ _ _ _ _ _ _); discriminate);
    destruct (answers w pid); try discriminate;
    destruct (getRawUrl_resume _ _ _ _ _ _ _); discriminate.
Qed.

Lemma relativeToRawUrls_loop_rewritten (w : world)
    (owner repo branch : string) (isPrivate : bool) :
  forall ms h tick st gh,
    (forall m, m ∈ ms -> exists v, srcOf m = VStr v) ->
    exists st' gh' tick' r,
      relativeToRawUrls_loop w owner repo branch isPrivate ms h tick st gh
        = (st', gh', tick', r) /\
      (r = ListingFailed \/ exists h', r = Ok h' /\ rewrittenBy ms h h').
Proof.
  induction ms as [|m ms IH]; intros h tick st gh Hms;
    cbn [relativeToRawUrls_loop].
  - do 4 eexists. split; [reflexivity|]. right. eexists.
    split; [reflexivity | constructor].
  - assert (forall m', m' ∈ ms -> exists v, srcOf m' = VStr v) as Hms'
      by (intros m' Hm'; apply Hms; now right).
    destruct (Hms m (list_elem_of_here _ _)) as [v Hv]. rewrite Hv.
    destruct (isRelative v).
    2: { destruct (IH h tick st gh Hms') as (st' & gh' & tick' & r & Hr & Hc).
         exists st', gh', tick', r. split; [exact Hr|].
         destruct Hc as [->|(h' & -> & Hrw)]; [now left|]. right.
         exists h'. split; [reflexivity | now apply rewritten_skip]. }
    pose proof (getRawUrl_no_TypeError w owner repo branch v isPrivate tick
                  st gh) as Hno.
    destruct (getRawUrl w owner repo branch v isPrivate tick st gh)
      as [[[st1 gh1] tick1] [rawUrl| |]] eqn:E.
    + destruct (IH (substituteRawUrl (quoteOf m) v rawUrl h) tick1 st1 gh1 Hms')
        as (st' & gh' & tick' & r & Hr & Hcases).
      exists st', gh', tick', r. split; [exact Hr|].
      destruct Hcases as [->|(h' & -> & Hrw)]; [now left|]. right.
      exists h'. split; [reflexivity|]. revert Hrw. unfold substituteRawUrl.
      destruct (truthy rawUrl); [|apply rewritten_skip].
      destruct (replace_cases h (srcAttr (quoteOf m) v)
                  (srcAttr (quoteOf m) (toString rawUrl)))
        as [E'|(x & y & Hh & Hi & E')]; rewrite E'; [apply rewritten_skip|].
      intros Hrw. eapply rewritten_step; eassumption.
    + now contradiction Hno.
    + do 4 eexists. split; [reflexivity|]. now left.
Qed.

Lemma relativeToRawUrls_loop_public (w : world) (owner repo branch : string)
    (ms : list rmatch) :
  forall h tick st gh,
    relativeToRawUrls_loop w owner repo branch false ms h tick st gh
    = (st, gh, tick,
       forEachMatch
         (fun quote src newHtml =>
            if isRelative src then
              substituteRawUrl quote src
                (VStr (publicRawUrl owner repo branch src)) newHtml
            else newHtml) ms h).
Proof.
  induction ms as [|m ms IH]; intros h tick st gh;
    cbn [relativeToRawUrls_loop forEachMatch]; [reflexivity|].
  unfold withSrc. destruct (srcOf m) as [| |v]; try reflexivity.
  cbn [bind]. destruct (isRelative v); [|apply IH].
  unfold getRawUrl. apply IH.
Qed.

(** In public mode [relativeToRawUrls] is a function of the text alone. *)
Lemma relativeToRawUrls_public_eq (w : world) (owner repo branch html : string)
    (tick : nat) (st : state) (gh : github) :
  relativeToRawUrls w owner repo branch html false tick st gh
  = (st, gh, tick, relativeToRawUrls_public owner repo branch html).
Proof. apply relativeToRawUrls_loop_public. Qed.

End Frame.

(** C3, as amended.  Each rewriting operation changes the text by at most one
    substitution per match, and a substitution replaces the first occurrence
    of the text [src=] quote source quote of its match, wherever in the text
    that occurrence stands; everything in front of the replaced occurrence
    and behind it is preserved. *)
Theorem rewriting_frame (html : string) :
  forall owner repo branch prefix from to,
    (exists html', addPrefix html prefix = Ok html' /\
                   rewrittenBy (getImgSrcs html) html html') /\
    (exists html', removePrefix html prefix = Ok html' /\
                   rewrittenBy (getImgSrcs html) html html') /\
    (exists html', htmlSwapPrefix html from to = Ok html' /\
                   rewrittenBy (getImgSrcs html) html html') /\
    (exists html', rawToRelativeUrls owner repo branch html = Ok html' /\
                   rewrittenBy (getImgSrcs html) html html') /\
    (forall w isPrivate tick st gh,
       exists st' gh' tick' r,
         relativeToRawUrls w owner repo branch html isPrivate tick st gh
           = (st', gh', tick', r) /\
         (r = ListingFailed \/
          exists html', r = Ok html' /\
                        rewrittenBy (getImgSrcs html) html html')).
Proof.
  intros owner repo branch prefix from to.
  pose proof (getImgSrcs_srcOf html) as Hsrc.
  split; [|split; [|split; [|split]]].
  - apply forEachMatch_rewritten; [|exact Hsrc]. intros quote src h.
    destruct (isRelative src); eauto.
  - apply forEachMatch_rewritten; [|exact Hsrc]. intros quote src h.
    destruct (hasPrefix src prefix); eauto.
  - apply forEachMatch_rewritten; [|exact Hsrc]. intros quote src h.
    destruct (hasPrefix src from && notRemote src); eauto.
  - apply forEachMatch_rewritten; [|exact Hsrc]. intros quote src h.
    destruct (Js.startsWith src _); eauto.
  - intros w isPrivate tick st gh.
    now apply relativeToRawUrls_loop_rewritten.
Qed.

(** C3 as stated fails: the substitution for a matched tag can fall on the
    same attribute text in front of the tag, which is then changed while the
    tag is not. *)
Lemma text_outside_tag_counterexample :
  ~ (forall html prefix front behind m html',
       getImgSrcs html = [m] -> html = front +:+ m_0 m +:+ behind ->
       addPrefix html prefix = Ok html' ->
       exists tag, html' = front +:+ tag +:+ behind).
Proof.
  intros H.
  destruct (H "<video src='a.png'></video><img src='a.png'>" "img/"
              "<video src='a.png'></video>" ""
              (imgMatch "" squote "a.png" "")
              "<video src='img/a.png'></video><img src='a.png'>")
    as [tag Htag]; try reflexivity.
  cbn in Htag. discriminate Htag.
Qed.

(** * Where a text occurs *)

Section Occurrences.

Lemma absent_iff (p s : string) :
  absent p s <-> forall j, Js.startsWith (Js.drop j s) p = false.
Proof. apply indexOf_None. Qed.

Lemma startsWith_app_cases (x s p : string) :
  Js.startsWith (x +:+ s) p = true ->
  Js.startsWith x p = true \/
  exists p2, p = x +:+ p2 /\ p2 <> "" /\ Js.startsWith s p2 = true.
Proof.
  revert x. induction p as [|c p IH]; intros x H; [now left|].
  destruct x as [|d x].
  - right. exists (String c p). repeat split; [discriminate | exact H].
  - cbn [String.append Js.startsWith] in *.
    destruct (Ascii.eqb_spec c d) as [->|Hne]; [|discriminate].
    destruct (IH x H) as [Hx|(p2 & -> & Hp2 & Hs)]; [now left|].
    right. exists p2. auto.
Qed.

Lemma drop_app_lt (j : nat) (x s : string) :
  j <= String.length x -> Js.drop j (x +:+ s) = Js.drop j x +:+ s.
Proof.
  revert x. induction j as [|j IH]; intros x Hj; [reflexivity|].
  destruct x as [|c x]; simpl in *; [lia|]. apply IH. lia.
Qed.

Lemma drop_nonempty (j : nat) (x : string) :
  j < String.length x -> Js.drop j x <> "".
Proof.
  revert x. induction j as [|j IH]; intros [|c x] Hj; simpl in *;
    try lia; [discriminate|]. apply IH. lia.
Qed.

Lemma absent_clear (p x s : string) :
  absent p x -> guard p s -> clear p x s.
Proof.
  intros Hx Hs j Hj. rewrite drop_app_lt by lia.
  destruct (Js.startsWith (Js.drop j x +:+ s) p) eqn:E; [|reflexivity].
  apply startsWith_app_cases in E as [E|(p2 & Hp & Hp2 & E)].
  - apply absent_iff with (j := j) in Hx. congruence.
  - rewrite (Hs _ _ Hp (drop_nonempty j x Hj) Hp2) in E. discriminate.
Qed.

Lemma guard_empty (p : string) : guard p "".
Proof. intros p1 [|c p2] _ _ H; [contradiction | reflexivity]. Qed.

Lemma guard_char (p : string) (c : ascii) (s : string) :
  lacks c (Js.drop 1 p) -> guard p (String c s).
Proof.
  intros Hc [|d p1] [|e p2] -> Hp1 Hp2; try contradiction.
  cbn in Hc. apply lacks_app in Hc as [_ [He _]]. cbn.
  now destruct (Ascii.eqb_spec e c).
Qed.

Lemma clear_tail (p : string) (c : ascii) (x s : string) :
  clear p (String c x) s -> clear p x s.
Proof. intros H j Hj. apply (H (S j)). simpl. lia. Qed.

Lemma indexOf_clear (p x s : string) :
  clear p x s ->
  Js.indexOf (x +:+ s) p = option_map (plus (String.length x)) (Js.indexOf s p).
Proof.
  induction x as [|c x IH]; intros H.
  - simpl. now destruct (Js.indexOf s p).
  - pose proof (H 0 ltac:(simpl; lia)) as H0.
    cbn [String.append Js.indexOf Js.drop] in *. rewrite H0.
    rewrite IH by now apply clear_tail in H.
    now destruct (Js.indexOf s p).
Qed.

Lemma take_app_add (x s : string) (i : nat) :
  Js.take (String.length x + i) (x +:+ s) = x +:+ Js.take i s.
Proof. induction x as [|c x IH]; simpl; [reflexivity | now rewrite IH]. Qed.

(** A substitution passes over a part of the text in which the pattern does
    not start. *)
Lemma replace_clear (p x s t : string) :
  clear p x s -> lacks "$" t ->
  Js.replace (x +:+ s) p t = x +:+ Js.replace s p t.
Proof.
  intros H Ht. unfold Js.replace. rewrite (indexOf_clear _ _ _ H).
  destruct (Js.indexOf s p) as [i|]; [|reflexivity]. cbn [option_map].
  rewrite take_app_add, !getSubstitution_plain by exact Ht.
  rewrite <- Nat.add_assoc, str_drop_add, str_drop_app.
  now rewrite str_app_assoc.
Qed.

Lemma replace_here (p s t : string) :
  lacks "$" t -> Js.replace (p +:+ s) p t = t +:+ s.
Proof.
  intros Ht. unfold Js.replace.
  rewrite (indexOf_startsWith _ _ (startsWith_app p s)).
  cbn [Js.take plus String.append].
  now rewrite getSubstitution_plain, str_drop_app.
Qed.

Lemma absent_app (p x s : string) :
  absent p x -> guard p s -> absent p s -> absent p (x +:+ s).
Proof.
  intros Hx Hg Hs. unfold absent.
  rewrite (indexOf_clear _ _ _ (absent_clear _ _ _ Hx Hg)).
  unfold absent in Hs. now rewrite Hs.
Qed.

Lemma absent_cons (p : string) (c : ascii) (s : string) :
  Js.startsWith (String c s) p = false -> absent p s ->
  absent p (String c s).
Proof. unfold absent. cbn [Js.indexOf]. now intros -> ->. Qed.

Lemma absent_tail (p : string) (c : ascii) (s : string) :
  absent p (String c s) -> absent p s.
Proof.
  unfold absent. cbn [Js.indexOf].
  destruct (Js.startsWith (String c s) p); [discriminate|].
  now destruct (Js.indexOf s p).
Qed.

(** Two parts joined by a character that [p] does not contain. *)
Lemma absent_join (p x : string) (c : ascii) (y : string) :
  lacks c p -> p <> "" -> absent p x -> absent p y ->
  absent p (x +:+ String c y).
Proof.
  intros Hc Hp Hx Hy. destruct p as [|d p]; [contradiction|].
  destruct Hc as [Hd Hc]. apply absent_app; [exact Hx | |].
  - now apply guard_char.
  - apply absent_cons; [|exact Hy]. cbn. now destruct (Ascii.eqb_spec d c).
Qed.

Lemma absent_app_l (p x y : string) : absent p (x +:+ y) -> absent p x.
Proof.
  intros H. apply absent_iff. intros j.
  destruct (Js.startsWith (Js.drop j x) p) eqn:E; [|reflexivity].
  destruct (le_lt_dec j (String.length x)) as [Hj|Hj].
  - apply absent_iff with (j := j) in H. rewrite drop_app_lt in H by exact Hj.
    apply startsWith_inv in E as [r E]. rewrite E, str_app_assoc in H.
    now rewrite startsWith_app in H.
  - assert (Js.drop j x = "") as E0.
    { clear -Hj. revert x Hj. induction j as [|j IH]; intros [|c x] Hj;
        simpl in *; try lia; [reflexivity|]. apply IH. lia. }
    rewrite E0 in E. destruct p; [|discriminate].
    apply absent_iff with (j := 0) in H. now destruct (x +:+ y).
Qed.

End Occurrences.

(** * The matches of a document whose images are plain *)

Section PlainDocuments.

Lemma starNot_none {A} (c : ascii) (s : string) (k : string -> option A) :
  (forall j, lacks c (Js.take j s) -> k (Js.drop j s) = None) ->
  starNot c s k = None.
Proof.
  induction s as [|d s IH]; intros H; cbn [starNot].
  - apply (H 0). exact I.
  - pose proof (H 0 I) as H0. cbn [Js.drop] in H0.
    destruct (Ascii.eqb_spec d c) as [|Hne]; [exact H0|].
    rewrite IH; [exact H0|]. intros j Hj. apply (H (S j)). split; assumption.
Qed.

(** The greedy star settles on the split [x], [s] when the rest of the
    pattern accepts [s] and refuses every longer split. *)
Lemma starNot_pick {A} (c : ascii) (x s : string) (k : string -> option A)
    (r : A) :
  lacks c x -> k s = Some r ->
  (forall j, lacks c (Js.take (S j) s) -> k (Js.drop (S j) s) = None) ->
  starNot c (x +:+ s) k = Some r.
Proof.
  intros Hx Hk Hlonger. induction x as [|d x IH].
  - cbn [String.append]. destruct s as [|d s]; cbn [starNot]; [exact Hk|].
    destruct (Ascii.eqb_spec d c) as [|Hne]; [exact Hk|].
    rewrite starNot_none; [exact Hk|]. intros j Hj.
    apply (Hlonger j). split; assumption.
  - destruct Hx as [Hd Hx]. cbn [String.append starNot].
    destruct (Ascii.eqb_spec d c); [contradiction|]. now rewrite (IH Hx).
Qed.

Lemma lacks_take_app (c : ascii) (x y : string) (j : nat) :
  lacks c (Js.take j (x +:+ String c y)) -> j <= String.length x.
Proof.
  revert j. induction x as [|d x IH]; intros [|j]; simpl; try lia.
  - intros [H _]. contradiction.
  - intros [_ H]. apply IH in H. lia.
Qed.

Lemma afterLit_None (p s : string) :
  Js.startsWith s p = false -> afterLit p s = None.
Proof.
  intros H. destruct (afterLit p s) as [s'|] eqn:E; [|reflexivity].
  apply afterLit_Some in E as ->. now rewrite startsWith_app in H.
Qed.

Lemma quote_not_in_src (q : ascii) :
  q = dquote \/ q = squote -> lacks q "src=" /\ lacks q "rc=".
Proof. intros [-> | ->]; repeat split; discriminate. Qed.

(** Behind the [src=] of its source, a plain tag has no second [src=] before
    it closes. *)
Lemma tag_no_second_src (q : ascii) (v b rest : string) (j : nat) :
  q = dquote \/ q = squote -> absent "src=" v -> absent "src=" b ->
  lacks ">" (Js.take (S j)
               ("src=" +:+ String q (v +:+ String q (b +:+ String ">" rest)))) ->
  Js.startsWith
    (Js.drop (S j)
       ("src=" +:+ String q (v +:+ String q (b +:+ String ">" rest))))
    "src=" = false.
Proof.
  intros Hq Hv Hb.
  set (X := "rc=" +:+ String q (v +:+ String q b)).
  replace ("src=" +:+ String q (v +:+ String q (b +:+ String ">" rest)))
    with (String "s" (X +:+ String ">" rest))
    by (unfold X; now str_norm).
  cbn [Js.take Js.drop lacks]. intros [_ Hj]. apply lacks_take_app in Hj.
  destruct (quote_not_in_src q Hq) as [Hq1 Hq2].
  assert (absent "src=" X) as HX.
  { unfold X. apply absent_join; [exact Hq1 | discriminate | reflexivity |].
    apply absent_join; [exact Hq1 | discriminate | exact Hv | exact Hb]. }
  destruct (decide (j = String.length X)) as [->|Hne].
  - now rewrite str_drop_app.
  - apply (absent_clear "src=" X (String ">" rest)); [exact HX | | lia].
    apply guard_char. repeat split; discriminate.
Qed.

Lemma exec_img_tag (a : string) (q : ascii) (v b rest : string) :
  lacks ">" a -> q = dquote \/ q = squote -> v <> "" -> lacks q v ->
  lacks ">" b -> absent "src=" v -> absent "src=" b ->
  exec imgRegex (imgTag a q v b +:+ rest) = Some (imgMatch a q v b).
Proof.
  intros Ha Hq Hv Hqv Hb Hsv Hsb.
  set (S1 := "src=" +:+ String q (v +:+ String q (b +:+ String ">" rest))).
  assert (imgTag a q v b +:+ rest = "<img " +:+ a +:+ S1) as E
    by (unfold imgTag, S1; now str_norm).
  unfold exec, imgRegex. cbn [run]. rewrite E at 1. rewrite afterLit_app.
  apply starNot_pick; [exact Ha| |].
  2: { intros j Hj. rewrite afterLit_None; [reflexivity|].
       now apply tag_no_second_src. }
  unfold S1 at 1. rewrite afterLit_app.
  destruct v as [|d v]; [contradiction|]. destruct Hqv as [Hd Hqv].
  assert (consumed (imgTag a q (String d v) b +:+ rest) rest
          = imgTag a q (String d v) b) as Hall by apply consumed_app.
  destruct Hq as [-> | ->].
  - change (String dquote (String d v +:+
              String dquote (b +:+ String ">" rest)))
      with (String dquote "" +:+
              String d (v +:+ String dquote (b +:+ String ">" rest))).
    rewrite afterLit_app. destruct (Ascii.eqb_spec d dquote); [contradiction|].
    erewrite starNot_pick; [reflexivity | exact Hqv | | intros ? [? _]; contradiction].
    change (String dquote (b +:+ String ">" rest))
      with (String dquote "" +:+ b +:+ String ">" rest) at 1.
    rewrite afterLit_app.
    erewrite starNot_pick; [reflexivity | exact Hb | | intros ? [? _]; contradiction].
    change (String ">" rest) with (">" +:+ rest) at 1. rewrite afterLit_app.
    rewrite Hall.
    change (String d (v +:+ String dquote (b +:+ String ">" rest)))
      with (String d v +:+ String dquote (b +:+ String ">" rest)).
    now rewrite consumed_app.
  - rewrite (afterLit_None (String dquote "") (String squote _))
      by reflexivity.
    change (String squote (String d v +:+
              String squote (b +:+ String ">" rest)))
      with ("'" +:+ String d (v +:+ String squote (b +:+ String ">" rest))).
    rewrite afterLit_app. destruct (Ascii.eqb_spec d squote); [contradiction|].
    erewrite starNot_pick; [reflexivity | exact Hqv | | intros ? [? _]; contradiction].
    change (String squote (b +:+ String ">" rest))
      with ("'" +:+ b +:+ String ">" rest) at 1.
    rewrite afterLit_app.
    erewrite starNot_pick; [reflexivity | exact Hb | | intros ? [? _]; contradiction].
    change (String ">" rest) with (">" +:+ rest) at 1. rewrite afterLit_app.
    rewrite Hall.
    change (String d (v +:+ String squote (b +:+ String ">" rest)))
      with (String d v +:+ String squote (b +:+ String ">" rest)).
    now rewrite consumed_app.
Qed.

Lemma exec_img_needs (s : string) :
  Js.startsWith s "<img " = false -> exec imgRegex s = None.
Proof.
  intros H. unfold exec, imgRegex. cbn [run]. now rewrite afterLit_None.
Qed.

(** Text without [<img ] yields no match. *)
Lemma scan_text (t s : string) :
  absent "<img " t -> guard "<img " s ->
  matchAllFrom imgRegex 0 (t +:+ s) = matchAllFrom imgRegex 0 s.
Proof.
  intros Ht Hs. induction t as [|c t IH]; [reflexivity|].
  cbn [String.append]. rewrite matchAll_miss.
  - apply IH. now apply absent_tail in Ht.
  - apply exec_img_needs.
    apply (absent_clear _ _ _ Ht Hs 0). simpl. lia.
Qed.

Lemma imgTag_head (a : string) (q : ascii) (v b : string) :
  exists t, imgTag a q v b = String "<" t.
Proof. unfold imgTag. cbn [String.append]. eauto. Qed.

Lemma renderImgs_guard (p : string) (imgs : list img) :
  lacks "<" (Js.drop 1 p) -> guard p (renderImgs imgs).
Proof.
  intros Hp. destruct imgs as [|i imgs]; [apply guard_empty|].
  cbn [renderImgs]. unfold renderImg.
  destruct (imgTag_head (i_before i) (i_quote i) (i_src i) (i_after i))
    as [t ->].
  cbn [String.append]. now apply guard_char.
Qed.

Lemma scan_tag (i : img) (rest : string) :
  tagged i ->
  matchAllFrom imgRegex 0 (renderImg i +:+ rest)
  = matchOf i :: matchAllFrom imgRegex 0 (i_text i +:+ rest).
Proof.
  intros [Ha _ Hq Hv Hqv Hsv Hb Hsb _ _]. unfold renderImg.
  rewrite str_app_assoc.
  pose proof (exec_img_tag (i_before i) (i_quote i) (i_src i) (i_after i)
                (i_text i +:+ rest) Ha Hq Hv Hqv Hb Hsv Hsb) as E.
  destruct (imgTag_head (i_before i) (i_quote i) (i_src i) (i_after i))
    as [t Ht].
  rewrite Ht in *. apply matchAll_hit; [exact E|].
  unfold matchOf, imgMatch. cbn [m_0]. exact Ht.
Qed.

Lemma getImgSrcs_renderImgs (imgs : list img) :
  Forall tagged imgs ->
  matchAllFrom imgRegex 0 (renderImgs imgs) = map matchOf imgs.
Proof.
  induction 1 as [|i imgs Hi _ IH]; [reflexivity|].
  cbn [renderImgs map]. rewrite scan_tag by exact Hi.
  rewrite scan_text; [now rewrite IH | apply (text_no_img i Hi) |].
  apply renderImgs_guard. repeat split; discriminate.
Qed.

(** The matches of a document are its tags, in order. *)
Lemma getImgSrcs_render (lead : string) (imgs : list img) :
  absent "<img " lead -> Forall tagged imgs ->
  getImgSrcs (render lead imgs) = map matchOf imgs.
Proof.
  intros Hlead Himgs. unfold getImgSrcs, matchAll, render.
  rewrite scan_text; [now apply getImgSrcs_renderImgs | exact Hlead |].
  apply renderImgs_guard. repeat split; discriminate.
Qed.

Lemma split_unique (c : ascii) (x x' y y' : string) :
  lacks c x -> lacks c x' ->
  x +:+ String c y = x' +:+ String c y' -> x = x'.
Proof.
  revert x'. induction x as [|d x IH]; intros [|d' x'] Hx Hx' E;
    cbn [String.append] in E.
  - reflexivity.
  - injection E as <- _. destruct Hx' as [Hd _]. contradiction.
  - injection E as -> _. destruct Hx as [Hd _]. contradiction.
  - injection E as -> E. destruct Hx as [_ Hx]. destruct Hx' as [_ Hx'].
    now rewrite (IH x' Hx Hx' E).
Qed.

(** Another source, or another quote, is another attribute text. *)
Lemma attr_mismatch (q1 q2 : ascii) (v1 v2 rest : string) :
  lacks q1 v1 -> lacks q2 v2 -> (q1, v1) <> (q2, v2) ->
  Js.startsWith (srcAttr (String q1 "") v1 +:+ rest)
    (srcAttr (String q2 "") v2) = false.
Proof.
  intros H1 H2 Hne.
  destruct (Js.startsWith _ _) eqn:E; [|reflexivity]. exfalso.
  apply startsWith_inv in E as [r E]. unfold srcAttr in E.
  revert E. str_norm. intros [= <- E]. apply Hne. f_equal.
  eapply split_unique; eassumption.
Qed.

Lemma clear_prefix (p0 p x s : string) :
  Js.startsWith p p0 = true -> clear p0 x s -> clear p x s.
Proof.
  intros [r ->]%startsWith_inv H j Hj. specialize (H j Hj).
  destruct (Js.startsWith _ (p0 +:+ r)) eqn:E; [|reflexivity].
  apply startsWith_trans in E. congruence.
Qed.

Lemma clear_cons (p : string) (c : ascii) (x s : string) :
  Js.startsWith (String c (x +:+ s)) p = false -> clear p x s ->
  clear p (String c x) s.
Proof.
  intros H0 H [|j] Hj; [exact H0|]. apply (H j). simpl in Hj. lia.
Qed.

Lemma clear_app (p x1 x2 s : string) :
  clear p x1 (x2 +:+ s) -> clear p x2 s -> clear p (x1 +:+ x2) s.
Proof.
  intros H1 H2 j Hj. rewrite str_app_assoc.
  destruct (le_lt_dec (String.length x1) j) as [Hge|Hlt].
  - replace j with (String.length x1 + (j - String.length x1)) by lia.
    rewrite str_drop_add, str_drop_app. apply H2.
    rewrite str_length_app in Hj. lia.
  - now apply H1.
Qed.

Lemma renderImg_split (i : img) :
  renderImg i
  = ("<img " +:+ i_before i) +:+
    srcAttr (String (i_quote i) "") (i_src i) +:+
    (i_after i +:+ String ">" (i_text i)).
Proof. unfold renderImg, imgTag, srcAttr. now str_norm. Qed.

Lemma before_clear (i : img) (s : string) :
  tagged i -> clear "src=" ("<img " +:+ i_before i) (String "s" s).
Proof.
  intros Hi. apply absent_clear.
  - change ("<img " +:+ i_before i) with ("<img" +:+ String " " (i_before i)).
    apply absent_join; [repeat split; discriminate | discriminate
                       | reflexivity | apply (before_plain i Hi)].
  - apply guard_char. repeat split; discriminate.
Qed.

Lemma after_clear (i : img) (imgs : list img) :
  tagged i ->
  clear "src="
    ("rc=" +:+ String (i_quote i)
       (i_src i +:+ String (i_quote i) (i_after i +:+ String ">" (i_text i))))
    (renderImgs imgs).
Proof.
  intros Hi. destruct (quote_not_in_src _ (quote_kind i Hi)) as [Hq _].
  apply absent_clear.
  - apply absent_join; [exact Hq | discriminate | reflexivity |].
    apply absent_join; [exact Hq | discriminate | apply (src_plain i Hi) |].
    apply absent_join; [repeat split; discriminate | discriminate
                       | apply (after_plain i Hi) | apply (text_plain i Hi)].
  - apply renderImgs_guard. repeat split; discriminate.
Qed.

(** A tag with another attribute text is passed over. *)
Lemma renderImg_clear (d : img) (q : ascii) (v : string) (imgs : list img) :
  tagged d -> lacks q v -> (i_quote d, i_src d) <> (q, v) ->
  clear (srcAttr (String q "") v) (renderImg d) (renderImgs imgs).
Proof.
  intros Hd Hqv Hne. rewrite renderImg_split. apply clear_app.
  - apply (clear_prefix "src="); [reflexivity|].
    unfold srcAttr. str_norm. now apply before_clear.
  - unfold srcAttr at 2. str_norm. apply clear_cons.
    + pose proof (attr_mismatch (i_quote d) q (i_src d) v
                    ((i_after d +:+ String ">" (i_text d)) +:+ renderImgs imgs)
                    (src_unquoted d Hd) Hqv Hne) as E.
      unfold srcAttr at 1 in E. revert E. now str_norm.
    + apply (clear_prefix "src="); [reflexivity|].
      pose proof (after_clear d imgs Hd) as E. revert E. now str_norm.
Qed.

Lemma replace_renderImgs (done : list img) (i : img) (todo : list img)
    (v' : string) :
  Forall tagged done -> tagged i ->
  Forall (fun d => (i_quote d, i_src d) <> (i_quote i, i_src i)) done ->
  lacks "$" (srcAttr (String (i_quote i) "") v') ->
  Js.replace (renderImgs (done ++ i :: todo))
    (srcAttr (String (i_quote i) "") (i_src i))
    (srcAttr (String (i_quote i) "") v')
  = renderImgs (done ++ withSource v' i :: todo).
Proof.
  intros Hdone Hi Hne Ht. induction Hdone as [|d done Hd _ IH].
  - cbn [app renderImgs].
    replace (renderImg i +:+ renderImgs todo)
      with (("<img " +:+ i_before i) +:+
            srcAttr (String (i_quote i) "") (i_src i) +:+
            ((i_after i +:+ String ">" (i_text i)) +:+ renderImgs todo))
      by (rewrite renderImg_split; now rewrite !str_app_assoc).
    rewrite (replace_clear _ ("<img " +:+ i_before i)); [| |exact Ht].
    2: { apply (clear_prefix "src="); [reflexivity|].
         unfold srcAttr. str_norm. now apply before_clear. }
    rewrite replace_here by exact Ht.
    rewrite (renderImg_split (withSource v' i)). cbn [withSource i_before
      i_quote i_src i_after i_text]. now rewrite !str_app_assoc.
  - cbn [app renderImgs]. apply Forall_cons in Hne as [Hd' Hne].
    rewrite replace_clear; [now rewrite IH | | exact Ht].
    apply renderImg_clear; [exact Hd | apply (src_unquoted i Hi) | exact Hd'].
Qed.

Lemma replace_render (lead : string) (done : list img) (i : img)
    (todo : list img) (v' : string) :
  absent "src=" lead -> Forall tagged done -> tagged i ->
  Forall (fun d => (i_quote d, i_src d) <> (i_quote i, i_src i)) done ->
  lacks "$" (srcAttr (String (i_quote i) "") v') ->
  Js.replace (render lead (done ++ i :: todo))
    (srcAttr (String (i_quote i) "") (i_src i))
    (srcAttr (String (i_quote i) "") v')
  = render lead (done ++ withSource v' i :: todo).
Proof.
  intros Hlead Hdone Hi Hne Ht. unfold render.
  rewrite replace_clear; [now rewrite replace_renderImgs | | exact Ht].
  apply (clear_prefix "src="); [reflexivity|]. apply absent_clear; [exact Hlead|].
  apply renderImgs_guard. repeat split; discriminate.
Qed.

Variables (owner repo branch lead : string).

Hypothesis repo_ok : plainRepo owner repo branch.

Hypothesis lead_plain : absent "src=" lead.

Lemma publicRawUrl_prefix (v : string) :
  publicRawUrl owner repo branch v = rawPrefix owner repo branch +:+ v.
Proof. unfold publicRawUrl, rawPrefix, rawHost. now rewrite !str_app_assoc. Qed.

Lemma raw_not_relative (v : string) :
  isRelative (publicRawUrl owner repo branch v) = false.
Proof. reflexivity. Qed.

Lemma quote_not_dollar (q : ascii) :
  q = dquote \/ q = squote -> lacks "$" (String q "").
Proof. intros [-> | ->]; repeat split; discriminate. Qed.

Lemma srcAttr_plain (q : ascii) (v : string) :
  q = dquote \/ q = squote -> lacks "$" v ->
  lacks "$" (srcAttr (String q "") v).
Proof.
  intros Hq Hv. unfold srcAttr. rewrite !lacks_app.
  pose proof (quote_not_dollar q Hq) as H.
  split; [repeat split; discriminate | auto].
Qed.

Lemma raw_lacks_dollar (v : string) :
  lacks "$" v -> lacks "$" (publicRawUrl owner repo branch v).
Proof.
  intros Hv. rewrite publicRawUrl_prefix. apply lacks_app.
  split; [apply (repo_no_dollar _ _ _ repo_ok) | exact Hv].
Qed.

Lemma raw_tagged (i : img) : relativeImg i -> tagged (toRaw owner repo branch i).
Proof.
  intros [[Ha Hsa Hq Hv Hqv Hsv Hb Hsb Ht Hti] _ _ _].
  split; cbn [toRaw withSource i_before i_quote i_src i_after i_text];
    try assumption.
  - discriminate.
  - rewrite publicRawUrl_prefix. apply lacks_app. split; [|exact Hqv].
    destruct Hq as [-> | ->];
      [apply (repo_no_dquote _ _ _ repo_ok)
      | apply (repo_no_squote _ _ _ repo_ok)].
  - pose proof (repo_plain _ _ _ repo_ok) as Hr. unfold rawPrefix in Hr.
    rewrite <- !str_app_assoc in Hr. apply absent_app_l in Hr.
    set (R0 := ((((rawHost +:+ owner) +:+ "/") +:+ repo) +:+ "/") +:+ branch)
      in Hr.
    replace (publicRawUrl owner repo branch (i_src i))
      with (R0 +:+ String "/" (i_src i))
      by (unfold R0, publicRawUrl, rawHost; now rewrite !str_app_assoc).
    apply absent_join; [repeat split; discriminate | discriminate | | exact Hsv].
    exact Hr.
Qed.

Lemma differs_by_kind (d i : img) :
  isRelative (i_src d) = negb (isRelative (i_src i)) ->
  (i_quote d, i_src d) <> (i_quote i, i_src i).
Proof. intros H [= _ E]. rewrite E in H. now destruct (isRelative (i_src i)). Qed.

(** [relativeToRawUrls] in public mode, tag by tag: the tags in [done] carry
    their raw URL already. *)
Lemma relativeToRaw_doc (todo : list img) :
  forall done,
    Forall tagged done ->
    Forall (fun d => isRelative (i_src d) = false) done ->
    Forall relativeImg todo ->
    forEachMatch
      (fun quote src newHtml =>
         if isRelative src then
           substituteRawUrl quote src
             (VStr (publicRawUrl owner repo branch src)) newHtml
         else newHtml)
      (map matchOf todo) (render lead (done ++ todo))
    = Ok (render lead (done ++ map (toRaw owner repo branch) todo)).
Proof.
  induction todo as [|i todo IH]; intros done Hdone Hraw Htodo;
    [reflexivity|].
  apply Forall_cons in Htodo as [Hi Htodo].
  pose proof Hi as [Hti Hrel Hquery Hdollar].
  cbn [map forEachMatch]. unfold withSrc, matchOf.
  destruct (srcOf_imgMatch (i_before i) (i_quote i) (i_src i) (i_after i)
              (quote_kind i Hti) (src_some i Hti)) as [-> ->].
  cbn [bind]. rewrite Hrel. unfold substituteRawUrl.
  change (truthy (VStr (publicRawUrl owner repo branch (i_src i)))) with true.
  cbn [toString].
  rewrite replace_render; try assumption.
  - change (withSource (publicRawUrl owner repo branch (i_src i)) i)
      with (toRaw owner repo branch i).
    rewrite (cons_middle (toRaw owner repo branch i)), app_assoc.
    rewrite IH; [now rewrite <- app_assoc | | | exact Htodo].
    + apply Forall_app. split; [exact Hdone|].
      apply Forall_cons. split; [now apply raw_tagged | constructor].
    + apply Forall_app. split; [exact Hraw|].
      apply Forall_cons. split; [apply raw_not_relative | constructor].
  - eapply Forall_impl; [exact Hraw|]. intros d Hd. apply differs_by_kind.
    now rewrite Hd, Hrel.
  - apply srcAttr_plain; [apply (quote_kind i Hti)|].
    now apply raw_lacks_dollar.
Qed.

Lemma withSource_toRaw (i : img) :
  withSource (i_src i) (toRaw owner repo branch i) = i.
Proof. now destruct i. Qed.

(** [rawToRelativeUrls], tag by tag: the tags in [done] carry their relative
    path again. *)
Lemma rawToRelative_doc (todo : list img) :
  forall done,
    Forall relativeImg done -> Forall relativeImg todo ->
    forEachMatch
      (fun quote src html =>
         if Js.startsWith src "https://raw.githubusercontent.com/" then
           let relativePath :=
             Js.replace src (rawPrefix owner repo branch) "" in
           let relativePath := Js.first (Js.split "?" relativePath) in
           Js.replace html (srcAttr quote src) (srcAttr quote relativePath)
         else html)
      (map matchOf (map (toRaw owner repo branch) todo))
      (render lead (done ++ map (toRaw owner repo branch) todo))
    = Ok (render lead (done ++ todo)).
Proof.
  match goal with
  | |- forall done, _ -> _ -> forEachMatch ?f _ _ = _ => set (body := f)
  end.
  assert (forall i h, relativeImg i ->
            body (String (i_quote i) "")
              (publicRawUrl owner repo branch (i_src i)) h
            = Js.replace h
                (srcAttr (String (i_quote i) "")
                   (publicRawUrl owner repo branch (i_src i)))
                (srcAttr (String (i_quote i) "") (i_src i))) as Hbody.
  { intros i h [_ _ Hquery _]. unfold body.
    change (Js.startsWith (publicRawUrl owner repo branch (i_src i))
              "https://raw.githubusercontent.com/") with true.
    cbv beta iota zeta. rewrite (publicRawUrl_prefix (i_src i)) at 2.
    now rewrite replace_prefix, (split_first_lacks _ _ Hquery). }
  induction todo as [|i todo IH]; intros done Hdone Htodo; [reflexivity|].
  apply Forall_cons in Htodo as [Hi Htodo].
  pose proof Hi as [Hti Hrel Hquery Hdollar].
  pose proof (raw_tagged i Hi) as Hraw.
  cbn [map forEachMatch]. unfold withSrc.
  destruct (srcOf_imgMatch (i_before i) (i_quote i)
              (publicRawUrl owner repo branch (i_src i)) (i_after i)
              (quote_kind i Hti) (src_some _ Hraw)) as [Es Eq].
  change (imgMatch (i_before i) (i_quote i)
            (publicRawUrl owner repo branch (i_src i)) (i_after i))
    with (matchOf (toRaw owner repo branch i)) in Es, Eq.
  rewrite Es, Eq. cbn [bind]. rewrite (Hbody i _ Hi).
  pose proof (replace_render lead done (toRaw owner repo branch i)
                (map (toRaw owner repo branch) todo) (i_src i)) as E.
  cbn [toRaw withSource i_before i_quote i_src i_after i_text] in E.
  rewrite E; clear E.
  - change {| i_before := i_before i; i_quote := i_quote i;
              i_src := i_src i; i_after := i_after i; i_text := i_text i |}
      with (withSource (i_src i) (toRaw owner repo branch i)).
    rewrite withSource_toRaw.
    rewrite (cons_middle i), app_assoc.
    rewrite IH; [now rewrite <- app_assoc | | exact Htodo].
    apply Forall_app. split; [exact Hdone|].
    apply Forall_cons. split; [exact Hi | constructor].
  - exact lead_plain.
  - eapply Forall_impl; [exact Hdone|]. intros d Hd. apply is_tagged, Hd.
  - exact Hraw.
  - eapply Forall_impl; [exact Hdone|]. intros d Hd.
    apply (differs_by_kind d (toRaw owner repo branch i)).
    now rewrite (src_relative d Hd).
  - apply srcAttr_plain; [apply (quote_kind i Hti) | exact Hdollar].
Qed.

End PlainDocuments.

Lemma srcOf_matchOf (imgs : list img) :
  Forall tagged imgs ->
  map srcOf (map matchOf imgs) = map (fun i => VStr (i_src i)) imgs.
Proof.
  induction 1 as [|i imgs Hi _ IH]; [reflexivity|]. cbn [map].
  rewrite IH. f_equal.
  apply (srcOf_imgMatch _ _ _ _ (quote_kind i Hi) (src_some i Hi)).
Qed.





(** * From a relative path to its raw URL and back *)

(** X1.  In public mode [getRawUrl] touches neither the cache, the collaborator
    nor the clock, and [getRelativeUrl] takes the URL it returns back to the
    path, up to the first [?] of the path. *)
Theorem getRelativeUrl_getRawUrl (w : world) (owner repo branch path : string)
    (tick : nat) (st : state) (gh : github) :
  exists url,
    getRawUrl w owner repo branch path false tick st gh
      = (st, gh, tick, Ok (VStr url)) /\
    url = rawPrefix owner repo branch +:+ path /\
    drops_query path (getRelativeUrl owner repo branch url) /\
    (lacks "?" path -> getRelativeUrl owner repo branch url = path).
Proof.
  exists (publicRawUrl owner repo branch path).
  split; [reflexivity|]. split; [apply publicRawUrl_prefix|].
  assert (getRelativeUrl owner repo branch (publicRawUrl owner repo branch path)
          = Js.first (Js.split "?" path)) as ->.
  { unfold getRelativeUrl.
    change (Js.startsWith (publicRawUrl owner repo branch path)
              "https://raw.githubusercontent.com/") with true.
    cbv beta iota zeta. now rewrite publicRawUrl_prefix, replace_prefix. }
  split; [apply split_first | apply split_first_lacks].
Qed.

Lemma getRelativeUrl_getRawUrl_witness :
  exists url,
    getRawUrl docsWorld "o" "r" "main" "docs/a.png" false 0 emptyState []
      = (emptyState, [], 0, Ok (VStr url)) /\
    getRelativeUrl "o" "r" "main" url = "docs/a.png".
Proof.
  destruct (getRelativeUrl_getRawUrl docsWorld "o" "r" "main" "docs/a.png" 0
              emptyState []) as (url & H1 & _ & _ & H4).
  exists url. split; [exact H1|]. apply H4. repeat split; discriminate.
Defined.

(** * [swapPrefix] *)

(** X2.  A path that begins with [from] and qualifies has that prefix replaced by
    the expansion of [to], which [String.prototype.replace] reads as a
    replacement template; when [to] has no [$] the new path is [to] followed
    by the rest. *)
Theorem swapPrefix_template (from rest to : string) :
  hasPrefix (from +:+ rest) from = true ->
  notRemote (from +:+ rest) = true ->
  swapPrefix (from +:+ rest) from to
    = Js.getSubstitution from "" rest to +:+ rest /\
  (lacks "$" to -> swapPrefix (from +:+ rest) from to = to +:+ rest).
Proof.
  intros Hp Hr. unfold swapPrefix. rewrite Hp, Hr. cbn [andb].
  assert (Js.replace (from +:+ rest) from to
          = Js.getSubstitution from "" rest to +:+ rest) as ->.
  { unfold Js.replace.
    rewrite (indexOf_startsWith _ _ (startsWith_app from rest)).
    cbn [Js.take plus String.append]. now rewrite str_drop_app. }
  split; [reflexivity|]. intros Ht. now rewrite getSubstitution_plain.
Qed.

Lemma swapPrefix_template_witness :
  swapPrefix "/media/a.png" "/media/" "$&img/" = "/media/img/a.png" /\
  swapPrefix "/media/a.png" "/media/" "/assets/" = "/assets/a.png".
Proof.
  destruct (swapPrefix_template "/media/" "a.png" "$&img/" eq_refl eq_refl)
    as [H1 _].
  destruct (swapPrefix_template "/media/" "a.png" "/assets/" eq_refl eq_refl)
    as [_ H2].
  split; [exact H1|]. apply H2. repeat split; discriminate.
Defined.

(** X3.  Swapping back restores the path, as long as the swapped path still
    qualifies: it begins with [to] (which it does unless [to] is [/] and the
    rest begins with [/]) and is not remote. *)
Theorem swapPrefix_back (from to rest : string) :
  lacks "$" from -> lacks "$" to ->
  hasPrefix (from +:+ rest) from = true ->
  notRemote (from +:+ rest) = true ->
  hasPrefix (to +:+ rest) to = true ->
  notRemote (to +:+ rest) = true ->
  swapPrefix (swapPrefix (from +:+ rest) from to) to from = from +:+ rest.
Proof.
  intros Hf Ht Hp Hr Hp' Hr'.
  destruct (swapPrefix_template from rest to Hp Hr) as [_ ->]; [|exact Ht].
  destruct (swapPrefix_template to rest from Hp' Hr') as [_ ->]; [|exact Hf].
  reflexivity.
Qed.

Lemma swapPrefix_back_witness :
  swapPrefix (swapPrefix "/media/a.png" "/media/" "assets/") "assets/" "/media/"
  = "/media/a.png".
Proof.
  apply (swapPrefix_back "/media/" "assets/" "a.png");
    try reflexivity; repeat split; discriminate.
Defined.

(** * The directory of a path *)

Lemma split_nonempty (c : ascii) (s : string) : Js.split c s <> [].
Proof.
  induction s as [|d s IH]; simpl; [discriminate|].
  destruct (Ascii.eqb d c); [discriminate|].
  destruct (Js.split c s); [contradiction | discriminate].
Qed.

Lemma split_lacks (c : ascii) (s : string) :
  lacks c s -> Js.split c s = [s].
Proof.
  induction s as [|d s IH]; simpl; [reflexivity|]. intros [Hd Hs].
  destruct (Ascii.eqb_spec d c); [contradiction|]. now rewrite (IH Hs).
Qed.

Lemma split_app (c : ascii) (x y : string) :
  Js.split c (x +:+ String c y) = Js.split c x ++ Js.split c y.
Proof.
  induction x as [|d x IH]; cbn [String.append Js.split].
  - now rewrite Ascii.eqb_refl.
  - rewrite IH. destruct (Ascii.eqb d c); [reflexivity|].
    pose proof (split_nonempty c x) as Hx.
    destruct (Js.split c x); [contradiction | reflexivity].
Qed.

Lemma join_split (c : ascii) (s : string) :
  Js.join (String c "") (Js.split c s) = s.
Proof.
  unfold Js.join. induction s as [|d s IH]; cbn [Js.split]; [reflexivity|].
  pose proof (split_nonempty c s) as Hs.
  destruct (Ascii.eqb_spec d c) as [->|Hne].
  - destruct (Js.split c s) as [|h t]; [contradiction|].
    cbn [String.concat] in *. now rewrite IH.
  - destruct (Js.split c s) as [|h [|h' t]]; [contradiction| |];
      cbn [String.concat String.append] in *; now rewrite IH.
Qed.

(** X4.  The parent directory of [dir/name] is [dir], whatever [dir] is, when
    [name] has no slash; a path without a slash has the empty parent. *)
Theorem parentPathOf_file (dir name : string) :
  lacks "/" name ->
  parentPathOf (dir +:+ "/" +:+ name) = dir /\ parentPathOf name = "".
Proof.
  intros Hname. unfold parentPathOf, Js.slice_0_m1. split.
  - change ("/" +:+ name) with (String "/" name).
    rewrite split_app, (split_lacks _ _ Hname), removelast_last.
    apply join_split.
  - now rewrite (split_lacks _ _ Hname).
Qed.

Lemma parentPathOf_file_witness :
  parentPathOf "docs/img/a.png" = "docs/img" /\ parentPathOf "a.png" = "".
Proof.
  destruct (parentPathOf_file "docs/img" "a.png") as [H1 H2];
    [repeat split; discriminate|].
  split; [exact H1 | exact H2].
Defined.

(** * The matches in the text *)

Lemma tiles_cons (ms : list rmatch) (c : ascii) (s : string) :
  tiles ms s -> tiles ms (String c s).
Proof.
  destruct ms as [|m ms]; [trivial|]. intros (gap & rest & -> & H).
  now exists (String c gap), rest.
Qed.

Lemma tiles_from (s : string) :
  forall skip, tiles (matchAllFrom imgRegex skip s) (Js.drop skip s).
Proof.
  induction s as [|c s IH]; intros skip; cbn [matchAllFrom].
  - destruct skip; [|exact I].
    destruct (exec imgRegex "") as [m|] eqn:E; [|exact I].
    apply exec_img_sound in E as (a & q & v & b & rest & E & _).
    destruct (imgTag_head a q v b) as [t Ht]. rewrite Ht in E. discriminate E.
  - destruct skip as [|n]; [|apply IH]. cbn [Js.drop].
    destruct (exec imgRegex (String c s)) as [m|] eqn:E.
    + apply exec_img_sound in E as (a & q & v & b & rest & E & -> & _).
      destruct (imgTag_head a q v b) as [t Ht].
      exists "", rest. cbn [imgMatch m_0 String.append]. split; [exact E|].
      rewrite Ht in *. cbn [String.append] in E. injection E as _ ->.
      cbn [String.length pred]. specialize (IH (String.length t)).
      now rewrite str_drop_app in IH.
    + apply tiles_cons. apply (IH 0).
Qed.

(** X5.  The matches of [getImgSrcs] are found in the text one behind the other:
    they are in document order and do not overlap. *)
Theorem getImgSrcs_tiles (html : string) : tiles (getImgSrcs html) html.
Proof. apply (tiles_from html 0). Qed.

(** * The matches of a document *)

Section Scanning.

Lemma scan_scannable (i : img) (rest : string) :
  scannable i ->
  matchAllFrom imgRegex 0 (renderImg i +:+ rest)
  = matchOf i :: matchAllFrom imgRegex 0 (i_text i +:+ rest).
Proof.
  intros [Ha Hq Hv Hqv Hsv Hb Hsb _]. unfold renderImg.
  rewrite str_app_assoc.
  pose proof (exec_img_tag (i_before i) (i_quote i) (i_src i) (i_after i)
                (i_text i +:+ rest) Ha Hq Hv Hqv Hb Hsv Hsb) as E.
  destruct (imgTag_head (i_before i) (i_quote i) (i_src i) (i_after i))
    as [t Ht].
  rewrite Ht in *. apply matchAll_hit; [exact E|].
  unfold matchOf, imgMatch. cbn [m_0]. exact Ht.
Qed.

Lemma scan_scannables (imgs : list img) :
  Forall scannable imgs ->
  matchAllFrom imgRegex 0 (renderImgs imgs) = map matchOf imgs.
Proof.
  induction 1 as [|i imgs Hi _ IH]; [reflexivity|].
  cbn [renderImgs map]. rewrite scan_scannable by exact Hi.
  rewrite scan_text; [now rewrite IH | apply (s_text_no_img i Hi) |].
  apply renderImgs_guard. repeat split; discriminate.
Qed.

End Scanning.

(** X6.  In a text made of leading text without [<img ] and of image tags, each
    followed by text without [<img ], [getImgSrcs] yields one match per tag,
    in order.  The source of a match is the last [src=] value of its tag:
    the attributes in front of it may themselves hold [src=] texts. *)
Theorem getImgSrcs_document (lead : string) (imgs : list img) :
  absent "<img " lead -> Forall scannable imgs ->
  getImgSrcs (render lead imgs) = map matchOf imgs /\
  map srcOf (getImgSrcs (render lead imgs))
    = map (fun i => VStr (i_src i)) imgs.
Proof.
  intros Hlead Himgs.
  assert (getImgSrcs (render lead imgs) = map matchOf imgs) as E.
  { unfold getImgSrcs, matchAll, render.
    rewrite scan_text; [now apply scan_scannables | exact Hlead |].
    apply renderImgs_guard. repeat split; discriminate. }
  split; [exact E|]. rewrite E. clear E.
  induction Himgs as [|i imgs Hi _ IH]; [reflexivity|]. cbn [map].
  rewrite IH. f_equal.
  apply (srcOf_imgMatch _ _ _ _ (s_quote_kind i Hi) (s_src_some i Hi)).
Qed.

Lemma getImgSrcs_document_witness :
  render "<p>" lazyImage = "<p><img src='old.png' data-src='new.png'>" /\
  map srcOf (getImgSrcs (render "<p>" lazyImage)) = [VStr "new.png"].
Proof.
  split; [reflexivity|].
  apply (getImgSrcs_document "<p>" lazyImage); [reflexivity|].
  apply Forall_cons. split; [|constructor].
  split; first [reflexivity | discriminate | right; reflexivity
               | repeat split; discriminate].
Defined.

(** * When there is a match *)

Section Finding.

Lemma exec_img_empty : exec imgRegex "" = None.
Proof. reflexivity. Qed.

Lemma matchAllFrom_finds (s : string) :
  forall skip j,
    skip <= j -> is_Some (exec imgRegex (Js.drop j s)) ->
    matchAllFrom imgRegex skip s <> [].
Proof.
  induction s as [|c s IH]; intros skip j Hj Hex.
  - destruct j; cbn [Js.drop] in Hex; rewrite exec_img_empty in Hex;
      now destruct Hex.
  - cbn [matchAllFrom]. destruct skip as [|n].
    + destruct (exec imgRegex (String c s)) as [m|] eqn:E; [discriminate|].
      destruct j as [|j]; [cbn [Js.drop] in Hex; rewrite E in Hex;
                           now destruct Hex|].
      apply (IH 0 j); [lia | exact Hex].
    + destruct j as [|j]; [lia|]. apply (IH n j); [lia | exact Hex].
Qed.

End Finding.

(** X7.  [getImgSrcs] finds a match exactly when the text holds, somewhere,
    [<img ], attributes without [>], [src=], a quote, a non-empty value
    without that quote, the same quote, attributes without [>], and [>]. *)
Theorem getImgSrcs_finds (html : string) :
  getImgSrcs html <> [] <->
  exists x a q v b y,
    html = x +:+ imgTag a q v b +:+ y /\
    lacks ">" a /\ (q = dquote \/ q = squote) /\ v <> "" /\ lacks q v /\
    lacks ">" b.
Proof.
  split.
  - destruct (getImgSrcs html) as [|m ms] eqn:E; [contradiction|]. intros _.
    assert (m ∈ getImgSrcs html) as Hm by (rewrite E; now left).
    apply getImgSrcs_in in Hm as (j & a & q & v & b & rest & Hj & _ & H).
    exists (Js.take j html), a, q, v, b, rest.
    split; [|exact H]. rewrite <- Hj. symmetry. apply str_take_drop.
  - intros (x & a & q & v & b & y & -> & Ha & Hq & Hv & Hqv & Hb).
    apply (matchAllFrom_finds _ 0 (String.length x)); [lia|].
    rewrite str_drop_app. now apply exec_img_complete.
Qed.

Lemma getImgSrcs_finds_witness :
  getImgSrcs "<p><img alt='x' src='a.png' width='1'></p>" <> [].
Proof.
  apply getImgSrcs_finds.
  exists "<p>", "alt='x' ", squote, "a.png", " width='1'", "</p>".
  split; [reflexivity|]. split; [repeat split; discriminate|].
  split; [now right|]. split; [discriminate|].
  split; repeat split; discriminate.
Defined.

(** * Texts in which no source qualifies *)

Lemma forEachMatch_skip (body : string -> string -> string -> string)
    (ms : list rmatch) (h : string) :
  (forall m, m ∈ ms -> exists v, srcOf m = VStr v) ->
  (forall m v quote, m ∈ ms -> srcOf m = VStr v -> body quote v h = h) ->
  forEachMatch body ms h = Ok h.
Proof.
  induction ms as [|m ms IH]; intros Hsrc Hbody; cbn [forEachMatch];
    [reflexivity|].
  destruct (Hsrc m (list_elem_of_here _ _)) as [v Hv].
  unfold withSrc. rewrite Hv. cbn [bind].
  rewrite (Hbody m v _ (list_elem_of_here _ _) Hv). apply IH.
  - intros m' Hm'. apply Hsrc. now right.
  - intros m' v' quote Hm'. apply Hbody. now right.
Qed.

Lemma relativeToRawUrls_loop_skip (w : world) (owner repo branch : string)
    (isPrivate : bool) (ms : list rmatch) (h : string) (tick : nat)
    (st : state) (gh : github) :
  (forall m, m ∈ ms -> exists v, srcOf m = VStr v) ->
  (forall m v, m ∈ ms -> srcOf m = VStr v -> isRelative v = false) ->
  relativeToRawUrls_loop w owner repo branch isPrivate ms h tick st gh
  = (st, gh, tick, Ok h).
Proof.
  induction ms as [|m ms IH]; intros Hsrc Hrel;
    cbn [relativeToRawUrls_loop]; [reflexivity|].
  destruct (Hsrc m (list_elem_of_here _ _)) as [v Hv]. rewrite Hv.
  rewrite (Hrel m v (list_elem_of_here _ _) Hv). apply IH.
  - intros m' Hm'. apply Hsrc. now right.
  - intros m' v' Hm'. apply Hrel. now right.
Qed.

(** X8.  An operation returns the text as it is when no source of it qualifies.
    When no source is a repository-relative path, [addPrefix] does so, and
    so does [relativeToRawUrls] in either mode, without reading the clock,
    the cache or invoking the collaborator. *)
Theorem nothing_to_rewrite (html : string) :
  ((forall m v, m ∈ getImgSrcs html -> srcOf m = VStr v ->
                isRelative v = false) ->
   (forall prefix, addPrefix html prefix = Ok html) /\
   (forall w owner repo branch isPrivate tick st gh,
      relativeToRawUrls w owner repo branch html isPrivate tick st gh
      = (st, gh, tick, Ok html))) /\
  (forall prefix,
     (forall m v, m ∈ getImgSrcs html -> srcOf m = VStr v ->
                  hasPrefix v prefix = false) ->
     removePrefix html prefix = Ok html) /\
  (forall from to,
     (forall m v, m ∈ getImgSrcs html -> srcOf m = VStr v ->
                  hasPrefix v from && notRemote v = false) ->
     htmlSwapPrefix html from to = Ok html) /\
  (forall owner repo branch,
     (forall m v, m ∈ getImgSrcs html -> srcOf m = VStr v ->
                  isRaw v = false) ->
     rawToRelativeUrls owner repo branch html = Ok html).
Proof.
  pose proof (getImgSrcs_srcOf html) as Hsrc.
  split; [|split; [|split]].
  - intros H. split.
    + intros prefix. apply forEachMatch_skip; [exact Hsrc|].
      intros m v quote Hm Hv. now rewrite (H m v Hm Hv).
    + intros w owner repo branch isPrivate tick st gh.
      now apply relativeToRawUrls_loop_skip.
  - intros prefix H. apply forEachMatch_skip; [exact Hsrc|].
    intros m v quote Hm Hv. now rewrite (H m v Hm Hv).
  - intros from to H. apply forEachMatch_skip; [exact Hsrc|].
    intros m v quote Hm Hv. now rewrite (H m v Hm Hv).
  - intros owner repo branch H. apply forEachMatch_skip; [exact Hsrc|].
    intros m v quote Hm Hv. specialize (H m v Hm Hv). unfold isRaw in H.
    unfold rawHost in H. now rewrite H.
Qed.

Lemma nothing_to_rewrite_witness :
  let html := "<p><img src='/logo.png'><img src='https://x.org/a.png'></p>" in
  addPrefix html "media/" = Ok html /\
  relativeToRawUrls docsWorld "o" "r" "main" html true 0 emptyState []
    = (emptyState, [], 0, Ok html) /\
  removePrefix html "media/" = Ok html /\
  htmlSwapPrefix html "media/" "img/" = Ok html /\
  rawToRelativeUrls "o" "r" "main" html = Ok html.
Proof.
  intros html.
  assert (forall (P : string -> bool),
            P "/logo.png" = false -> P "https://x.org/a.png" = false ->
            forall m v, m ∈ getImgSrcs html -> srcOf m = VStr v ->
                        P v = false) as Hall.
  { intros P H1 H2 m v Hm Hv.
    assert (getImgSrcs html
            = [imgMatch "" squote "/logo.png" "";
               imgMatch "" squote "https://x.org/a.png" ""]) as E
      by reflexivity.
    rewrite E in Hm.
    apply elem_of_cons in Hm as [->|Hm];
      [|apply list_elem_of_singleton in Hm as ->];
      injection Hv as <-; assumption. }
  destruct (nothing_to_rewrite html) as (H1 & H2 & H3 & H4).
  destruct H1 as [Ha Hr]; [apply Hall; reflexivity|].
  split; [apply Ha|]. split; [apply Hr|].
  split; [apply H2, (Hall (fun v => hasPrefix v "media/")); reflexivity|].
  split.
  - apply H3, (Hall (fun v => hasPrefix v "media/" && notRemote v));
      reflexivity.
  - apply H4, (Hall isRaw); reflexivity.
Defined.

(** * Rewriting a document tag by tag *)

Section Rewriting.

Variables (cond : string -> bool) (f : string -> string).
Variable body : string -> string -> string -> string.
Variable lead : string.

Hypothesis body_rewrites :
  forall quote src h, cond src = true ->
    body quote src h = Js.replace h (srcAttr quote src) (srcAttr quote (f src)).

Hypothesis body_skips :
  forall quote src h, cond src = false -> body quote src h = h.

Hypothesis lead_no_src : absent "src=" lead.

Lemma plainSource_tagged (i : img) (v : string) :
  tagged i -> plainSource (i_quote i) v -> tagged (withSource v i).
Proof.
  intros [Ha Hsa Hq Hv Hqv Hsv Hb Hsb Ht Hti] (H1 & H2 & H3 & _).
  split; cbn [withSource i_before i_quote i_src i_after i_text]; assumption.
Qed.

Lemma rewriteSrc_tagged (i : img) :
  tagged i ->
  (cond (i_src i) = true -> plainSource (i_quote i) (f (i_src i))) ->
  tagged (rewriteSrc cond f i).
Proof.
  intros Hi Hnew. unfold rewriteSrc.
  destruct (cond (i_src i)); [|exact Hi].
  now apply plainSource_tagged, Hnew.
Qed.

(** The tags in [done] have been gone through already. *)
Lemma forEachMatch_doc (todo : list img) :
  forall done,
    Forall tagged (map (rewriteSrc cond f) done) ->
    Forall tagged todo ->
    Forall (fun i => cond (i_src i) = true ->
                     plainSource (i_quote i) (f (i_src i))) todo ->
    apartFrom cond f done todo ->
    forEachMatch body (map matchOf todo)
      (render lead (map (rewriteSrc cond f) done ++ todo))
    = Ok (render lead (map (rewriteSrc cond f) (done ++ todo))).
Proof.
  induction todo as [|i todo IH]; intros done Hdone Htodo Hnew Hap.
  { cbn [map forEachMatch]. now rewrite !app_nil_r. }
  apply Forall_cons in Htodo as [Hi Htodo].
  apply Forall_cons in Hnew as [Hnewi Hnew].
  destruct Hap as [Hapi Hap].
  assert (Forall tagged (map (rewriteSrc cond f) (done ++ [i]))) as Hdone'.
  { rewrite map_app. apply Forall_app. split; [exact Hdone|].
    apply Forall_cons. split; [now apply rewriteSrc_tagged | constructor]. }
  cbn [map forEachMatch]. unfold withSrc, matchOf.
  destruct (srcOf_imgMatch (i_before i) (i_quote i) (i_src i) (i_after i)
              (quote_kind i Hi) (src_some i Hi)) as [-> ->].
  cbn [bind].
  replace (done ++ i :: todo) with ((done ++ [i]) ++ todo)
    by now rewrite <- app_assoc.
  rewrite <- (IH (done ++ [i]) Hdone' Htodo Hnew Hap). f_equal.
  rewrite map_app. cbn [map]. rewrite <- app_assoc. cbn [app].
  unfold rewriteSrc at 3. destruct (cond (i_src i)) eqn:Hc.
  - rewrite body_rewrites by exact Hc.
    destruct (Hnewi eq_refl) as (_ & _ & _ & Hdollar).
    apply replace_render; try assumption.
    + apply Forall_map. specialize (Hapi eq_refl).
      eapply Forall_impl; [exact Hapi|]. intros d Hd. unfold rewriteSrc.
      destruct (cond (i_src d)) eqn:Hcd.
      * exact (Hd Hcd).
      * intros [= _ E]. congruence.
    + apply srcAttr_plain; [apply (quote_kind i Hi) | exact Hdollar].
  - now rewrite body_skips.
Qed.

Lemma forEachMatch_document (imgs : list img) :
  absent "<img " lead -> rewritable cond f imgs ->
  forEachMatch body (getImgSrcs (render lead imgs)) (render lead imgs)
  = Ok (render lead (map (rewriteSrc cond f) imgs)).
Proof.
  intros Hlead [Htagged Hnew Hap].
  rewrite getImgSrcs_render by assumption.
  apply (forEachMatch_doc imgs []); try assumption. constructor.
Qed.

End Rewriting.

Lemma replace_own_prefix (src p : string) :
  Js.startsWith src p = true ->
  Js.replace src p "" = Js.drop (String.length p) src.
Proof.
  intros [r ->]%startsWith_inv. now rewrite replace_prefix, str_drop_app.
Qed.

Lemma hasPrefix_startsWith (src p : string) :
  hasPrefix src p = true -> Js.startsWith src p = true.
Proof. unfold hasPrefix. now intros [H _]%andb_prop. Qed.

(** X9.  On a document of plain tags [addPrefix] puts the prefix in front of
    every repository-relative source and leaves the other sources, and all
    the text around the sources, as they are; provided that no relative
    source reads like an earlier source with the prefix in front. *)
Theorem addPrefix_document (lead prefix : string) (imgs : list img) :
  absent "src=" lead -> absent "<img " lead ->
  rewritable isRelative (String.append prefix) imgs ->
  addPrefix (render lead imgs) prefix
  = Ok (render lead (map (rewriteSrc isRelative (String.append prefix)) imgs)).
Proof.
  intros Hsrc Himg Hok. unfold addPrefix.
  apply (forEachMatch_document isRelative (String.append prefix));
    try assumption.
  - now intros quote src h ->.
  - now intros quote src h ->.
Qed.

(** X10.  On a document of plain tags [removePrefix] drops the prefix from every
    source that begins with it (a source beginning with [//] is kept when
    the prefix is [/]), remote sources included. *)
Theorem removePrefix_document (lead prefix : string) (imgs : list img) :
  absent "src=" lead -> absent "<img " lead ->
  rewritable (fun src => hasPrefix src prefix)
    (Js.drop (String.length prefix)) imgs ->
  removePrefix (render lead imgs) prefix
  = Ok (render lead
          (map (rewriteSrc (fun src => hasPrefix src prefix)
                  (Js.drop (String.length prefix))) imgs)).
Proof.
  intros Hsrc Himg Hok. unfold removePrefix.
  apply (forEachMatch_document (fun src => hasPrefix src prefix)
           (Js.drop (String.length prefix))); try assumption.
  - intros quote src h Hc. rewrite Hc. cbv zeta.
    now rewrite (replace_own_prefix _ _ (hasPrefix_startsWith _ _ Hc)).
  - now intros quote src h ->.
Qed.

Lemma withSource_same (i : img) : withSource (i_src i) i = i.
Proof. now destruct i. Qed.




(** Proof steps for the tags of a concrete document. *)
Ltac concrete_tag :=
  split;
  first [reflexivity | discriminate | left; reflexivity | right; reflexivity
        | repeat split; discriminate].

Ltac concrete_tags :=
  repeat (apply Forall_cons; split); [..|constructor]; concrete_tag.

Ltac concrete_doc :=
  split;
  [ concrete_tags
  | repeat (apply Forall_cons; split); [..|constructor];
    let Hc := fresh in
    intros Hc; vm_compute in Hc; try discriminate Hc;
    (split; [discriminate|]); (split; [repeat split; discriminate|]);
    (split; [reflexivity | repeat split; discriminate])
  | cbn [apartFrom app]; repeat split;
    let Hc := fresh in
    intros Hc; vm_compute in Hc; try discriminate Hc;
    repeat (apply Forall_cons; split); try constructor;
    let Hd := fresh in let E := fresh in
    intros Hd E; vm_compute in Hd, E; first [discriminate Hd | discriminate E] ].

Lemma addPrefix_document_witness :
  addPrefix (render "<p>" mixedImages) "img/"
    = Ok (render "<p>"
            (map (rewriteSrc isRelative (String.append "img/")) mixedImages)) /\
  map i_src (map (rewriteSrc isRelative (String.append "img/")) mixedImages)
    = ["img/media/a.png"; "/logo.png";
       "https://raw.githubusercontent.com/o/r/dev/b.png?token=1"].
Proof.
  split; [|reflexivity].
  apply (addPrefix_document "<p>" "img/" mixedImages);
    [reflexivity | reflexivity | concrete_doc].
Defined.

Lemma removePrefix_document_witness :
  removePrefix (render "<p>" mixedImages) "media/"
    = Ok (render "<p>"
            (map (rewriteSrc (fun src => hasPrefix src "media/") (Js.drop 6))
                 mixedImages)) /\
  map i_src (map (rewriteSrc (fun src => hasPrefix src "media/") (Js.drop 6))
               mixedImages)
    = ["a.png"; "/logo.png";
       "https://raw.githubusercontent.com/o/r/dev/b.png?token=1"].
Proof.
  split; [|reflexivity].
  apply (removePrefix_document "<p>" "media/" mixedImages);
    [reflexivity | reflexivity | concrete_doc].
Defined.




(** * Adding a prefix and removing it again *)

Section PrefixRoundTrip.

Lemma apartFrom_pairwise (cond : string -> bool) (f : string -> string)
    (todo : list img) :
  forall seen,
    (forall d i, d ∈ seen ++ todo -> i ∈ todo ->
       cond (i_src d) = true -> cond (i_src i) = true ->
       (i_quote d, f (i_src d)) <> (i_quote i, i_src i)) ->
    apartFrom cond f seen todo.
Proof.
  induction todo as [|i todo IH]; intros seen H; [exact I|]. split.
  - intros Hc. apply Forall_forall. intros d Hd Hcd.
    apply H; try assumption; [|now left].
    apply elem_of_app. now left.
  - apply IH. intros d j Hd Hj. apply H; [|now right].
    rewrite <- app_assoc in Hd. exact Hd.
Qed.

Lemma startsWith_differs (p v v' : string) :
  Js.startsWith v' p = false -> p +:+ v <> v'.
Proof. intros H <-. now rewrite startsWith_app in H. Qed.

Variables (lead prefix : string).

(** What the round trip asks of a source: it does not begin with the prefix
    already and, when it is a relative path, it has no [$] and forms no
    [src=] with the prefix. *)
Let unprefixed (i : img) : Prop :=
  Js.startsWith (i_src i) prefix = false /\
  (isRelative (i_src i) = true ->
   lacks "$" (i_src i) /\ absent "src=" (prefix +:+ i_src i)).

Hypothesis prefix_no_dquote : lacks dquote prefix.
Hypothesis prefix_no_squote : lacks squote prefix.
Hypothesis prefix_no_dollar : lacks "$" prefix.

Lemma prefixed_plain (i : img) :
  tagged i -> unprefixed i -> isRelative (i_src i) = true ->
  plainSource (i_quote i) (prefix +:+ i_src i).
Proof.
  intros Hi [_ Hu] Hrel. destruct (Hu Hrel) as [Hdollar Hsrc].
  split; [|split; [|split]].
  - pose proof (src_some i Hi). destruct prefix; [assumption | discriminate].
  - apply lacks_app. split; [|apply (src_unquoted i Hi)].
    destruct (quote_kind i Hi) as [-> | ->]; assumption.
  - exact Hsrc.
  - apply lacks_app. auto.
Qed.

Lemma addPrefix_rewritable (imgs : list img) :
  Forall tagged imgs -> Forall unprefixed imgs ->
  rewritable isRelative (String.append prefix) imgs.
Proof.
  intros Ht Hu. split; [exact Ht | |].
  - apply Forall_forall. intros i Hi.
    rewrite Forall_forall in Ht, Hu. now apply prefixed_plain; auto.
  - apply apartFrom_pairwise. intros d i _ Hi _ _ [= _ E].
    rewrite Forall_forall in Hu. destruct (Hu i Hi) as [Hp _].
    now apply (startsWith_differs prefix (i_src d) (i_src i)).
Qed.

Lemma hasPrefix_prefixed (v : string) :
  isRelative v = true -> hasPrefix (prefix +:+ v) prefix = true.
Proof.
  intros Hrel. unfold hasPrefix. rewrite startsWith_app. cbn [andb].
  destruct (String.eqb_spec prefix "/") as [->|]; [|reflexivity].
  cbn [andb]. unfold isRelative in Hrel.
  apply andb_prop in Hrel as [Hrel _]. destruct v as [|c v]; [reflexivity|].
  cbn in *. now destruct (Ascii.eqb "/" c).
Qed.

Lemma hasPrefix_unprefixed (v : string) :
  Js.startsWith v prefix = false -> hasPrefix v prefix = false.
Proof. unfold hasPrefix. now intros ->. Qed.

Lemma removePrefix_restores (i : img) :
  unprefixed i ->
  rewriteSrc (fun src => hasPrefix src prefix) (Js.drop (String.length prefix))
    (rewriteSrc isRelative (String.append prefix) i) = i.
Proof.
  intros [Hp _]. unfold rewriteSrc at 2.
  destruct (isRelative (i_src i)) eqn:Hrel; unfold rewriteSrc.
  - cbn [withSource i_src]. rewrite (hasPrefix_prefixed _ Hrel).
    rewrite str_drop_app. now destruct i.
  - now rewrite (hasPrefix_unprefixed _ Hp).
Qed.

Lemma removePrefix_rewritable (imgs : list img) :
  Forall tagged imgs -> Forall unprefixed imgs ->
  rewritable (fun src => hasPrefix src prefix) (Js.drop (String.length prefix))
    (map (rewriteSrc isRelative (String.append prefix)) imgs).
Proof.
  intros Ht Hu. rewrite Forall_forall in Ht, Hu.
  assert (forall j, j ∈ map (rewriteSrc isRelative (String.append prefix)) imgs ->
            hasPrefix (i_src j) prefix = true ->
            exists i, i ∈ imgs /\ isRelative (i_src i) = true /\
                      j = withSource (prefix +:+ i_src i) i) as Hinv.
  { intros j (i & -> & Hi)%list_elem_of_fmap. unfold rewriteSrc.
    destruct (isRelative (i_src i)) eqn:Hrel; [eauto|].
    destruct (Hu i Hi) as [Hp _]. now rewrite (hasPrefix_unprefixed _ Hp). }
  split.
  - apply Forall_forall. intros j (i & -> & Hi)%list_elem_of_fmap.
    apply rewriteSrc_tagged; [now apply Ht|].
    intros Hrel. now apply prefixed_plain; auto.
  - apply Forall_forall. intros j Hj Hc.
    destruct (Hinv j Hj Hc) as (i & Hi & Hrel & ->).
    cbn [withSource i_src i_quote]. rewrite str_drop_app.
    destruct (Hu i Hi) as [_ Hplain]. destruct (Hplain Hrel) as [Hdollar _].
    pose proof (Ht i Hi) as Hti.
    split; [apply (src_some i Hti)|]. split; [apply (src_unquoted i Hti)|].
    split; [apply (src_plain i Hti) | exact Hdollar].
  - apply apartFrom_pairwise. intros d j Hd Hj Hcd Hcj. cbn [app] in Hd.
    destruct (Hinv d Hd Hcd) as (d0 & Hd0 & _ & ->).
    destruct (Hinv j Hj Hcj) as (j0 & Hj0 & _ & ->).
    cbn [withSource i_src i_quote]. rewrite str_drop_app. intros [= _ E].
    destruct (Hu d0 Hd0) as [Hp _].
    now apply (startsWith_differs prefix (i_src j0) (i_src d0)).
Qed.

End PrefixRoundTrip.



(** The round trip needs its condition: with the sources [img/a.png] and
    [a.png] and the prefix [img/], the second substitution of [removePrefix]
    falls on the first tag. *)
Remark addPrefix_removePrefix_clash :
  exists html',
    addPrefix "<img src='img/a.png'><img src='a.png'>" "img/" = Ok html' /\
    removePrefix html' "img/" = Ok "<img src='a.png'><img src='img/a.png'>".
Proof. eexists. split; vm_compute; reflexivity. Qed.

(** * What [addRawUrls] writes *)

Section AddRawUrls.

Variables (owner repo branch : string).

Lemma str_app_inv_head (x y z : string) : x +:+ y = x +:+ z -> y = z.
Proof. induction x as [|c x IH]; cbn; [trivial|]. intros [= E]. auto. Qed.

Lemma fullPathOf_inj (p p' : string) :
  fullPathOf owner repo branch p = fullPathOf owner repo branch p' -> p = p'.
Proof.
  unfold fullPathOf. rewrite <- !str_app_assoc. apply str_app_inv_head.
Qed.

Lemma listedUrl_none (files : list file) (k : string) :
  Forall (fun g => fullPathOf owner repo branch (path g) <> k) files ->
  listedUrl owner repo branch files k = None.
Proof.
  induction 1 as [|g files Hg _ IH]; [reflexivity|]. cbn [listedUrl].
  rewrite IH. now destruct (String.eqb_spec (fullPathOf owner repo branch (path g)) k).
Qed.

Lemma listedUrl_last (pre : list file) (f : file) (post : list file) :
  Forall (fun g => path g <> path f) post ->
  listedUrl owner repo branch (pre ++ f :: post)
    (fullPathOf owner repo branch (path f)) = Some (download_url f).
Proof.
  intros Hpost. induction pre as [|p pre IH]; cbn [app listedUrl].
  - rewrite listedUrl_none, String.eqb_refl; [reflexivity|].
    eapply Forall_impl; [exact Hpost|]. intros g Hg E.
    now apply fullPathOf_inj in E.
  - now rewrite IH.
Qed.

Lemma addRawUrls_frame (files : option (list file)) (st : state) :
  paths (addRawUrls owner repo branch files st) = paths st /\
  requests (addRawUrls owner repo branch files st) = requests st.
Proof.
  destruct files as [files|]; [|auto]. cbn [addRawUrls].
  revert st. induction files as [|f files IH]; intros st; [auto|].
  cbn [fold_left].
  apply (IH {| urls := _; paths := paths st; requests := requests st |}).
Qed.

End AddRawUrls.

(** X15.  [addRawUrls] writes only [urls]: under the key of each descriptor it
    leaves the download URL of the last descriptor with that path, and it
    leaves every other key as it was; without descriptors it does
    nothing. *)
Theorem addRawUrls_last_wins (owner repo branch : string)
    (files : option (list file)) (st : state) :
  let st' := addRawUrls owner repo branch files st in
  paths st' = paths st /\ requests st' = requests st /\
  (files = None -> st' = st) /\
  (forall fs, files = Some fs ->
     (forall pre f post, fs = pre ++ f :: post ->
        Forall (fun g => path g <> path f) post ->
        urls st' !! fullPathOf owner repo branch (path f)
          = Some (download_url f)) /\
     (forall k, Forall (fun g => fullPathOf owner repo branch (path g) <> k) fs ->
        urls st' !! k = urls st !! k)).
Proof.
  intros st'. destruct (addRawUrls_frame owner repo branch files st) as [Hp Hr].
  split; [exact Hp|]. split; [exact Hr|]. split; [now intros ->|].
  intros fs ->. subst st'. split.
  - intros pre f post -> Hpost.
    now rewrite addRawUrls_lookup, listedUrl_last.
  - intros k Hk. now rewrite addRawUrls_lookup, listedUrl_none.
Qed.

Lemma addRawUrls_last_wins_witness :
  let files := [ {| path := "a.png"; download_url := VStr "https://x/1" |};
                 {| path := "a.png"; download_url := VStr "https://x/2" |} ] in
  let st' := addRawUrls "o" "r" "main" (Some files) listedOnce in
  urls st' !! "o/r/main/a.png" = Some (VStr "https://x/2") /\
  urls st' !! "o/r/main/docs/a.png" = urls listedOnce !! "o/r/main/docs/a.png" /\
  addRawUrls "o" "r" "main" None listedOnce = listedOnce.
Proof.
  intros files st'.
  destruct (addRawUrls_last_wins "o" "r" "main" (Some files) listedOnce)
    as (_ & _ & _ & H).
  destruct (H files eq_refl) as [H1 H2].
  destruct (addRawUrls_last_wins "o" "r" "main" None listedOnce)
    as (_ & _ & H3 & _).
  split; [|split].
  - apply (H1 [ {| path := "a.png"; download_url := VStr "https://x/1" |} ]
              {| path := "a.png"; download_url := VStr "https://x/2" |} []);
      [reflexivity | constructor].
  - apply H2. repeat constructor; discriminate.
  - apply H3. reflexivity.
Defined.

(** * One listing serves the directory *)

Lemma setStatus_last (gh : github) (x : listing) (s : status) :
  setStatus (length gh) s (gh ++ [x]) = gh ++ [withStatus s x].
Proof.
  unfold setStatus. rewrite list_lookup_middle by reflexivity.
  rewrite insert_app_r_alt by lia. now rewrite Nat.sub_diag.
Qed.



(** * A cached URL is served as it is *)

Lemma cached_call (l : loop) (now now' : Z) (owner repo branch path : string) :
  truthy (prop (urls (cache l)) (fullPathOf owner repo branch path)) = true ->
  step l (Call now now' owner repo branch path)
  = {| cache := cache l; listings := listings l; waiting := waiting l;
       completed := completed l ++
         [(started l, Ok (prop (urls (cache l))
                            (fullPathOf owner repo branch path)))];
       started := S (started l) |}.
Proof.
  intros H. cbn [step].
  now rewrite (getRawUrl_start_cached now owner repo branch path _ _ H).
Qed.



(** * What holds in every state the program reaches *)


Section Accounting.

Lemma resumeAll_ids (clock : nat -> Z) (pid : nat)
    (files : option (list file)) (ws : list call) :
  forall i st st' keep done,
    resumeAll clock i pid files ws st = (st', keep, done) ->
    map c_id keep ++ map fst done ≡ₚ map c_id ws.
Proof.
  induction ws as [|w ws IH]; intros i st st' keep done; cbn [resumeAll].
  - now intros [= _ <- <-].
  - destruct (Nat.eqb (c_pid w) pid).
    + destruct (getRawUrl_resume _ _ _ _ _ _ _) as [st1 v].
      destruct (resumeAll _ _ _ _ _ _) as [[st2 keep2] done2] eqn:E.
      intros [= _ <- <-]. cbn [map fst].
      rewrite <- Permutation_middle. constructor. eapply IH, E.
    + destruct (resumeAll _ _ _ _ _ _) as [[st2 keep2] done2] eqn:E.
      intros [= _ <- <-]. cbn [map app]. constructor. eapply IH, E.
Qed.

Lemma rejectAll_ids (pid : nat) (ws keep : list call)
    (done : list (nat * result value)) :
  rejectAll pid ws = (keep, done) ->
  map c_id keep ++ map fst done ≡ₚ map c_id ws.
Proof.
  revert keep done. induction ws as [|w ws IH]; intros keep done;
    cbn [rejectAll].
  - now intros [= <- <-].
  - destruct (rejectAll pid ws) as [keep' done'].
    specialize (IH _ _ eq_refl). destruct (Nat.eqb (c_pid w) pid);
      intros [= <- <-]; cbn [map fst app].
    + rewrite <- Permutation_middle. now constructor.
    + now constructor.
Qed.

Lemma step_accounted (l : loop) (e : event) :
  accounted l -> accounted (step l e).
Proof.
  unfold accounted. intros Hl. destruct e as [now now' o r b p|pid answer clock];
    cbn [step].
  - destruct (getRawUrl_start _ _ _ _ _ _ _) as [[st gh] [v|pid]].
    + cbn [waiting completed started]. rewrite seq_S, map_app, app_assoc.
      cbn [map fst plus]. now rewrite Hl.
    + destruct (statusOf gh pid) as [[|files|]|];
        try destruct (getRawUrl_resume _ _ _ _ _ _ _) as [st1 v];
        cbn [waiting completed started]; rewrite seq_S, map_app;
        cbn [map fst c_id plus];
        try (rewrite app_assoc; now rewrite Hl);
        rewrite <- Hl, <- !app_assoc; apply Permutation_app_head,
          Permutation_app_comm.
  - destruct (statusOf (listings l) pid) as [[| |]|]; try exact Hl.
    destruct answer as [files|].
    + destruct (resumeAll _ _ _ _ _ _) as [[st keep] done] eqn:E.
      cbn [waiting completed started]. apply resumeAll_ids in E.
      rewrite <- Hl, <- E, map_app, <- !app_assoc.
      apply Permutation_app_head, Permutation_app_comm.
    + destruct (rejectAll pid (waiting l)) as [keep done] eqn:E.
      cbn [waiting completed started]. apply rejectAll_ids in E.
      rewrite <- Hl, <- E, map_app, <- !app_assoc.
      apply Permutation_app_head, Permutation_app_comm.
Qed.

Lemma step_listings (l : loop) (e : event) :
  length (listings l) <= started l ->
  length (listings (step l e)) <= started (step l e).
Proof.
  intros Hl. destruct e as [now now' o r b p|pid answer clock]; cbn [step].
  - destruct (getRawUrl_start _ _ _ _ _ _ _) as [[st gh] out] eqn:E.
    apply getRawUrl_start_spec in E as (_ & _ & Ho).
    assert (length gh <= S (length (listings l))) as Hgh.
    { destruct out as [v|pid]; [destruct Ho as [_ ->]; lia|].
      destruct Ho as (_ & [(_ & -> & _)|(_ & _ & -> & _)]); [lia|].
      rewrite length_app. simpl. lia. }
    destruct out as [v|pid]; [cbn [listings started]; destruct Ho as [_ ->]; lia|].
    destruct (statusOf gh pid) as [[|files|]|];
      try destruct (getRawUrl_resume _ _ _ _ _ _ _) as [st1 v];
      cbn [listings started]; lia.
  - destruct (statusOf (listings l) pid) as [[| |]|]; try exact Hl.
    assert (forall s, length (setStatus pid s (listings l))
                      = length (listings l)) as Hlen.
    { intros s. unfold setStatus.
      destruct (listings l !! pid); now rewrite ?length_insert. }
    destruct answer as [files|].
    + destruct (resumeAll _ _ _ _ _ _) as [[st keep] done].
      cbn [listings started]. now rewrite Hlen.
    + destruct (rejectAll pid (waiting l)) as [keep done].
      cbn [listings started]. now rewrite Hlen.
Qed.

End Accounting.


(** X20.  The collaborator is invoked at most once per call of [getRawUrl]: the
    listings never outnumber the calls. *)
Theorem listings_bounded (es : list event) :
  let l := runEvents emptyLoop es in
  length (listings l) <= started l.
Proof.
  intros l. subst l.
  assert (forall l, length (listings l) <= started l ->
                    length (listings (runEvents l es))
                    <= started (runEvents l es)) as H.
  { induction es as [|e es IH]; intros l Hl; [exact Hl|].
    apply IH, step_listings, Hl. }
  apply H. reflexivity.
Qed.

(** * The cache only grows *)

Section Growth.

Lemma addRawUrls_keeps (owner repo branch : string)
    (files : option (list file)) (st : state) (k : string) :
  is_Some (urls st !! k) ->
  is_Some (urls (addRawUrls owner repo branch files st) !! k).
Proof.
  destruct files as [files|]; [|trivial]. rewrite addRawUrls_lookup.
  destruct (listedUrl owner repo branch files k); eauto.
Qed.

Lemma resumeAll_keeps (clock : nat -> Z) (pid : nat)
    (files : option (list file)) (k : string) (ws : list call) :
  forall i st st' keep done,
    resumeAll clock i pid files ws st = (st', keep, done) ->
    is_Some (urls st !! k) -> is_Some (urls st' !! k).
Proof.
  induction ws as [|w ws IH]; intros i st st' keep done; cbn [resumeAll].
  - now intros [= <- _ _].
  - destruct (Nat.eqb (c_pid w) pid).
    + destruct (getRawUrl_resume _ _ _ _ _ _ _) as [st1 v] eqn:E1.
      destruct (resumeAll _ _ _ _ _ _) as [[st2 keep2] done2] eqn:E.
      intros [= <- _ _] Hk. eapply IH; [exact E|].
      apply getRawUrl_resume_spec in E1 as (-> & _ & _).
      now apply addRawUrls_keeps.
    + destruct (resumeAll _ _ _ _ _ _) as [[st2 keep2] done2] eqn:E.
      intros [= <- _ _]. eapply IH, E.
Qed.

Lemma step_keeps (l : loop) (e : event) (k : string) :
  is_Some (urls (cache l) !! k) -> is_Some (urls (cache (step l e)) !! k).
Proof.
  intros Hk. destruct e as [now now' o r b p|pid answer clock]; cbn [step].
  - destruct (getRawUrl_start _ _ _ _ _ _ _) as [[st gh] out] eqn:E.
    apply getRawUrl_start_urls in E. rewrite <- E in Hk.
    destruct out as [v|pid]; [exact Hk|].
    destruct (statusOf gh pid) as [[|files|]|]; try exact Hk.
    destruct (getRawUrl_resume _ _ _ _ _ _ _) as [st1 v] eqn:E1.
    apply getRawUrl_resume_spec in E1 as (E1 & _ & _).
    cbn [cache]. rewrite E1. now apply addRawUrls_keeps.
  - destruct (statusOf (listings l) pid) as [[| |]|]; try exact Hk.
    destruct answer as [files|].
    + destruct (resumeAll _ _ _ _ _ _) as [[st keep] done] eqn:E.
      cbn [cache]. eapply resumeAll_keeps; eassumption.
    + destruct (rejectAll pid (waiting l)) as [keep done]. exact Hk.
Qed.

End Growth.

(** X21.  No entry of [urls] is ever deleted: a key that the cache holds stays in
    it whatever happens next (its value can be overwritten by a later
    listing). *)
Theorem urls_never_deleted (l : loop) (es : list event) (k : string) :
  is_Some (urls (cache l) !! k) ->
  is_Some (urls (cache (runEvents l es)) !! k).
Proof.
  revert l. induction es as [|e es IH]; intros l Hk; [exact Hk|].
  apply IH, step_keeps, Hk.
Qed.

Lemma urls_never_deleted_witness :
  is_Some
    (urls (cache (runEvents
       {| cache := listedOnce; listings := []; waiting := [];
          completed := []; started := 0 |}
       [Call 50000 50001 "o" "r" "main" "docs/b.png";
        Settle 0 (Some (Some [])) (fun _ => 50002%Z)]))
     !! "o/r/main/docs/a.png").
Proof.
  apply urls_never_deleted. now exists (VStr "https://x/a.png").
Defined.

(** * [relativeToRawUrls] run to completion *)

(** X22.  In public mode [relativeToRawUrls] always returns a text, the same
    whatever the cache holds and the clock reads; it changes neither the
    cache nor the collaborator. *)
Theorem relativeToRawUrls_public_pure (owner repo branch html : string) :
  exists html',
    forall w tick st gh,
      relativeToRawUrls w owner repo branch html false tick st gh
      = (st, gh, tick, Ok html').
Proof.
  destruct (forEachMatch_rewritten
              (fun quote src newHtml =>
                 if isRelative src then
                   substituteRawUrl quote src
                     (VStr (publicRawUrl owner repo branch src)) newHtml
                 else newHtml)) with (ms := getImgSrcs html) (h := html)
    as (html' & E & _).
  - intros quote src h. destruct (isRelative src); [|now left]. right.
    now eexists.
  - apply getImgSrcs_srcOf.
  - exists html'. intros w tick st gh.
    rewrite relativeToRawUrls_public_eq. unfold relativeToRawUrls_public.
    now rewrite E.
Qed.

Section Reliable.

Variable w : world.

Hypothesis w_reliable : reliable w.

Lemma setStatus_noneRejected (pid : nat) (files : option (list file))
    (gh : github) :
  noneRejected gh -> noneRejected (setStatus pid (Fulfilled files) gh).
Proof.
  unfold noneRejected, setStatus. intros H.
  destruct (gh !! pid) as [x|]; [|exact H].
  apply Forall_insert; [exact H | discriminate].
Qed.

Lemma getRawUrl_reliable (owner repo branch path : string) (tick : nat)
    (st : state) (gh : github) :
  noneRejected gh ->
  exists st' gh' tick' v,
    getRawUrl w owner repo branch path true tick st gh
      = (st', gh', tick', Ok v) /\ noneRejected gh'.
Proof.
  intros Hgh. unfold getRawUrl.
  destruct (getRawUrl_start _ _ _ _ _ _ _) as [[st1 gh1] out] eqn:E.
  apply getRawUrl_start_spec in E as (_ & _ & Ho).
  assert (noneRejected gh1) as Hgh1.
  { destruct out as [v|pid]; [now destruct Ho as [_ ->]|].
    destruct Ho as (_ & [(_ & -> & _)|(_ & _ & -> & _)]); [exact Hgh|].
    apply Forall_app. split; [exact Hgh|]. repeat constructor. discriminate. }
  destruct out as [v|pid]; [eauto 10|].
  destruct (statusOf gh1 pid) as [[|files|]|] eqn:Hs.
  - destruct (answers w pid) as [files|] eqn:Ha;
      [|now destruct (w_reliable pid)].
    destruct (getRawUrl_resume _ _ _ _ _ _ _) as [st2 v].
    do 4 eexists. split; [reflexivity|]. now apply setStatus_noneRejected.
  - destruct (getRawUrl_resume _ _ _ _ _ _ _) as [st2 v]. eauto 10.
  - exfalso. apply statusOf_Some in Hs as (x & Hx & Hsx).
    unfold noneRejected in Hgh1. rewrite Forall_forall in Hgh1.
    apply (Hgh1 x); [|exact Hsx]. eapply list_elem_of_lookup_2, Hx.
  - destruct (answers w pid) as [files|] eqn:Ha;
      [|now destruct (w_reliable pid)].
    destruct (getRawUrl_resume _ _ _ _ _ _ _) as [st2 v].
    do 4 eexists. split; [reflexivity|]. now apply setStatus_noneRejected.
Qed.

Lemma relativeToRawUrls_loop_reliable (owner repo branch : string)
    (ms : list rmatch) :
  (forall m, m ∈ ms -> exists v, srcOf m = VStr v) ->
  forall h tick st gh,
    noneRejected gh ->
    exists st' gh' tick' h',
      relativeToRawUrls_loop w owner repo branch true ms h tick st gh
        = (st', gh', tick', Ok h') /\ noneRejected gh'.
Proof.
  induction ms as [|m ms IH]; intros Hms h tick st gh Hgh;
    cbn [relativeToRawUrls_loop]; [eauto 10|].
  assert (forall m', m' ∈ ms -> exists v, srcOf m' = VStr v) as Hms'
    by (intros m' Hm'; apply Hms; now right).
  destruct (Hms m (list_elem_of_here _ _)) as [v ->].
  destruct (isRelative v); [|now apply IH].
  destruct (getRawUrl_reliable owner repo branch v tick st gh Hgh)
    as (st1 & gh1 & tick1 & u & -> & Hgh1).
  now apply IH.
Qed.

End Reliable.



(** * [relativeToRawUrls] served from the cache *)

Section Served.

Variables (w : world) (owner repo branch : string).
Variables (st : state) (gh : github).

Let url (src : string) : value :=
  prop (urls st) (fullPathOf owner repo branch src).

Lemma getRawUrl_answered (src : string) (tick : nat) :
  answered w owner repo branch st src ->
  getRawUrl w owner repo branch src true tick st gh
  = (st, gh, S tick, Ok (orNull (url src))).
Proof.
  intros [Hu|(t & Ht & Hnz & Hfresh)]; unfold getRawUrl.
  - rewrite getRawUrl_start_cached by exact Hu.
    unfold orNull, url. now rewrite Hu.
  - now rewrite (getRawUrl_start_fresh _ _ _ _ _ _ _ t Ht Hnz (Hfresh tick)).
Qed.

Lemma relativeToRawUrls_loop_answered (ms : list rmatch) :
  (forall m, m ∈ ms -> exists v, srcOf m = VStr v /\
     (isRelative v = true -> answered w owner repo branch st v)) ->
  forall h tick,
    exists tick',
      relativeToRawUrls_loop w owner repo branch true ms h tick st gh
      = (st, gh, tick',
         forEachMatch
           (fun quote src newHtml =>
              if isRelative src then
                substituteRawUrl quote src (orNull (url src)) newHtml
              else newHtml) ms h).
Proof.
  induction ms as [|m ms IH]; intros Hms h tick;
    cbn [relativeToRawUrls_loop forEachMatch]; [eauto|].
  assert (forall m', m' ∈ ms -> exists v, srcOf m' = VStr v /\
            (isRelative v = true -> answered w owner repo branch st v))
    as Hms' by (intros m' Hm'; apply Hms; now right).
  destruct (Hms m (list_elem_of_here _ _)) as (v & Hv & Hans).
  unfold withSrc. rewrite Hv. cbn [bind].
  destruct (isRelative v); [|apply (IH Hms')].
  rewrite (getRawUrl_answered v tick (Hans eq_refl)). apply (IH Hms').
Qed.

End Served.



(** * A listing that fails *)

Section Failing.

Variables (w : world) (owner repo branch : string).
Variables (st : state) (gh : github).

Lemma relativeToRawUrls_loop_app (ms1 ms2 : list rmatch) :
  (forall m, m ∈ ms1 -> exists v, srcOf m = VStr v /\
     (isRelative v = true -> answered w owner repo branch st v)) ->
  forall h tick,
    exists h' tick',
      relativeToRawUrls_loop w owner repo branch true (ms1 ++ ms2) h tick st gh
      = relativeToRawUrls_loop w owner repo branch true ms2 h' tick' st gh.
Proof.
  induction ms1 as [|m ms1 IH]; intros Hms h tick; [now exists h, tick|].
  assert (forall m', m' ∈ ms1 -> exists v, srcOf m' = VStr v /\
            (isRelative v = true -> answered w owner repo branch st v))
    as Hms' by (intros m' Hm'; apply Hms; now right).
  destruct (Hms m (list_elem_of_here _ _)) as (v & Hv & Hans).
  cbn [app relativeToRawUrls_loop]. rewrite Hv.
  destruct (isRelative v); [|apply (IH Hms')].
  rewrite (getRawUrl_answered w owner repo branch st gh v tick (Hans eq_refl)).
  apply (IH Hms').
Qed.

End Failing.

(** X25.  In private mode [relativeToRawUrls] gives no text at all when a listing
    fails: if the tags in front of a tag are answered from the cache and the
    listing started for that tag is rejected, the call rejects, whatever was
    rewritten before; the rejected listing stays registered for the
    directory. *)
Theorem relativeToRawUrls_listing_fails (w : world)
    (owner repo branch lead : string) (pre : list img) (i : img)
    (post : list img) (tick : nat) (st : state) (gh : github) :
  let dir := fullPathOf owner repo branch (parentPathOf (i_src i)) in
  absent "<img " lead -> Forall tagged (pre ++ i :: post) ->
  Forall (fun d => isRelative (i_src d) = true ->
                   answered w owner repo branch st (i_src d)) pre ->
  isRelative (i_src i) = true ->
  truthy (prop (urls st) (fullPathOf owner repo branch (i_src i))) = false ->
  marked st dir = false -> requests st !! dir = None ->
  answers w (length gh) = None ->
  exists st' tick',
    relativeToRawUrls w owner repo branch (render lead (pre ++ i :: post))
      true tick st gh
    = (st',
       gh ++ [rejectedListing owner repo branch (parentPathOf (i_src i))],
       tick', ListingFailed) /\
    requests st' !! dir = Some (length gh).
Proof.
  intros dir Hlead Htagged Hpre Hrel Hu Hm Hr Hans.
  unfold relativeToRawUrls. rewrite getImgSrcs_render by assumption.
  rewrite map_app. cbn [map].
  apply Forall_app in Htagged as [Htpre Hti].
  apply Forall_cons in Hti as [Hti _].
  destruct (relativeToRawUrls_loop_app w owner repo branch st gh
              (map matchOf pre) (matchOf i :: map matchOf post))
    with (h := render lead (pre ++ i :: post)) (tick := tick)
    as (h' & tick' & ->).
  { intros m (d & -> & Hd)%list_elem_of_fmap.
    rewrite Forall_forall in Htpre, Hpre. exists (i_src d). split.
    - apply (srcOf_imgMatch _ _ _ _ (quote_kind d (Htpre d Hd))
               (src_some d (Htpre d Hd))).
    - now apply Hpre. }
  cbn [relativeToRawUrls_loop]. unfold matchOf at 1.
  destruct (srcOf_imgMatch (i_before i) (i_quote i) (i_src i) (i_after i)
              (quote_kind i Hti) (src_some i Hti)) as [-> _].
  rewrite Hrel. unfold getRawUrl.
  destruct (getRawUrl_start_idle owner repo branch (now w tick') (i_src i)
              st gh Hu (or_introl Hm) Hr) as (stA & -> & _ & _ & HrA).
  assert (statusOf (gh ++ [pendingListing owner repo branch
                             (parentPathOf (i_src i))]) (length gh)
          = Some Pending) as ->.
  { unfold statusOf. now rewrite list_lookup_middle. }
  rewrite Hans, setStatus_last. exists stA, (S (S tick')).
  split; [reflexivity|]. rewrite HrA. apply lookup_insert_eq.
Qed.

Lemma relativeToRawUrls_listing_fails_witness :
  exists st' tick',
    relativeToRawUrls stillWorld "o" "r" "main"
      "<p><img src='docs/a.png'><img src='img/c.png'></p>" true 0
      listedOnce []
    = (st', [rejectedListing "o" "r" "main" "img"], tick', ListingFailed) /\
    requests st' !! "o/r/main/img" = Some 0.
Proof.
  apply (relativeToRawUrls_listing_fails stillWorld "o" "r" "main" "<p>"
           [ {| i_before := ""; i_quote := squote; i_src := "docs/a.png";
                i_after := ""; i_text := "" |} ]
           {| i_before := ""; i_quote := squote; i_src := "img/c.png";
              i_after := ""; i_text := "</p>" |} [] 0 listedOnce []);
    try reflexivity.
  - concrete_tags.
  - apply Forall_cons. split; [|constructor]. intros _. now left.
Defined.

(** * A call run on its own and the event loop *)

Section Alone.

Variables (w : world) (owner repo branch path : string) (tick : nat).
Variable l : loop.

Hypothesis l_consistent : consistent l.
Hypothesis l_idle : waiting l = [].

Lemma idle_not_pending (pid : nat) (x : listing) :
  listings l !! pid = Some x -> l_status x <> Pending.
Proof.
  intros Hx Hp.
  destruct (pending_registered l l_consistent pid x Hx Hp) as [_ (c & Hc & _)].
  rewrite l_idle in Hc. now apply elem_of_nil in Hc.
Qed.

Lemma statusOf_beyond (gh : github) : statusOf gh (length gh) = None.
Proof. unfold statusOf. now rewrite lookup_ge_None_2. Qed.

Lemma alone_agrees :
  let pid := length (listings l) in
  let l' := runEvents l
              [Call (now w tick) (now w (S tick)) owner repo branch path;
               Settle pid (answers w pid) (fun _ => now w (S tick))] in
  let '(st', gh', _, r) :=
    getRawUrl w owner repo branch path true tick (cache l) (listings l) in
  cache l' = st' /\ listings l' = gh' /\ waiting l' = [] /\
  completed l' = completed l ++ [(started l, r)].
Proof.
  intros pid l'. subst l'. cbn [runEvents fold_left]. unfold getRawUrl.
  cbn [step].
  destruct (getRawUrl_start _ _ _ _ _ _ _) as [[st1 gh1] out] eqn:E.
  apply getRawUrl_start_spec in E as (_ & _ & Ho).
  destruct out as [v|p].
  { destruct Ho as [-> ->]. cbn [step listings]. fold pid.
    rewrite statusOf_beyond. cbn [cache listings waiting completed]. auto. }
  destruct Ho as (_ & [(Hr & -> & _)|(_ & -> & -> & _)]).
  - destruct (registered_known l l_consistent _ _ Hr) as (x & Hx & _ & Hsx).
    destruct Hsx as [Hsx|Hsx]; [now destruct (idle_not_pending p x Hx)|].
    assert (statusOf (listings l) p = Some Rejected) as ->
      by (apply statusOf_Some; eauto).
    cbn [step listings]. fold pid. rewrite statusOf_beyond.
    cbn [cache listings waiting completed]. auto.
  - fold pid.
    assert (statusOf (listings l ++
              [pendingListing owner repo branch (parentPathOf path)]) pid
            = Some Pending) as Hs.
    { unfold statusOf, pid. now rewrite list_lookup_middle. }
    rewrite Hs, l_idle. cbn [step listings waiting cache completed app].
    rewrite Hs. destruct (answers w pid) as [files|].
    + cbn [resumeAll c_pid c_id c_owner c_repo c_branch c_path].
      rewrite Nat.eqb_refl.
      destruct (getRawUrl_resume _ _ _ _ _ _ _) as [st2 v].
      cbn [cache listings waiting completed]. auto.
    + cbn [rejectAll c_pid c_id]. rewrite Nat.eqb_refl.
      cbn [cache listings waiting completed]. auto.
Qed.

End Alone.



(** * What a call settles to *)

Section Settled.

Lemma orNull_settled (v : value) : settled (Ok (orNull v)).
Proof.
  destruct v as [| |[|c u]]; unfold orNull; cbn; unfold settled; eauto.
Qed.

Lemma resumeAll_settled (clock : nat -> Z) (pid : nat)
    (files : option (list file)) (ws : list call) :
  forall i st st' keep done,
    resumeAll clock i pid files ws st = (st', keep, done) ->
    Forall (fun c => settled c.2) done.
Proof.
  induction ws as [|c ws IH]; intros i st st' keep done; cbn [resumeAll].
  - intros [= _ _ <-]. constructor.
  - destruct (Nat.eqb (c_pid c) pid).
    + destruct (getRawUrl_resume _ _ _ _ _ _ _) as [st1 v] eqn:E1.
      destruct (resumeAll _ _ _ _ _ _) as [[st2 keep2] done2] eqn:E.
      intros [= _ _ <-]. constructor; [|eapply IH, E].
      apply getRawUrl_resume_value in E1 as ->. apply orNull_settled.
    + destruct (resumeAll _ _ _ _ _ _) as [[st2 keep2] done2] eqn:E.
      intros [= _ _ <-]. eapply IH, E.
Qed.

Lemma rejectAll_settled (pid : nat) (ws keep : list call)
    (done : list (nat * result value)) :
  rejectAll pid ws = (keep, done) -> Forall (fun c => settled c.2) done.
Proof.
  revert keep done. induction ws as [|c ws IH]; intros keep done;
    cbn [rejectAll].
  - intros [= _ <-]. constructor.
  - destruct (rejectAll pid ws) as [keep' done'].
    specialize (IH _ _ eq_refl).
    destruct (Nat.eqb (c_pid c) pid); intros [= _ <-]; [|exact IH].
    constructor; [now left | exact IH].
Qed.

Lemma step_settled (l : loop) (e : event) :
  Forall (fun c => settled c.2) (completed l) ->
  Forall (fun c => settled c.2) (completed (step l e)).
Proof.
  intros Hl.
  assert (forall r, settled r ->
            Forall (fun c => settled c.2) (completed l ++ [(started l, r)]))
    as Hone.
  { intros r Hr. apply Forall_app. split; [exact Hl|].
    apply Forall_cons. split; [exact Hr | constructor]. }
  destruct e as [now now' o r b p|pid answer clock]; cbn [step].
  - destruct (getRawUrl_start _ _ _ _ _ _ _) as [[st gh] [v|pid]] eqn:E.
    + apply Hone. apply getRawUrl_start_return in E as ->.
      apply orNull_settled.
    + destruct (statusOf gh pid) as [[|files|]|]; try exact Hl.
      * destruct (getRawUrl_resume _ _ _ _ _ _ _) as [st1 v] eqn:E1.
        apply Hone. apply getRawUrl_resume_value in E1 as ->.
        apply orNull_settled.
      * apply Hone. now left.
  - destruct (statusOf (listings l) pid) as [[| |]|]; try exact Hl.
    destruct answer as [files|].
    + destruct (resumeAll _ _ _ _ _ _) as [[st keep] done] eqn:E.
      cbn [completed]. apply Forall_app. split; [exact Hl|].
      eapply resumeAll_settled, E.
    + destruct (rejectAll pid (waiting l)) as [keep done] eqn:E.
      cbn [completed]. apply Forall_app. split; [exact Hl|].
      eapply rejectAll_settled, E.
Qed.

End Settled.

(** X27.  Whatever the calls and the listings, a private-mode call settles to the
    failure of its listing, to [null] or to a non-empty URL: never to
    [undefined], to the empty string or to a [TypeError]. *)
Theorem calls_settle_normalised (es : list event) :
  Forall (fun c => settled c.2) (completed (runEvents emptyLoop es)).
Proof.
  assert (forall l, Forall (fun c => settled c.2) (completed l) ->
            Forall (fun c => settled c.2) (completed (runEvents l es))) as H.
  { induction es as [|e es IH]; intros l Hl; [exact Hl|].
    apply IH, step_settled, Hl. }
  apply H. constructor.
Qed.

(** * Converting twice *)


